(** * Pylon server: session relay and instruction framer

    A shallow embedding of the relay core of pylon-server:

    - [Framer]: the stateful Guacamole instruction parser of
      web/src/components/rdp/PylonTunnel.ts ([GuacamoleParser],
      [buildInstruction]);
    - [JsMap], [JsSet]: insertion-ordered [Map] and [Set] of the runtime;
    - [SessionManager]: services/session-manager.ts;
    - [Json], [Messages]: websocket/messages.ts;
    - [Server]: websocket/handler.ts, websocket/ssh-proxy.ts,
      websocket/rdp-proxy.ts and services/device-registry.ts, as one
      event-driven state machine with an explicit trace of socket calls;
    - [Tunnel]: the tunnel that PylonTunnel.ts builds on the framer
      ([createPylonTunnel]), with its handshake. *)

From Stdlib Require Import String Ascii.
From Stdlib Require Import List ZArith NArith Lia Bool Arith.
From Stdlib Require Import Decimal DecimalNat.
Import ListNotations.

Set Implicit Arguments.
Set Warnings "-register-all".

(* ===================================================================== *)
(** ** The instruction framer (PylonTunnel.ts)                            *)
(* ===================================================================== *)

Module Framer.

(** A JavaScript string is a sequence of UTF-16 code units.  The parser only
    ever compares a unit with ['0'], ['9'], ['.'], [','] and [';']. *)
Definition jschar := N.
Definition jsstring := list jschar.

Definition units (s : string) : jsstring :=
  map N_of_ascii (list_ascii_of_string s).

Definition DOT : jschar := 46%N.
Definition COMMA : jschar := 44%N.
Definition SEMI : jschar := 59%N.

(** [buf[pos] >= '0' && buf[pos] <= '9'] *)
Definition isDigit (c : jschar) : bool := ((48 <=? c) && (c <=? 57))%N.

(** The inner [while] of [tryParseOne]: the longest run of digits at the
    head of [rest = buf.substring(pos)], and what follows it. *)
Fixpoint readLength (rest : jsstring) : jsstring * jsstring :=
  match rest with
  | [] => ([], [])
  | c :: rest' =>
      if isDigit c
      then let (lengthStr, r) := readLength rest' in (c :: lengthStr, r)
      else ([], rest)
  end.

(** [parseInt(lengthStr, 10)] on a non-empty run of digits.  The value is
    exact here; the runtime rounds above 2^53, where it exceeds every
    possible buffer length all the same. *)
Definition digitValue (c : jschar) : nat := N.to_nat (c - 48).

Definition parseInt (lengthStr : jsstring) : nat :=
  fold_left (fun acc c => 10 * acc + digitValue c) lengthStr 0.

(** The outer [while (pos < buf.length)] of [tryParseOne].  [rest] is
    [buf.substring(pos)], [elements] the elements pushed so far.  Every
    iteration consumes at least two units, so [length rest] iterations
    are enough ([tryParseElems_fuel]). *)
Fixpoint tryParseElems (fuel pos : nat) (rest : jsstring)
    (elements : list jsstring) : option (list jsstring * nat) :=
  match fuel with
  | 0 => None
  | S fuel' =>
      match rest with
      | [] => None                                   (* loop exit: incomplete *)
      | _ :: _ =>
          let (lengthStr, r1) := readLength rest in
          match lengthStr with
          | [] => None                               (* need more data *)
          | _ :: _ =>
              match r1 with
              | [] => None                           (* need more data *)
              | c :: r2 =>
                  if negb (c =? DOT)%N then None     (* malformed, but wait *)
                  else
                    let pos1 := pos + length lengthStr + 1 in
                    let len := parseInt lengthStr in
                    if length r2 <? len then None    (* need more data *)
                    else
                      let value := firstn len r2 in
                      let pos2 := pos1 + len in
                      let elements' := elements ++ [value] in
                      match skipn len r2 with
                      | [] => None                   (* need terminator *)
                      | d :: r3 =>
                          if (d =? SEMI)%N then Some (elements', pos2 + 1)
                          else if (d =? COMMA)%N
                               then tryParseElems fuel' (pos2 + 1) r3 elements'
                               else None             (* unexpected char *)
                      end
              end
          end
      end
  end.

Definition tryParseOne (buffer : jsstring) : option (list jsstring * nat) :=
  tryParseElems (length buffer) 0 buffer [].

(** One emitted instruction: [callback(elements[0], elements.slice(1))]. *)
Definition instruction := (jsstring * list jsstring)%type.

(** The [while (this.buffer.length > 0)] of [feed]; returns the buffer left
    and the callback invocations in order.  Every successful
    [tryParseOne] consumes at least three units. *)
Fixpoint feedLoop (fuel : nat) (buffer : jsstring)
    : jsstring * list instruction :=
  match fuel with
  | 0 => (buffer, [])
  | S fuel' =>
      match buffer with
      | [] => (buffer, [])
      | _ :: _ =>
          match tryParseOne buffer with
          | None => (buffer, [])
          | Some (elements, consumed) =>
              let (buffer', out) := feedLoop fuel' (skipn consumed buffer) in
              match elements with
              | [] => (buffer', out)
              | opcode :: args => (buffer', (opcode, args) :: out)
              end
          end
      end
  end.

(** [feed(data, callback)] from parser state [buffer]. *)
Definition feed (buffer data : jsstring) : jsstring * list instruction :=
  feedLoop (length (buffer ++ data)) (buffer ++ data).

(** [String(n)] for a string length: decimal, no leading zero. *)
Fixpoint unitsOfUint (d : Decimal.uint) : jsstring :=
  match d with
  | Nil => []
  | D0 d => 48%N :: unitsOfUint d
  | D1 d => 49%N :: unitsOfUint d
  | D2 d => 50%N :: unitsOfUint d
  | D3 d => 51%N :: unitsOfUint d
  | D4 d => 52%N :: unitsOfUint d
  | D5 d => 53%N :: unitsOfUint d
  | D6 d => 54%N :: unitsOfUint d
  | D7 d => 55%N :: unitsOfUint d
  | D8 d => 56%N :: unitsOfUint d
  | D9 d => 57%N :: unitsOfUint d
  end.

Definition toDecimal (n : nat) : jsstring := unitsOfUint (Nat.to_uint n).

(** [parts.join(',')] *)
Fixpoint join (parts : list jsstring) : jsstring :=
  match parts with
  | [] => []
  | [p] => p
  | p :: ps => p ++ COMMA :: join ps
  end.

(** [buildInstruction(elements)] *)
Definition buildInstruction (elements : list jsstring) : jsstring :=
  join (map (fun el => toDecimal (length el) ++ DOT :: el) elements) ++ [SEMI].

(** The opcode/argument pair the callback receives for [elements]. *)
Definition asInstruction (elements : list jsstring) : list instruction :=
  match elements with
  | [] => []
  | opcode :: args => [(opcode, args)]
  end.

(** *** The wire grammar, for stating what [tryParseOne] accepts *)

(** [lengthStr] is a length prefix for [value]. *)
Definition lengthPrefix (lengthStr value : jsstring) : Prop :=
  lengthStr <> [] /\ forallb isDigit lengthStr = true
  /\ parseInt lengthStr = length value.

(** [elementsText els txt]: [txt] is the text of one complete instruction
    with elements [els]: [<len>.<el>] joined by [','], closed by [';']. *)
Inductive elementsText : list jsstring -> jsstring -> Prop :=
| ET_last : forall ds v,
    lengthPrefix ds v -> elementsText [v] (ds ++ DOT :: v ++ [SEMI])
| ET_more : forall ds v els txt,
    lengthPrefix ds v -> elementsText els txt ->
    elementsText (v :: els) (ds ++ DOT :: v ++ COMMA :: txt).

(** A run of well-formed elements, each followed by [','], where the next
    element of the same instruction must start. *)
Inductive elementsPrefix : jsstring -> Prop :=
| EP_nil : elementsPrefix []
| EP_cons : forall ds v p,
    lengthPrefix ds v -> elementsPrefix p ->
    elementsPrefix (ds ++ DOT :: v ++ COMMA :: p).

(** The two structurally invalid heads: inside an instruction, a length
    prefix followed by a unit that is neither a digit nor ['.'], or an
    element followed by a unit that is neither [','] nor [';']. *)
Inductive invalidHead : jsstring -> Prop :=
| IH_length : forall p ds c rest,
    elementsPrefix p -> ds <> [] -> forallb isDigit ds = true ->
    isDigit c = false -> c <> DOT ->
    invalidHead (p ++ ds ++ c :: rest)
| IH_delimiter : forall p ds v c rest,
    elementsPrefix p -> lengthPrefix ds v -> c <> COMMA -> c <> SEMI ->
    invalidHead (p ++ ds ++ DOT :: v ++ c :: rest).

(** [run buffer]: the loop of [feed] on the buffer after the append. *)
Definition run (buffer : jsstring) : jsstring * list instruction :=
  feedLoop (length buffer) buffer.

End Framer.

(* ===================================================================== *)
(** ** The runtime's [Map] and [Set]                                      *)
(* ===================================================================== *)

(** [Map<string, V>]: entries in insertion order, one per key.  The order
    is what [for (const [k, v] of map)] visits. *)
Module JsMap.
Section WithValue.
Variable V : Type.

Definition t := list (string * V).

Definition empty : t := [].

Fixpoint get (m : t) (k : string) : option V :=
  match m with
  | [] => None
  | (k', v) :: m' => if String.eqb k' k then Some v else get m' k
  end.

Definition has (m : t) (k : string) : bool :=
  match get m k with Some _ => true | None => false end.

(** [map.set(k, v)]: an existing key keeps its place. *)
Fixpoint set (m : t) (k : string) (v : V) : t :=
  match m with
  | [] => [(k, v)]
  | (k', v') :: m' =>
      if String.eqb k' k then (k', v) :: m' else (k', v') :: set m' k v
  end.

Fixpoint delete (m : t) (k : string) : t :=
  match m with
  | [] => []
  | (k', v') :: m' =>
      if String.eqb k' k then m' else (k', v') :: delete m' k
  end.

Definition keys (m : t) : list string := map fst m.
Definition values (m : t) : list V := map snd m.
End WithValue.
End JsMap.

(** [Set<string>]: members in insertion order, each once. *)
Module JsSet.
Definition t := list string.

Definition empty : t := [].

Definition has (s : t) (x : string) : bool := existsb (String.eqb x) s.

Definition add (s : t) (x : string) : t := if has s x then s else s ++ [x].

Fixpoint delete (s : t) (x : string) : t :=
  match s with
  | [] => []
  | y :: s' => if String.eqb y x then s' else y :: delete s' x
  end.

Definition size (s : t) : nat := length s.
End JsSet.

(* ===================================================================== *)
(** ** The session manager (services/session-manager.ts)                  *)
(* ===================================================================== *)

(** A [WebSocket] object is referred to by its identity. *)
Definition SocketId := nat.

Inductive SessionStatus := connecting | active | closed.

Record TerminalSize := { cols : Z; rows : Z }.

Module SSHSession.
Record t := {
  id : string;
  deviceId : string;
  browserSocket : SocketId;
  agentSocket : SocketId;
  status : SessionStatus;
  createdAt : Z;
  terminalSize : TerminalSize
}.
End SSHSession.

Module RDPSession.
Record t := {
  id : string;
  deviceId : string;
  browserSocket : SocketId;
  agentSocket : SocketId;
  status : SessionStatus;
  createdAt : Z
}.
End RDPSession.

Module SessionManager.

(** [type SocketLookup = (id: string) => WebSocket | undefined] *)
Definition SocketLookup := string -> option SocketId.

(** The [Error]s thrown by [createSession] and [createRDPSession]. *)
Inductive CreateError :=
| LookupsNotConfigured
| BrowserSocketNotFound (browserId : string)
| AgentSocketNotFound (deviceId : string)
| SessionAlreadyExists (sessionId : string).

(** The source keeps one triple of maps per session kind
    ([sessions], [sessionsByBrowser], [sessionsByDevice] and the three
    [rdp...] ones) and repeats the same code on each; here the code is
    written once over the type [S] of the session record. *)
Section WithSession.
Variable S : Type.

Record Indexes := {
  sessions : JsMap.t S;
  sessionsByBrowser : JsMap.t JsSet.t;
  sessionsByDevice : JsMap.t JsSet.t
}.

Definition noSessions : Indexes :=
  {| sessions := []; sessionsByBrowser := []; sessionsByDevice := [] |}.

(** [if (!index.has(key)) index.set(key, new Set());
     index.get(key)?.add(id);] *)
Definition addToIndex (index : JsMap.t JsSet.t) (key id : string)
    : JsMap.t JsSet.t :=
  let index1 := if JsMap.has index key then index
                else JsMap.set index key JsSet.empty in
  match JsMap.get index1 key with
  | Some ids => JsMap.set index1 key (JsSet.add ids id)
  | None => index1
  end.

(** [for (const [key, ids] of index) {
       if (ids.delete(sessionId) && ids.size === 0) {
         index.delete(key); break; } }] *)
Fixpoint removeFromIndex (index : JsMap.t JsSet.t) (sessionId : string)
    : JsMap.t JsSet.t :=
  match index with
  | [] => []
  | (key, ids) :: index' =>
      if JsSet.has ids sessionId then
        let ids' := JsSet.delete ids sessionId in
        if JsSet.size ids' =? 0 then index'
        else (key, ids') :: removeFromIndex index' sessionId
      else (key, ids) :: removeFromIndex index' sessionId
  end.

(** The body shared by [createSession] and [createRDPSession];
    [mk id browserSocket agentSocket] builds the record.  [uuid] is the
    value [randomUUID()] returns when it is called. *)
Definition createIn (mk : string -> SocketId -> SocketId -> S)
    (browserSocketLookup agentSocketLookup : option SocketLookup)
    (uuid deviceId browserId : string) (sessionId : option string)
    (idx : Indexes) : CreateError + (S * Indexes) :=
  match browserSocketLookup, agentSocketLookup with
  | Some browserLookup, Some agentLookup =>
      match browserLookup browserId with
      | None => inl (BrowserSocketNotFound browserId)
      | Some browserSocket =>
          match agentLookup deviceId with
          | None => inl (AgentSocketNotFound deviceId)
          | Some agentSocket =>
              let id := match sessionId with Some i => i | None => uuid end in
              if JsMap.has (sessions idx) id
              then inl (SessionAlreadyExists id)
              else
                let session := mk id browserSocket agentSocket in
                inr (session,
                     {| sessions := JsMap.set (sessions idx) id session;
                        sessionsByBrowser :=
                          addToIndex (sessionsByBrowser idx) browserId id;
                        sessionsByDevice :=
                          addToIndex (sessionsByDevice idx) deviceId id |})
          end
      end
  | _, _ => inl LookupsNotConfigured
  end.

(** The body shared by [closeSession] and [closeRDPSession].  The
    [status = 'closed'] write goes to a record that leaves the map in
    the same call; [reason] is not used ([void reason]). *)
Definition closeIn (sessionId : string) (reason : option string)
    (idx : Indexes) : Indexes :=
  match JsMap.get (sessions idx) sessionId with
  | None => idx
  | Some _ =>
      {| sessions := JsMap.delete (sessions idx) sessionId;
         sessionsByBrowser := removeFromIndex (sessionsByBrowser idx) sessionId;
         sessionsByDevice := removeFromIndex (sessionsByDevice idx) sessionId |}
  end.

(** [getSession], [getRDPSession] *)
Definition getIn (sessionId : string) (idx : Indexes) : option S :=
  JsMap.get (sessions idx) sessionId.

(** The loop shared by the four [get...SessionsBy...]. *)
Definition collect (idx : Indexes) (ids : JsSet.t) : list S :=
  flat_map (fun id => match JsMap.get (sessions idx) id with
                      | Some session => [session]
                      | None => []
                      end) ids.

Definition getByDevice (deviceId : string) (idx : Indexes) : list S :=
  match JsMap.get (sessionsByDevice idx) deviceId with
  | None => []
  | Some ids => collect idx ids
  end.

Definition getByBrowser (browserId : string) (idx : Indexes) : list S :=
  match JsMap.get (sessionsByBrowser idx) browserId with
  | None => []
  | Some ids => collect idx ids
  end.
End WithSession.

Definition newSSHSession (now : Z) (deviceId id : string)
    (browserSocket agentSocket : SocketId) : SSHSession.t :=
  {| SSHSession.id := id;
     SSHSession.deviceId := deviceId;
     SSHSession.browserSocket := browserSocket;
     SSHSession.agentSocket := agentSocket;
     SSHSession.status := connecting;
     SSHSession.createdAt := now;
     SSHSession.terminalSize := {| cols := 80; rows := 24 |} |}.

Definition newRDPSession (now : Z) (deviceId id : string)
    (browserSocket agentSocket : SocketId) : RDPSession.t :=
  {| RDPSession.id := id;
     RDPSession.deviceId := deviceId;
     RDPSession.browserSocket := browserSocket;
     RDPSession.agentSocket := agentSocket;
     RDPSession.status := connecting;
     RDPSession.createdAt := now |}.

(** [createSession(deviceId, browserId, sessionId?)]; [now] is the clock
    read by [new Date()]. *)
Definition createSession
    (browserSocketLookup agentSocketLookup : option SocketLookup)
    (now : Z) (uuid deviceId browserId : string) (sessionId : option string)
    (idx : Indexes SSHSession.t)
    : CreateError + (SSHSession.t * Indexes SSHSession.t) :=
  createIn (newSSHSession now deviceId)
    browserSocketLookup agentSocketLookup uuid deviceId browserId sessionId idx.

Definition createRDPSession
    (browserSocketLookup agentSocketLookup : option SocketLookup)
    (now : Z) (uuid deviceId browserId : string) (sessionId : option string)
    (idx : Indexes RDPSession.t)
    : CreateError + (RDPSession.t * Indexes RDPSession.t) :=
  createIn (newRDPSession now deviceId)
    browserSocketLookup agentSocketLookup uuid deviceId browserId sessionId idx.

Definition closeSession := @closeIn SSHSession.t.
Definition closeRDPSession := @closeIn RDPSession.t.
Definition getSession := @getIn SSHSession.t.
Definition getRDPSession := @getIn RDPSession.t.
Definition getSessionsByDevice := @getByDevice SSHSession.t.
Definition getSessionsByBrowser := @getByBrowser SSHSession.t.
Definition getRDPSessionsByDevice := @getByDevice RDPSession.t.
Definition getRDPSessionsByBrowser := @getByBrowser RDPSession.t.

(** *** The manager as a whole: both kinds, driven by calls *)

Record Manager := {
  forSSH : Indexes SSHSession.t;
  forRDP : Indexes RDPSession.t
}.

Definition emptyManager : Manager :=
  {| forSSH := noSessions _; forRDP := noSessions _ |}.

(** One call of the module's interface, with what its environment
    supplies at that moment: the two lookups, the clock, the random id. *)
Inductive Call :=
| CreateSSH (browserSocketLookup agentSocketLookup : option SocketLookup)
    (now : Z) (uuid deviceId browserId : string) (sessionId : option string)
| CloseSSH (sessionId : string) (reason : option string)
| CreateRDP (browserSocketLookup agentSocketLookup : option SocketLookup)
    (now : Z) (uuid deviceId browserId : string) (sessionId : option string)
| CloseRDP (sessionId : string) (reason : option string).

(** The manager after a call; a call that throws leaves it as it was. *)
Definition call (m : Manager) (c : Call) : Manager :=
  match c with
  | CreateSSH bl al now uuid deviceId browserId sessionId =>
      match createSession bl al now uuid deviceId browserId sessionId (forSSH m) with
      | inl _ => m
      | inr (_, idx) => {| forSSH := idx; forRDP := forRDP m |}
      end
  | CloseSSH sessionId reason =>
      {| forSSH := closeSession sessionId reason (forSSH m); forRDP := forRDP m |}
  | CreateRDP bl al now uuid deviceId browserId sessionId =>
      match createRDPSession bl al now uuid deviceId browserId sessionId (forRDP m) with
      | inl _ => m
      | inr (_, idx) => {| forSSH := forSSH m; forRDP := idx |}
      end
  | CloseRDP sessionId reason =>
      {| forSSH := forSSH m; forRDP := closeRDPSession sessionId reason (forRDP m) |}
  end.

Definition calls (cs : list Call) : Manager := fold_left call cs emptyManager.

(** *** Agreement of the three indexes *)

(** [id] is a member of the bucket stored under [key]. *)
Definition inBucket (index : JsMap.t JsSet.t) (key id : string) : Prop :=
  exists ids, In (key, ids) index /\ In id ids.

(** The property of the three indexes of one kind: the ids of the by-id
    map are each in exactly one browser bucket and exactly one device
    bucket, and the buckets hold nothing else. *)
Definition indexesAgree (S : Type) (idx : Indexes S) : Prop :=
  (forall id, In id (JsMap.keys (sessions idx)) ->
     (exists! browserId, inBucket (sessionsByBrowser idx) browserId id) /\
     (exists! deviceId, inBucket (sessionsByDevice idx) deviceId id))
  /\ (forall browserId id, inBucket (sessionsByBrowser idx) browserId id ->
        In id (JsMap.keys (sessions idx)))
  /\ (forall deviceId id, inBucket (sessionsByDevice idx) deviceId id ->
        In id (JsMap.keys (sessions idx))).

(** All ids held by the buckets of an index, bucket after bucket. *)
Definition members (index : JsMap.t JsSet.t) : list string :=
  concat (JsMap.values index).

(** The representation invariant behind [indexesAgree]: keys and set
    members occur once, and the buckets of each index partition the ids
    of the by-id map. *)
Record wellFormed (S : Type) (idx : Indexes S) : Prop := {
  wf_sessions : NoDup (JsMap.keys (sessions idx));
  wf_browserKeys : NoDup (JsMap.keys (sessionsByBrowser idx));
  wf_deviceKeys : NoDup (JsMap.keys (sessionsByDevice idx));
  wf_browserMembers : NoDup (members (sessionsByBrowser idx));
  wf_deviceMembers : NoDup (members (sessionsByDevice idx));
  wf_browserIds : forall id,
    In id (members (sessionsByBrowser idx)) <-> In id (JsMap.keys (sessions idx));
  wf_deviceIds : forall id,
    In id (members (sessionsByDevice idx)) <-> In id (JsMap.keys (sessions idx))
}.

(** Every record is stored under its own [id]. *)
Definition keyedById (S : Type) (sid : S -> string) (idx : Indexes S) : Prop :=
  forall id session, In (id, session) (sessions idx) -> sid session = id.

(** The ids of all live sessions, of both kinds. *)
Definition liveIds (m : Manager) : list string :=
  JsMap.keys (sessions (forSSH m)) ++ JsMap.keys (sessions (forRDP m)).

(** Both kinds are well formed. *)
Definition wellFormedManager (m : Manager) : Prop :=
  wellFormed (forSSH m) /\ wellFormed (forRDP m).

End SessionManager.

(* ===================================================================== *)
(** ** Messages (websocket/messages.ts)                                   *)
(* ===================================================================== *)

(** What [JSON.parse] produces.  A finite number is kept as an integer:
    the relay tests numbers for finiteness and passes them on, it never
    computes with them.  The [fields] of an object are its own
    properties, each name once. *)
Module Json.
Local Open Scope string_scope.
Local Open Scope list_scope.

Inductive number := Finite (z : Z) | NonFinite.

Inductive value :=
| JNull
| JBool (b : bool)
| JNumber (n : number)
| JString (s : string)
| JArray (items : list value)
| JObject (fields : list (string * value)).

Fixpoint lookup (fields : list (string * value)) (name : string)
    : option value :=
  match fields with
  | [] => None
  | (k, v) :: fields' => if String.eqb k name then Some v else lookup fields' name
  end.

(** [v.name] for the property names the relay reads; [None] is
    [undefined].  An array has none of them. *)
Definition prop (v : value) (name : string) : option value :=
  match v with
  | JObject fields => lookup fields name
  | _ => None
  end.

(** [typeof v === 'object' && v !== null], with [None] for [undefined]. *)
Definition isObject (v : option value) : bool :=
  match v with
  | Some (JObject _) | Some (JArray _) => true
  | _ => false
  end.

(** [typeof v === 'string' && v.length !== 0] *)
Definition nonEmptyString (v : option value) : option string :=
  match v with
  | Some (JString s) => if String.eqb s "" then None else Some s
  | _ => None
  end.

(** [typeof v === 'number' && Number.isFinite(v)] *)
Definition finiteNumber (v : option value) : option Z :=
  match v with
  | Some (JNumber (Finite z)) => Some z
  | _ => None
  end.

(** The outcome of [JSON.parse(data)] on a received frame. *)
Inductive parsed :=
| SyntaxError (message : string)
| Parsed (v : value).

(** [{ ...(v !== undefined && { name: v }) }] *)
Definition optionalField (name : string) (v : option value)
    : list (string * value) :=
  match v with
  | Some x => [(name, x)]
  | None => []
  end.

(** [JSON.stringify(v)], as the value its text denotes, which is what the
    receiver's [JSON.parse] reads: a number that is not finite is written
    [null], at any depth; everything else is written as it is. *)
Fixpoint stringify (v : value) : value :=
  match v with
  | JNumber NonFinite => JNull
  | JArray items => JArray (map stringify items)
  | JObject fields =>
      JObject (map (fun field : string * value =>
                      let (name, x) := field in (name, stringify x)) fields)
  | _ => v
  end.

(** No number in [v] is [NaN] or infinite. *)
Fixpoint allFinite (v : value) : bool :=
  match v with
  | JNumber NonFinite => false
  | JArray items => forallb allFinite items
  | JObject fields =>
      forallb (fun field : string * value => allFinite (snd field)) fields
  | _ => true
  end.
End Json.

Module Messages.
Import Json.
Local Open Scope string_scope.
Local Open Scope list_scope.

Definition VALID_MESSAGE_TYPES : list string :=
  [ "agent:register"; "agent:heartbeat"; "devices:list:request";
    "ssh:session:request"; "ssh:session:response"; "ssh:data"; "ssh:resize";
    "ssh:close"; "rdp:session:request"; "rdp:session:response"; "rdp:data";
    "rdp:close"; "error" ].

Record ParsedMessage := {
  type : string;
  timestamp : Z;
  payload : option value
}.

(** The discriminated result of [parseMessage] and of the validators:
    [{ valid: false, error }] or [{ valid: true, message | data }]. *)
Inductive Validation (A : Type) :=
| invalid (error : string)
| valid (data : A).
Arguments invalid {A} error.
Arguments valid {A} data.

Definition isValidMessageStructure (obj : value) : option ParsedMessage :=
  if negb (isObject (Some obj)) then None
  else
    match nonEmptyString (prop obj "type") with
    | None => None
    | Some ty =>
        match finiteNumber (prop obj "timestamp") with
        | None => None
        | Some ts =>
            Some {| type := ty; timestamp := ts; payload := prop obj "payload" |}
        end
    end.

Definition parseMessage (data : parsed) : Validation ParsedMessage :=
  match data with
  | SyntaxError message => invalid ("Failed to parse JSON: " ++ message)
  | Parsed obj =>
      match isValidMessageStructure obj with
      | None =>
          invalid "Invalid message structure: must have type (string) and timestamp (number)"
      | Some message => valid message
      end
  end.

Definition isHandledMessageType (ty : string) : bool :=
  existsb (String.eqb ty) VALID_MESSAGE_TYPES.

Record Capabilities := { ssh : bool; rdp : option bool }.

Record AgentRegisterData := {
  reg_deviceId : string;
  reg_deviceName : string;
  reg_ipAddress : string;
  reg_capabilities : Capabilities
}.

Definition validateAgentRegisterPayload (payload : option value)
    : Validation AgentRegisterData :=
  match payload with
  | Some p =>
      if negb (isObject payload) then invalid "Payload must be an object"
      else
        match nonEmptyString (prop p "deviceId") with
        | None => invalid "deviceId must be a non-empty string"
        | Some deviceId =>
        match nonEmptyString (prop p "deviceName") with
        | None => invalid "deviceName must be a non-empty string"
        | Some deviceName =>
        match nonEmptyString (prop p "ipAddress") with
        | None => invalid "ipAddress must be a non-empty string"
        | Some ipAddress =>
        if negb (isObject (prop p "capabilities"))
        then invalid "capabilities must be an object"
        else
          match prop p "capabilities" with
          | None => invalid "capabilities must be an object"
          | Some caps =>
              match prop caps "ssh" with
              | Some (JBool sshFlag) =>
                  valid {| reg_deviceId := deviceId;
                           reg_deviceName := deviceName;
                           reg_ipAddress := ipAddress;
                           reg_capabilities :=
                             {| ssh := sshFlag;
                                rdp := match prop caps "rdp" with
                                       | Some (JBool r) => Some r
                                       | _ => None
                                       end |} |}
              | _ => invalid "capabilities.ssh must be a boolean"
              end
          end
        end end end
  | None => invalid "Payload must be an object"
  end.

Definition validateAgentHeartbeatPayload (payload : option value)
    : Validation string :=
  match payload with
  | Some p =>
      if negb (isObject payload) then invalid "Payload must be an object"
      else
        match nonEmptyString (prop p "deviceId") with
        | None => invalid "deviceId must be a non-empty string"
        | Some deviceId => valid deviceId
        end
  | None => invalid "Payload must be an object"
  end.

(** [createMessageString(type, payload)]: the message is represented by the
    value that [JSON.stringify] writes out; [now] is [Date.now()]. *)
Definition createMessageString (now : Z) (ty : string)
    (payload : option value) : value :=
  stringify
    (JObject ([("type", JString ty); ("timestamp", JNumber (Finite now))]
              ++ optionalField "payload" payload)).
Arguments createMessageString : simpl never.

(** [createErrorMessage(code, message, details)]; an [undefined]
    [details] is left out by [JSON.stringify]. *)
Definition createErrorMessage (now : Z) (code message : string)
    (details : option value) : value :=
  createMessageString now "error"
    (Some (JObject ([("code", JString code); ("message", JString message)]
                    ++ optionalField "details" details))).

Record SessionRequestData := { req_deviceId : string; req_sessionId : string }.

Definition validateSshSessionRequestPayload (payload : option value)
    : Validation SessionRequestData :=
  match payload with
  | Some p =>
      if negb (isObject payload) then invalid "Payload must be an object"
      else
        match nonEmptyString (prop p "deviceId") with
        | None => invalid "deviceId must be a non-empty string"
        | Some deviceId =>
            match nonEmptyString (prop p "sessionId") with
            | None => invalid "sessionId must be a non-empty string"
            | Some sessionId =>
                valid {| req_deviceId := deviceId; req_sessionId := sessionId |}
            end
        end
  | None => invalid "Payload must be an object"
  end.

Record SessionResponseData := {
  resp_sessionId : string;
  resp_success : bool;
  resp_error : option string
}.

Definition validateSshSessionResponsePayload (payload : option value)
    : Validation SessionResponseData :=
  match payload with
  | Some p =>
      if negb (isObject payload) then invalid "Payload must be an object"
      else
        match nonEmptyString (prop p "sessionId") with
        | None => invalid "sessionId must be a non-empty string"
        | Some sessionId =>
            match prop p "success" with
            | Some (JBool success) =>
                match prop p "error" with
                | None =>
                    valid {| resp_sessionId := sessionId;
                             resp_success := success; resp_error := None |}
                | Some (JString e) =>
                    valid {| resp_sessionId := sessionId;
                             resp_success := success; resp_error := Some e |}
                | Some _ => invalid "error must be a string when provided"
                end
            | _ => invalid "success must be a boolean"
            end
        end
  | None => invalid "Payload must be an object"
  end.

Record DataData := { data_sessionId : string; data_data : string }.

Definition validateSshDataPayload (payload : option value)
    : Validation DataData :=
  match payload with
  | Some p =>
      if negb (isObject payload) then invalid "Payload must be an object"
      else
        match nonEmptyString (prop p "sessionId") with
        | None => invalid "sessionId must be a non-empty string"
        | Some sessionId =>
            match prop p "data" with
            | Some (JString d) =>
                valid {| data_sessionId := sessionId; data_data := d |}
            | _ => invalid "data must be a string"
            end
        end
  | None => invalid "Payload must be an object"
  end.

Record ResizeData := {
  resize_sessionId : string;
  resize_cols : Z;
  resize_rows : Z
}.

Definition validateSshResizePayload (payload : option value)
    : Validation ResizeData :=
  match payload with
  | Some p =>
      if negb (isObject payload) then invalid "Payload must be an object"
      else
        match nonEmptyString (prop p "sessionId") with
        | None => invalid "sessionId must be a non-empty string"
        | Some sessionId =>
            match finiteNumber (prop p "cols") with
            | None => invalid "cols must be a number"
            | Some c =>
                match finiteNumber (prop p "rows") with
                | None => invalid "rows must be a number"
                | Some r =>
                    valid {| resize_sessionId := sessionId;
                             resize_cols := c; resize_rows := r |}
                end
            end
        end
  | None => invalid "Payload must be an object"
  end.

Record CloseData := { close_sessionId : string; close_reason : option string }.

Definition validateSshClosePayload (payload : option value)
    : Validation CloseData :=
  match payload with
  | Some p =>
      if negb (isObject payload) then invalid "Payload must be an object"
      else
        match nonEmptyString (prop p "sessionId") with
        | None => invalid "sessionId must be a non-empty string"
        | Some sessionId =>
            match prop p "reason" with
            | None =>
                valid {| close_sessionId := sessionId; close_reason := None |}
            | Some (JString r) =>
                valid {| close_sessionId := sessionId; close_reason := Some r |}
            | Some _ => invalid "reason must be a string when provided"
            end
        end
  | None => invalid "Payload must be an object"
  end.

(** The four [validateRdp...] functions repeat the bodies of their SSH
    counterparts word for word. *)
Definition validateRdpSessionRequestPayload := validateSshSessionRequestPayload.
Definition validateRdpSessionResponsePayload := validateSshSessionResponsePayload.
Definition validateRdpDataPayload := validateSshDataPayload.
Definition validateRdpClosePayload := validateSshClosePayload.

(** [a || b] on strings: the empty string is falsy. *)
Definition orElse (a b : string) : string := if String.eqb a "" then b else a.

End Messages.

(* ===================================================================== *)
(** ** The relay (websocket/handler.ts, ssh-proxy.ts, rdp-proxy.ts,
       services/device-registry.ts)                                       *)
(* ===================================================================== *)

Module Server.
Import Json Messages SessionManager.
Local Open Scope string_scope.
Local Open Scope list_scope.

Inductive ConnectionType := agent | browser.

(** [WebSocket.readyState] *)
Inductive ReadyState := CONNECTING | OPEN | CLOSING | CLOSED.

Module AgentConnectionInfo.
Record t := {
  socket : SocketId;
  deviceId : string;
  deviceName : string;
  ipAddress : string;
  capabilities : Capabilities;
  connectedAt : Z;
  lastHeartbeat : Z
}.
End AgentConnectionInfo.

Module BrowserConnectionInfo.
Record t := {
  id : string;
  socket : SocketId;
  connectedAt : Z
}.
End BrowserConnectionInfo.

(** One accepted transport: the state of the [WebSocket] object and what
    the closures installed by [handleConnection] captured for it:
    [registeredDeviceId] of [handleAgentConnection], [connectionInfo.id]
    of [handleBrowserConnection]. *)
Record Connection := {
  readyState : ReadyState;
  connectionType : ConnectionType;
  connectedAt : Z;
  registeredDeviceId : option string;
  browserId : string
}.

(** The module-level state of the process. *)
Record State := {
  agentConnections : JsMap.t AgentConnectionInfo.t;
  browserConnections : JsMap.t BrowserConnectionInfo.t;
  sshIndexes : Indexes SSHSession.t;
  rdpIndexes : Indexes RDPSession.t;
  sockets : list (SocketId * Connection)
}.

Definition initial : State :=
  {| agentConnections := []; browserConnections := [];
     sshIndexes := noSessions _; rdpIndexes := noSessions _; sockets := [] |}.

(** A call made on a socket.  Logging is not part of the trace. *)
Inductive Effect :=
| Send (socket : SocketId) (message : value)
| Close (socket : SocketId) (code : Z) (reason : string).

(** *** Handlers as state transformers with a trace *)

Definition M (A : Type) : Type := State -> A * State * list Effect.

Definition ret (A : Type) (a : A) : M A := fun st => (a, st, []).

Definition bind (A B : Type) (c : M A) (k : A -> M B) : M B :=
  fun st =>
    let '(a, st1, t1) := c st in
    let '(b, st2, t2) := k a st1 in
    (b, st2, t1 ++ t2).

Definition gets (A : Type) (f : State -> A) : M A := fun st => (f st, st, []).
Definition modify (f : State -> State) : M unit := fun st => (tt, f st, []).
Definition emit (e : Effect) : M unit := fun st => (tt, st, [e]).

Declare Scope relay_scope.
Delimit Scope relay_scope with relay.
Notation "x <- c ;; k" := (bind c (fun x => k))
  (at level 61, c at next level, right associativity) : relay_scope.
Notation "c ;; k" := (bind c (fun _ => k))
  (at level 61, right associativity) : relay_scope.
Local Open Scope relay_scope.

(** [for (const x of xs) body(x)] *)
Fixpoint forEach (A : Type) (xs : list A) (body : A -> M unit) : M unit :=
  match xs with
  | [] => ret tt
  | x :: xs' => body x ;; forEach xs' body
  end.

Definition stateOf (A : Type) (r : A * State * list Effect) : State :=
  snd (fst r).
Definition traceOf (A : Type) (r : A * State * list Effect) : list Effect :=
  snd r.

(** *** Sockets *)

Fixpoint connection (table : list (SocketId * Connection)) (s : SocketId)
    : option Connection :=
  match table with
  | [] => None
  | (s', c) :: table' => if Nat.eqb s' s then Some c else connection table' s
  end.

Fixpoint updateConnection (table : list (SocketId * Connection))
    (s : SocketId) (f : Connection -> Connection)
    : list (SocketId * Connection) :=
  match table with
  | [] => []
  | (s', c) :: table' =>
      if Nat.eqb s' s then (s', f c) :: table'
      else (s', c) :: updateConnection table' s f
  end.

Definition withSockets (table : list (SocketId * Connection)) (st : State)
    : State :=
  {| agentConnections := agentConnections st;
     browserConnections := browserConnections st;
     sshIndexes := sshIndexes st; rdpIndexes := rdpIndexes st;
     sockets := table |}.

Definition withAgentConnections (m : JsMap.t AgentConnectionInfo.t)
    (st : State) : State :=
  {| agentConnections := m;
     browserConnections := browserConnections st;
     sshIndexes := sshIndexes st; rdpIndexes := rdpIndexes st;
     sockets := sockets st |}.

Definition withBrowserConnections (m : JsMap.t BrowserConnectionInfo.t)
    (st : State) : State :=
  {| agentConnections := agentConnections st;
     browserConnections := m;
     sshIndexes := sshIndexes st; rdpIndexes := rdpIndexes st;
     sockets := sockets st |}.

Definition withSshIndexes (idx : Indexes SSHSession.t) (st : State) : State :=
  {| agentConnections := agentConnections st;
     browserConnections := browserConnections st;
     sshIndexes := idx; rdpIndexes := rdpIndexes st;
     sockets := sockets st |}.

Definition withRdpIndexes (idx : Indexes RDPSession.t) (st : State) : State :=
  {| agentConnections := agentConnections st;
     browserConnections := browserConnections st;
     sshIndexes := sshIndexes st; rdpIndexes := idx;
     sockets := sockets st |}.

Definition withReadyState (r : ReadyState) (c : Connection) : Connection :=
  {| readyState := r; connectionType := connectionType c;
     connectedAt := connectedAt c;
     registeredDeviceId := registeredDeviceId c; browserId := browserId c |}.

Definition withRegisteredDeviceId (d : option string) (c : Connection)
    : Connection :=
  {| readyState := readyState c; connectionType := connectionType c;
     connectedAt := connectedAt c;
     registeredDeviceId := d; browserId := browserId c |}.

(** [socket.readyState === socket.OPEN] *)
Definition isOpen (st : State) (s : SocketId) : bool :=
  match connection (sockets st) s with
  | Some c => match readyState c with OPEN => true | _ => false end
  | None => false
  end.

(** [socket.send(message)] *)
Definition socketSend (s : SocketId) (message : value) : M unit :=
  emit (Send s message).

(** [sendIfOpen(socket, message)] of both proxies *)
Definition sendIfOpen (s : SocketId) (message : value) : M unit :=
  open <- gets (fun st => isOpen st s) ;;
  if open then socketSend s message else ret tt.

(** [socket.close(code, reason)]: an open transport starts closing; its
    ['close'] event comes later, as an event of its own. *)
Definition socketClose (s : SocketId) (code : Z) (reason : string) : M unit :=
  emit (Close s code reason) ;;
  modify (fun st =>
    withSockets
      (updateConnection (sockets st) s
         (fun c => match readyState c with
                   | OPEN => withReadyState CLOSING c
                   | _ => c
                   end)) st).

(** The lookups that handler.ts installs with [setSessionSocketLookups]. *)
Definition getBrowserSocket (st : State) : SocketLookup :=
  fun browserId =>
    option_map BrowserConnectionInfo.socket
      (JsMap.get (browserConnections st) browserId).

Definition getAgentSocket (st : State) : SocketLookup :=
  fun deviceId =>
    option_map AgentConnectionInfo.socket
      (JsMap.get (agentConnections st) deviceId).

(** *** Device lists *)

Inductive DeviceStatus := online | offline.

Definition statusString (s : DeviceStatus) : string :=
  match s with online => "online" | offline => "offline" end.

(** An item of [devices:list:response.payload.devices]. *)
Record DeviceListItem := {
  item_id : string;
  item_name : string;
  item_ipAddress : string;
  item_status : DeviceStatus;
  item_capabilities : Capabilities
}.

(** [getDeviceList()] of handler.ts *)
Definition getDeviceList (st : State) : list DeviceListItem :=
  map (fun entry : string * AgentConnectionInfo.t =>
         let (deviceId, info) := entry in
         {| item_id := deviceId;
            item_name := AgentConnectionInfo.deviceName info;
            item_ipAddress := AgentConnectionInfo.ipAddress info;
            item_status := online;
            item_capabilities := AgentConnectionInfo.capabilities info |})
      (agentConnections st).

Definition capabilitiesJson (c : Capabilities) : value :=
  JObject (("ssh", JBool (ssh c))
           :: optionalField "rdp" (option_map JBool (rdp c))).

Definition deviceJson (d : DeviceListItem) : value :=
  JObject [("id", JString (item_id d)); ("name", JString (item_name d));
           ("ipAddress", JString (item_ipAddress d));
           ("status", JString (statusString (item_status d)));
           ("capabilities", capabilitiesJson (item_capabilities d))].

(** [createMessageString('devices:list:response', { devices })] *)
Definition deviceListMessage (now : Z) (devices : list DeviceListItem) : value :=
  createMessageString now "devices:list:response"
    (Some (JObject [("devices", JArray (map deviceJson devices))])).

(** [broadcastToBrowsers(message)] *)
Definition broadcastToBrowsers (message : value) : M unit :=
  browsers <- gets (fun st => JsMap.values (browserConnections st)) ;;
  forEach browsers (fun b => sendIfOpen (BrowserConnectionInfo.socket b) message).

(** *** services/device-registry.ts *)

Definition STALE_THRESHOLD_MS : Z := 90 * 1000.
Definition CLEANUP_INTERVAL_MS : Z := 30 * 1000.

Record Device := {
  dev_id : string;
  dev_name : string;
  dev_ipAddress : string;
  dev_status : DeviceStatus;
  dev_capabilities : Capabilities;
  dev_lastSeen : Z;
  dev_connectedAt : Z
}.

(** [now - connection.lastHeartbeat > STALE_THRESHOLD_MS] *)
Definition isStale (now : Z) (c : AgentConnectionInfo.t) : bool :=
  (STALE_THRESHOLD_MS <? now - AgentConnectionInfo.lastHeartbeat c)%Z.

Definition deviceOf (now : Z) (c : AgentConnectionInfo.t) : Device :=
  {| dev_id := AgentConnectionInfo.deviceId c;
     dev_name := AgentConnectionInfo.deviceName c;
     dev_ipAddress := AgentConnectionInfo.ipAddress c;
     dev_status := if isStale now c then offline else online;
     dev_capabilities := AgentConnectionInfo.capabilities c;
     dev_lastSeen := AgentConnectionInfo.lastHeartbeat c;
     dev_connectedAt := AgentConnectionInfo.connectedAt c |}.

Definition getDevice (now : Z) (deviceId : string) (st : State)
    : option Device :=
  option_map (deviceOf now) (JsMap.get (agentConnections st) deviceId).

Definition getAllDevices (now : Z) (st : State) : list Device :=
  map (deviceOf now) (JsMap.values (agentConnections st)).

Definition getOnlineDevices (now : Z) (st : State) : list Device :=
  map (deviceOf now)
    (filter (fun c => negb (isStale now c)) (JsMap.values (agentConnections st))).

Definition updateLastHeartbeat (now : Z) (c : AgentConnectionInfo.t)
    : AgentConnectionInfo.t :=
  {| AgentConnectionInfo.socket := AgentConnectionInfo.socket c;
     AgentConnectionInfo.deviceId := AgentConnectionInfo.deviceId c;
     AgentConnectionInfo.deviceName := AgentConnectionInfo.deviceName c;
     AgentConnectionInfo.ipAddress := AgentConnectionInfo.ipAddress c;
     AgentConnectionInfo.capabilities := AgentConnectionInfo.capabilities c;
     AgentConnectionInfo.connectedAt := AgentConnectionInfo.connectedAt c;
     AgentConnectionInfo.lastHeartbeat := now |}.

(** [connection.lastHeartbeat = Date.now()] on the object stored under
    [deviceId], when there is one. *)
Definition touch (now : Z) (deviceId : string)
    (m : JsMap.t AgentConnectionInfo.t) : JsMap.t AgentConnectionInfo.t :=
  match JsMap.get m deviceId with
  | Some c => JsMap.set m deviceId (updateLastHeartbeat now c)
  | None => m
  end.

(** The entries [cleanupStaleConnections] finds stale, in map order. *)
Definition staleEntries (now : Z) (st : State)
    : list (string * AgentConnectionInfo.t) :=
  filter (fun entry => isStale now (snd entry)) (agentConnections st).

(** [cleanupStaleConnections()] *)
Definition cleanupStaleConnections (now : Z) : M unit :=
  stale <- gets (staleEntries now) ;;
  forEach stale (fun entry =>
    socketClose (AgentConnectionInfo.socket (snd entry)) 1000 "Stale connection") ;;
  forEach stale (fun entry =>
    modify (fun st =>
      withAgentConnections (JsMap.delete (agentConnections st) (fst entry)) st)).

Definition getRegistryStats (now : Z) (st : State) : nat * nat * nat :=
  let all := getAllDevices now st in
  let onlineDevices :=
    filter (fun d => match dev_status d with online => true | offline => false end)
      all in
  (length all, length onlineDevices, length all - length onlineDevices).

(** *** The two proxies, written once over the session kind *)

(** What differs between ssh-proxy.ts and rdp-proxy.ts: the words in
    message types and error codes, the record type, and the triple of
    indexes used. *)
Record SessionKind (S : Type) := {
  kindName : string;
  kindUpper : string;
  sid : S -> string;
  sdeviceId : S -> string;
  sbrowserSocket : S -> SocketId;
  sagentSocket : S -> SocketId;
  withStatus : SessionStatus -> S -> S;
  create : option SocketLookup -> option SocketLookup -> Z -> string ->
           string -> string -> option string -> Indexes S ->
           CreateError + (S * Indexes S);
  indexes : State -> Indexes S;
  withIndexes : Indexes S -> State -> State
}.

Definition sshWithStatus (s : SessionStatus) (x : SSHSession.t) : SSHSession.t :=
  {| SSHSession.id := SSHSession.id x;
     SSHSession.deviceId := SSHSession.deviceId x;
     SSHSession.browserSocket := SSHSession.browserSocket x;
     SSHSession.agentSocket := SSHSession.agentSocket x;
     SSHSession.status := s;
     SSHSession.createdAt := SSHSession.createdAt x;
     SSHSession.terminalSize := SSHSession.terminalSize x |}.

Definition sshWithTerminalSize (t : TerminalSize) (x : SSHSession.t)
    : SSHSession.t :=
  {| SSHSession.id := SSHSession.id x;
     SSHSession.deviceId := SSHSession.deviceId x;
     SSHSession.browserSocket := SSHSession.browserSocket x;
     SSHSession.agentSocket := SSHSession.agentSocket x;
     SSHSession.status := SSHSession.status x;
     SSHSession.createdAt := SSHSession.createdAt x;
     SSHSession.terminalSize := t |}.

Definition rdpWithStatus (s : SessionStatus) (x : RDPSession.t) : RDPSession.t :=
  {| RDPSession.id := RDPSession.id x;
     RDPSession.deviceId := RDPSession.deviceId x;
     RDPSession.browserSocket := RDPSession.browserSocket x;
     RDPSession.agentSocket := RDPSession.agentSocket x;
     RDPSession.status := s;
     RDPSession.createdAt := RDPSession.createdAt x |}.

Definition SSH : SessionKind SSHSession.t :=
  {| kindName := "ssh"; kindUpper := "SSH";
     sid := SSHSession.id; sdeviceId := SSHSession.deviceId;
     sbrowserSocket := SSHSession.browserSocket;
     sagentSocket := SSHSession.agentSocket;
     withStatus := sshWithStatus;
     create := createSession;
     indexes := sshIndexes; withIndexes := withSshIndexes |}.

Definition RDP : SessionKind RDPSession.t :=
  {| kindName := "rdp"; kindUpper := "RDP";
     sid := RDPSession.id; sdeviceId := RDPSession.deviceId;
     sbrowserSocket := RDPSession.browserSocket;
     sagentSocket := RDPSession.agentSocket;
     withStatus := rdpWithStatus;
     create := createRDPSession;
     indexes := rdpIndexes; withIndexes := withRdpIndexes |}.

(** A write through a session reference obtained from the by-id map: the
    record stored under [key] changes, in place. *)
Fixpoint mutate (S : Type) (m : JsMap.t S) (key : string) (f : S -> S)
    : JsMap.t S :=
  match m with
  | [] => []
  | (k, v) :: m' =>
      if String.eqb k key then (k, f v) :: m' else (k, v) :: mutate m' key f
  end.

Definition mutateSession (S : Type) (key : string) (f : S -> S)
    (idx : Indexes S) : Indexes S :=
  {| sessions := mutate (sessions idx) key f;
     sessionsByBrowser := sessionsByBrowser idx;
     sessionsByDevice := sessionsByDevice idx |}.

Section Proxy.
Variable S : Type.
Variable K : SessionKind S.

Definition onIndexes (f : Indexes S -> Indexes S) : M unit :=
  modify (fun st => withIndexes K (f (indexes K st)) st).

(** [closeSession(id, reason)] / [closeRDPSession(id, reason)] *)
Definition close (sessionId : string) (reason : option string) : M unit :=
  onIndexes (closeIn sessionId reason).

(** [createMessageString('<kind>:close', { sessionId, reason })] *)
Definition closeMessage (now : Z) (sessionId reason : string) : value :=
  createMessageString now (kindName K ++ ":close")
    (Some (JObject [("sessionId", JString sessionId);
                    ("reason", JString reason)])).

Definition dataMessage (now : Z) (sessionId data : string) : value :=
  createMessageString now (kindName K ++ ":data")
    (Some (JObject [("sessionId", JString sessionId);
                    ("data", JString data)])).

(** [createSession(deviceId, browserId, sessionId)] inside [try]: the
    session, or the error caught.  The proxies always pass a session id,
    so [randomUUID()] is never drawn here. *)
Definition tryCreate (now : Z) (deviceId browserId sessionId : string)
    : M (CreateError + S) :=
  fun st =>
    match create K (Some (getBrowserSocket st)) (Some (getAgentSocket st))
            now "" deviceId browserId (Some sessionId) (indexes K st) with
    | inl e => (inl e, st, [])
    | inr (session, idx) => (inr session, withIndexes K idx st, [])
    end.

(** [handleSshSessionRequestFromBrowser], [handleRdpSessionRequestFromBrowser] *)
Definition handleSessionRequestFromBrowser (now : Z) (payload : option value)
    (browser : string) (browserSocket : SocketId) : M unit :=
  match validateSshSessionRequestPayload payload with
  | invalid error =>
      sendIfOpen browserSocket
        (createErrorMessage now ("INVALID_" ++ kindUpper K ++ "_SESSION_REQUEST")
           (orElse error "Invalid payload") None)
  | valid data =>
      created <- tryCreate now (req_deviceId data) browser (req_sessionId data) ;;
      match created with
      | inl _ =>
          sendIfOpen browserSocket
            (createErrorMessage now (kindUpper K ++ "_SESSION_CREATE_FAILED")
               ("Unable to create " ++ kindUpper K ++ " session") None)
      | inr session =>
          agentOpen <- gets (fun st => isOpen st (sagentSocket K session)) ;;
          if negb agentOpen then
            close (sid K session) (Some "Agent socket not open") ;;
            sendIfOpen browserSocket
              (createErrorMessage now (kindUpper K ++ "_AGENT_UNAVAILABLE")
                 "Agent is not available" None)
          else
            sendIfOpen (sagentSocket K session)
              (createMessageString now (kindName K ++ ":session:request")
                 (Some (JObject [("deviceId", JString (sdeviceId K session));
                                 ("sessionId", JString (sid K session))])))
      end
  end.

(** [handleSshSessionResponseFromAgent], [handleRdpSessionResponseFromAgent] *)
Definition handleSessionResponseFromAgent (now : Z) (payload : option value)
    : M unit :=
  match validateSshSessionResponsePayload payload with
  | invalid _ => ret tt
  | valid data =>
      found <- gets (fun st => getIn (resp_sessionId data) (indexes K st)) ;;
      match found with
      | None => ret tt
      | Some session =>
          (if resp_success data
           then onIndexes (mutateSession (resp_sessionId data) (withStatus K active))
           else
             onIndexes (mutateSession (resp_sessionId data) (withStatus K closed)) ;;
             close (sid K session) (resp_error data)) ;;
          sendIfOpen (sbrowserSocket K session)
            (createMessageString now (kindName K ++ ":session:response")
               (Some (JObject ([("sessionId", JString (sid K session));
                                ("success", JBool (resp_success data))]
                               ++ optionalField "error"
                                    (option_map JString (resp_error data))))))
      end
  end.

(** [handleSshDataFromBrowser], [handleRdpDataFromBrowser] *)
Definition handleDataFromBrowser (now : Z) (payload : option value) : M unit :=
  match validateSshDataPayload payload with
  | invalid _ => ret tt
  | valid data =>
      found <- gets (fun st => getIn (data_sessionId data) (indexes K st)) ;;
      match found with
      | None => ret tt
      | Some session =>
          sendIfOpen (sagentSocket K session)
            (dataMessage now (sid K session) (data_data data))
      end
  end.

(** [handleSshDataFromAgent], [handleRdpDataFromAgent] *)
Definition handleDataFromAgent (now : Z) (payload : option value) : M unit :=
  match validateSshDataPayload payload with
  | invalid _ => ret tt
  | valid data =>
      found <- gets (fun st => getIn (data_sessionId data) (indexes K st)) ;;
      match found with
      | None => ret tt
      | Some session =>
          sendIfOpen (sbrowserSocket K session)
            (dataMessage now (sid K session) (data_data data))
      end
  end.

(** [handleSshClose(payload, source, logger)], [handleRdpClose] *)
Definition handleClose (now : Z) (payload : option value)
    (source : ConnectionType) : M unit :=
  match validateSshClosePayload payload with
  | invalid _ => ret tt
  | valid data =>
      found <- gets (fun st => getIn (close_sessionId data) (indexes K st)) ;;
      match found with
      | None => ret tt
      | Some session =>
          let reason := match close_reason data with
                        | Some r => r
                        | None => "Session closed"
                        end in
          close (sid K session) (Some reason) ;;
          let targetSocket := match source with
                              | browser => sagentSocket K session
                              | agent => sbrowserSocket K session
                              end in
          sendIfOpen targetSocket (closeMessage now (sid K session) reason)
      end
  end.

Definition handleCloseFromBrowser (now : Z) (payload : option value) : M unit :=
  handleClose now payload browser.

Definition handleCloseFromAgent (now : Z) (payload : option value) : M unit :=
  handleClose now payload agent.

(** [closeSessionsForBrowser], [closeRdpSessionsForBrowser] *)
Definition closeSessionsForBrowser (now : Z) (browser : string) : M unit :=
  found <- gets (fun st => getByBrowser browser (indexes K st)) ;;
  forEach found (fun session =>
    close (sid K session) (Some "Browser disconnected") ;;
    sendIfOpen (sagentSocket K session)
      (closeMessage now (sid K session) "Browser disconnected")).

(** [closeSessionsForAgent], [closeRdpSessionsForAgent] *)
Definition closeSessionsForAgent (now : Z) (deviceId : string) : M unit :=
  found <- gets (fun st => getByDevice deviceId (indexes K st)) ;;
  forEach found (fun session =>
    close (sid K session) (Some "Agent disconnected") ;;
    sendIfOpen (sbrowserSocket K session)
      (closeMessage now (sid K session) "Agent disconnected")).
End Proxy.

(** [handleSshResizeFromBrowser] (terminal sessions only) *)
Definition handleSshResizeFromBrowser (now : Z) (payload : option value)
    : M unit :=
  match validateSshResizePayload payload with
  | invalid _ => ret tt
  | valid data =>
      found <- gets (fun st => getSession (resize_sessionId data) (sshIndexes st)) ;;
      match found with
      | None => ret tt
      | Some session =>
          onIndexes SSH
            (mutateSession (resize_sessionId data)
               (sshWithTerminalSize {| cols := resize_cols data;
                                       rows := resize_rows data |})) ;;
          sendIfOpen (SSHSession.agentSocket session)
            (createMessageString now "ssh:resize"
               (Some (JObject [("sessionId", JString (SSHSession.id session));
                               ("cols", JNumber (Finite (resize_cols data)));
                               ("rows", JNumber (Finite (resize_rows data)))])))
      end
  end.

(** *** websocket/handler.ts *)

(** [agent:register:ack] *)
Definition registerAck (now : Z) (success : bool) (deviceId : string)
    (error : option string) : value :=
  createMessageString now "agent:register:ack"
    (Some (JObject ([("success", JBool success); ("deviceId", JString deviceId)]
                    ++ optionalField "error" (option_map JString error)))).

(** [agent:heartbeat:ack] *)
Definition heartbeatAck (now : Z) : value :=
  createMessageString now "agent:heartbeat:ack"
    (Some (JObject [("success", JBool true);
                    ("timestamp", JNumber (Finite now))])).

(** The first step of a registration: [if (agentConnections.has(deviceId))
    existing.socket.close(1000, 'Replaced by new connection')]. *)
Definition replaceExisting (deviceId : string) : M unit :=
  existing <- gets (fun st => JsMap.get (agentConnections st) deviceId) ;;
  match existing with
  | Some info =>
      socketClose (AgentConnectionInfo.socket info) 1000
        "Replaced by new connection"
  | None => ret tt
  end.

(** The rest of it: store the connection, remember the device id in the
    handler's variable, acknowledge, tell the browsers. *)
Definition storeConnection (socket : SocketId) (data : AgentRegisterData)
    (connectedAt now : Z) : M unit :=
  let connectionInfo :=
    {| AgentConnectionInfo.socket := socket;
       AgentConnectionInfo.deviceId := reg_deviceId data;
       AgentConnectionInfo.deviceName := reg_deviceName data;
       AgentConnectionInfo.ipAddress := reg_ipAddress data;
       AgentConnectionInfo.capabilities := reg_capabilities data;
       AgentConnectionInfo.connectedAt := connectedAt;
       AgentConnectionInfo.lastHeartbeat := now |} in
  modify (fun st =>
    withAgentConnections
      (JsMap.set (agentConnections st) (reg_deviceId data) connectionInfo) st) ;;
  modify (fun st =>
    withSockets
      (updateConnection (sockets st) socket
         (withRegisteredDeviceId (Some (reg_deviceId data)))) st) ;;
  socketSend socket (registerAck now true (reg_deviceId data) None) ;;
  devices <- gets getDeviceList ;;
  broadcastToBrowsers (deviceListMessage now devices).

Definition handleAgentRegister (socket : SocketId) (payload : option value)
    (connectedAt now : Z) : M unit :=
  match validateAgentRegisterPayload payload with
  | invalid error => socketSend socket (registerAck now false "" (Some error))
  | valid data =>
      replaceExisting (reg_deviceId data) ;;
      storeConnection socket data connectedAt now
  end.

Definition handleAgentHeartbeat (socket : SocketId) (payload : option value)
    (now : Z) : M unit :=
  match validateAgentHeartbeatPayload payload with
  | invalid _ => ret tt
  | valid deviceId =>
      modify (fun st =>
        withAgentConnections (touch now deviceId (agentConnections st)) st) ;;
      socketSend socket (heartbeatAck now)
  end.

(** The [switch (type)] of the agent's ['message'] handler. *)
Definition dispatchAgent (socket : SocketId) (connectedAt now : Z)
    (ty : string) (payload : option value) : M unit :=
  if String.eqb ty "agent:register"
  then handleAgentRegister socket payload connectedAt now
  else if String.eqb ty "agent:heartbeat"
  then handleAgentHeartbeat socket payload now
  else if String.eqb ty "ssh:session:response"
  then handleSessionResponseFromAgent SSH now payload
  else if String.eqb ty "ssh:data" then handleDataFromAgent SSH now payload
  else if String.eqb ty "ssh:close" then handleCloseFromAgent SSH now payload
  else if String.eqb ty "rdp:session:response"
  then handleSessionResponseFromAgent RDP now payload
  else if String.eqb ty "rdp:data" then handleDataFromAgent RDP now payload
  else if String.eqb ty "rdp:close" then handleCloseFromAgent RDP now payload
  else ret tt.

(** [socket.on('message', ...)] of [handleAgentConnection] *)
Definition onAgentMessage (socket : SocketId) (connectedAt now : Z)
    (data : parsed) : M unit :=
  match parseMessage data with
  | invalid error =>
      socketSend socket
        (createErrorMessage now "INVALID_MESSAGE"
           (orElse error "Invalid message") None)
  | valid message =>
      if negb (isHandledMessageType (type message)) then ret tt
      else dispatchAgent socket connectedAt now (type message) (payload message)
  end.

(** [socket.on('close', ...)] of [handleAgentConnection] *)
Definition onAgentClose (now : Z) (registered : option string) : M unit :=
  match registered with
  | Some deviceId =>
      closeSessionsForAgent SSH now deviceId ;;
      closeSessionsForAgent RDP now deviceId ;;
      modify (fun st =>
        withAgentConnections (JsMap.delete (agentConnections st) deviceId) st) ;;
      devices <- gets getDeviceList ;;
      broadcastToBrowsers (deviceListMessage now devices)
  | None => ret tt
  end.

Definition handleDeviceListRequest (socket : SocketId) (now : Z) : M unit :=
  devices <- gets getDeviceList ;;
  socketSend socket (deviceListMessage now devices).

(** The [switch (type)] of the browser's ['message'] handler. *)
Definition dispatchBrowser (socket : SocketId) (browser : string) (now : Z)
    (ty : string) (payload : option value) : M unit :=
  if String.eqb ty "devices:list:request"
  then handleDeviceListRequest socket now
  else if String.eqb ty "ssh:session:request"
  then handleSessionRequestFromBrowser SSH now payload browser socket
  else if String.eqb ty "ssh:data" then handleDataFromBrowser SSH now payload
  else if String.eqb ty "ssh:resize" then handleSshResizeFromBrowser now payload
  else if String.eqb ty "ssh:close" then handleCloseFromBrowser SSH now payload
  else if String.eqb ty "rdp:session:request"
  then handleSessionRequestFromBrowser RDP now payload browser socket
  else if String.eqb ty "rdp:data" then handleDataFromBrowser RDP now payload
  else if String.eqb ty "rdp:close" then handleCloseFromBrowser RDP now payload
  else ret tt.

(** [socket.on('message', ...)] of [handleBrowserConnection] *)
Definition onBrowserMessage (socket : SocketId) (browser : string) (now : Z)
    (data : parsed) : M unit :=
  match parseMessage data with
  | invalid error =>
      socketSend socket
        (createErrorMessage now "INVALID_MESSAGE"
           (orElse error "Invalid message") None)
  | valid message =>
      if negb (isHandledMessageType (type message)) then ret tt
      else dispatchBrowser socket browser now (type message) (payload message)
  end.

(** [socket.on('close', ...)] of [handleBrowserConnection] *)
Definition onBrowserClose (now : Z) (browser : string) : M unit :=
  closeSessionsForBrowser SSH now browser ;;
  closeSessionsForBrowser RDP now browser ;;
  modify (fun st =>
    withBrowserConnections (JsMap.delete (browserConnections st) browser) st).

(** [handleConnection(socket, connectionType, logger)]; [uuid] is what
    [randomUUID()] returns for a browser.  The keep-alive ping timer
    touches none of the state modelled here. *)
Definition handleConnection (socket : SocketId) (ty : ConnectionType)
    (uuid : string) (now : Z) : M unit :=
  modify (fun st =>
    withSockets
      (sockets st ++
       [(socket, {| readyState := OPEN; connectionType := ty;
                    connectedAt := now; registeredDeviceId := None;
                    browserId := uuid |})]) st) ;;
  match ty with
  | agent => ret tt
  | browser =>
      modify (fun st =>
        withBrowserConnections
          (JsMap.set (browserConnections st) uuid
             {| BrowserConnectionInfo.id := uuid;
                BrowserConnectionInfo.socket := socket;
                BrowserConnectionInfo.connectedAt := now |}) st)
  end.

(** *** The event loop *)

(** The state after [closeSession] on each of [found], in order. *)
Definition closeAll (S : Type) (K : SessionKind S) (reason : string)
    (found : list S) (st : State) : State :=
  fold_left
    (fun st session =>
       withIndexes K (closeIn (sid K session) (Some reason) (indexes K st)) st)
    found st.

(** The state once the ['close'] event of [socket] is being handled:
    its [readyState] is [CLOSED]. *)
Definition markClosed (socket : SocketId) (st : State) : State :=
  withSockets (updateConnection (sockets st) socket (withReadyState CLOSED)) st.


(** What the runtime delivers to the process, one at a time. *)
Inductive Event :=
| Connected (socket : SocketId) (ty : ConnectionType) (uuid : string)
    (** a new transport is accepted on [/ws] *)
| Message (socket : SocketId) (data : parsed)
    (** the ['message'] event of [socket], with [JSON.parse] of the frame *)
| Closing (socket : SocketId)
    (** the peer or the network starts closing [socket] *)
| Closed (socket : SocketId)
    (** the ['close'] event of [socket] *)
| CleanupTick
    (** the [setInterval] callback of [startCleanupInterval] *).

(** The handler run for an event delivered at time [now].  A transport is
    accepted once, and nothing is delivered for a closed one. *)
Definition step (now : Z) (e : Event) : M unit :=
  match e with
  | Connected socket ty uuid =>
      known <- gets (fun st => connection (sockets st) socket) ;;
      match known with
      | Some _ => ret tt
      | None => handleConnection socket ty uuid now
      end
  | Message socket data =>
      known <- gets (fun st => connection (sockets st) socket) ;;
      match known with
      | None => ret tt
      | Some c =>
          match readyState c with
          | CLOSED => ret tt
          | _ =>
              match connectionType c with
              | agent => onAgentMessage socket (connectedAt c) now data
              | browser => onBrowserMessage socket (browserId c) now data
              end
          end
      end
  | Closing socket =>
      modify (fun st =>
        withSockets
          (updateConnection (sockets st) socket
             (fun c => match readyState c with
                       | CLOSED => c
                       | _ => withReadyState CLOSING c
                       end)) st)
  | Closed socket =>
      known <- gets (fun st => connection (sockets st) socket) ;;
      match known with
      | None => ret tt
      | Some c =>
          match readyState c with
          | CLOSED => ret tt
          | _ =>
              modify (markClosed socket) ;;
              match connectionType c with
              | agent => onAgentClose now (registeredDeviceId c)
              | browser => onBrowserClose now (browserId c)
              end
          end
      end
  | CleanupTick => cleanupStaleConnections now
  end.

(** The process after a sequence of timed events, and all the socket
    calls it made. *)
Fixpoint run (events : list (Z * Event)) (st : State) : State * list Effect :=
  match events with
  | [] => (st, [])
  | (now, e) :: events' =>
      let '(_, st1, t1) := step now e st in
      let '(st2, t2) := run events' st1 in
      (st2, t1 ++ t2)
  end.

Definition reachable (st : State) : Prop :=
  exists events, fst (run events initial) = st.

(** *** Vocabulary for the statements *)

Definition errorOf (A : Type) (v : Validation A) : option string :=
  match v with
  | invalid error => Some error
  | valid _ => None
  end.

(** The error, if any, that the validator of message type [ty] gives for
    [payload] on a connection of the given role: the pairing of types and
    validators made by the two [switch] statements and the handlers they
    call.  [devices:list:request] and [error] have no validator. *)
Definition payloadError (role : ConnectionType) (ty : string)
    (payload : option value) : option string :=
  match role with
  | agent =>
      if String.eqb ty "agent:register"
      then errorOf (validateAgentRegisterPayload payload)
      else if String.eqb ty "agent:heartbeat"
      then errorOf (validateAgentHeartbeatPayload payload)
      else if String.eqb ty "ssh:session:response"
      then errorOf (validateSshSessionResponsePayload payload)
      else if String.eqb ty "ssh:data"
      then errorOf (validateSshDataPayload payload)
      else if String.eqb ty "ssh:close"
      then errorOf (validateSshClosePayload payload)
      else if String.eqb ty "rdp:session:response"
      then errorOf (validateRdpSessionResponsePayload payload)
      else if String.eqb ty "rdp:data"
      then errorOf (validateRdpDataPayload payload)
      else if String.eqb ty "rdp:close"
      then errorOf (validateRdpClosePayload payload)
      else None
  | browser =>
      if String.eqb ty "ssh:session:request"
      then errorOf (validateSshSessionRequestPayload payload)
      else if String.eqb ty "ssh:data"
      then errorOf (validateSshDataPayload payload)
      else if String.eqb ty "ssh:resize"
      then errorOf (validateSshResizePayload payload)
      else if String.eqb ty "ssh:close"
      then errorOf (validateSshClosePayload payload)
      else if String.eqb ty "rdp:session:request"
      then errorOf (validateRdpSessionRequestPayload payload)
      else if String.eqb ty "rdp:data"
      then errorOf (validateRdpDataPayload payload)
      else if String.eqb ty "rdp:close"
      then errorOf (validateRdpClosePayload payload)
      else None
  end.

(** A message as it is read off the socket, spelled out: its [type], its
    [timestamp] and the fields of its [payload]. *)
Definition wire (ty : string) (now : Z) (fields : list (string * value))
    : value :=
  JObject [("type", JString ty); ("timestamp", JNumber (Finite now));
           ("payload", JObject fields)].

(** The typed error message with the given code and text. *)
Definition typedError (now : Z) (code text : string) : value :=
  wire "error" now [("code", JString code); ("message", JString text)].

(** The message types whose payload a validator checks, by role. *)
Definition validatedTypes (role : ConnectionType) : list string :=
  match role with
  | agent =>
      [ "agent:register"; "agent:heartbeat"; "ssh:session:response";
        "ssh:data"; "ssh:close"; "rdp:session:response"; "rdp:data";
        "rdp:close" ]
  | browser =>
      [ "ssh:session:request"; "ssh:data"; "ssh:resize"; "ssh:close";
        "rdp:session:request"; "rdp:data"; "rdp:close" ]
  end.

(** What the origin gets back for a payload its validator rejected with
    [error]: for a registration an [agent:register:ack] with [success]
    false, an empty [deviceId] and the error; for a session request the
    typed error [INVALID_<KIND>_SESSION_REQUEST] with the validator's
    text, if the browser's transport is open; nothing for the other
    types. *)
Definition replyToInvalidPayload (role : ConnectionType) (socket : SocketId)
    (now : Z) (ty error : string) (st : State) : list Effect :=
  let text := if String.eqb error "" then "Invalid payload" else error in
  match role with
  | agent =>
      if String.eqb ty "agent:register"
      then [Send socket
              (wire "agent:register:ack" now
                 [("success", JBool false); ("deviceId", JString "");
                  ("error", JString error)])]
      else []
  | browser =>
      if String.eqb ty "ssh:session:request"
      then if isOpen st socket
           then [Send socket (typedError now "INVALID_SSH_SESSION_REQUEST" text)]
           else []
      else if String.eqb ty "rdp:session:request"
      then if isOpen st socket
           then [Send socket (typedError now "INVALID_RDP_SESSION_REQUEST" text)]
           else []
      else []
  end.

(** The close notifications, in order, for the sessions [found]: one to
    the [target] endpoint of each session whose transport is open in
    [st]. *)
Definition notifications (S : Type) (K : SessionKind S) (now : Z)
    (reason : string) (st : State) (target : S -> SocketId) (found : list S)
    : list Effect :=
  flat_map (fun session =>
              if isOpen st (target session)
              then [Send (target session)
                      (closeMessage K now (sid K session) reason)]
              else []) found.


(** *** The invariant of the process, and what keeps it *)

(** One connection per device id in the registry, and for each session
    kind three indexes that agree, with every record under its own id. *)
Record Inv (st : State) : Prop := {
  inv_agents : NoDup (JsMap.keys (agentConnections st));
  inv_ssh : wellFormed (sshIndexes st);
  inv_rdp : wellFormed (rdpIndexes st);
  inv_sshIds : keyedById SSHSession.id (sshIndexes st);
  inv_rdpIds : keyedById RDPSession.id (rdpIndexes st)
}.

(** What the generic proxy code needs from the two session kinds. *)
Record KindLaws (S : Type) (K : SessionKind S) : Prop := {
  law_get_set : forall i st, indexes K (withIndexes K i st) = i;
  law_agents : forall i st,
    agentConnections (withIndexes K i st) = agentConnections st;
  law_browsers : forall i st,
    browserConnections (withIndexes K i st) = browserConnections st;
  law_sockets : forall i st, sockets (withIndexes K i st) = sockets st;
  law_inv_get : forall st,
    Inv st -> wellFormed (indexes K st) /\ keyedById (sid K) (indexes K st);
  law_inv_set : forall st i,
    Inv st -> wellFormed i -> keyedById (sid K) i -> Inv (withIndexes K i st);
  law_status : forall s x, sid K (withStatus K s x) = sid K x;
  law_create : forall bl al now uuid d b sessionId idx session idx',
    create K bl al now uuid d b sessionId idx = inr (session, idx') ->
    wellFormed idx -> keyedById (sid K) idx ->
    wellFormed idx' /\ keyedById (sid K) idx'
}.

(** [c] keeps the invariant. *)
Definition preserves (A : Type) (c : M A) : Prop :=
  forall st, Inv st -> Inv (stateOf (c st)).

End Server.

(* ===================================================================== *)
(** ** A concrete run, for the examples                                   *)
(* ===================================================================== *)

Module Scenario.
Import Json Messages SessionManager Server.
Local Open Scope string_scope.
Local Open Scope list_scope.
Local Open Scope Z_scope.

(** A well-formed frame of type [ty] with the given payload fields. *)
Definition frame (ty : string) (fields : list (string * value)) : parsed :=
  Parsed (JObject [("type", JString ty); ("timestamp", JNumber (Finite 1));
                   ("payload", JObject fields)]).

Definition registerFields (deviceId : string) : list (string * value) :=
  [("deviceId", JString deviceId); ("deviceName", JString "Pi");
   ("ipAddress", JString "10.0.0.1");
   ("capabilities", JObject [("ssh", JBool true); ("rdp", JBool true)])].

Definition register (deviceId : string) : parsed :=
  frame "agent:register" (registerFields deviceId).

(** Agent 1 registers [pi-1]; browser 2 ([b1]) opens the terminal session
    [s1] on it. *)
Definition sessionOpened : list (Z * Event) :=
  [ (0, Connected 1%nat agent "");
    (1, Message 1%nat (register "pi-1"));
    (2, Connected 2%nat browser "b1");
    (3, Message 2%nat
          (frame "ssh:session:request"
             [("deviceId", JString "pi-1"); ("sessionId", JString "s1")])) ].

(** Then a second agent, 3, registers [pi-1]: socket 1 is told to close
    and is [CLOSING] until its ['close'] event. *)
Definition agentReplaced : list (Z * Event) :=
  sessionOpened
  ++ [ (4, Connected 3%nat agent "");
       (5, Message 3%nat (register "pi-1")) ].

(** The second agent is connected and has not registered yet. *)
Definition secondAgentConnected : list (Z * Event) :=
  sessionOpened ++ [ (4, Connected 3%nat agent "") ].

Definition afterSessionOpened : State := fst (run sessionOpened initial).
Definition afterSecondAgentConnected : State :=
  fst (run secondAgentConnected initial).
Definition afterAgentReplaced : State := fst (run agentReplaced initial).

End Scenario.

(* ===================================================================== *)
(** ** The tunnel built on the framer (PylonTunnel.ts, [createPylonTunnel]) *)
(* ===================================================================== *)

Module Tunnel.
Import Framer.

(** [a === b] on strings *)
Fixpoint sameString (a b : jsstring) : bool :=
  match a, b with
  | [], [] => true
  | x :: a', y :: b' => (x =? y)%N && sameString a' b'
  | _, _ => false
  end.

(** [s.startsWith(prefix)] *)
Fixpoint startsWith (s prefix : jsstring) : bool :=
  match prefix, s with
  | [], _ => true
  | p :: prefix', c :: s' => (c =? p)%N && startsWith s' prefix'
  | _ :: _, [] => false
  end.

(** [params.get(name) || fallback]: [null] and the empty string are
    falsy. *)
Definition getOr (params : jsstring -> option jsstring) (name fallback : jsstring)
    : jsstring :=
  match params name with
  | Some (c :: v) => c :: v
  | _ => fallback
  end.

(** [args.map((argName) => argName.startsWith('VERSION_') ? argName
      : params.get(argName) || '')] *)
Definition connectArgs (params : jsstring -> option jsstring)
    (args : list jsstring) : list jsstring :=
  map (fun argName =>
         if startsWith argName (units "VERSION_") then argName
         else getOr params argName [])
      args.

(** The five instructions sent in answer to guacd's [args]. *)
Definition handshakeInstructions (params : jsstring -> option jsstring)
    (args : list jsstring) : list (list jsstring) :=
  [ [units "size"; getOr params (units "width") (units "1024");
     getOr params (units "height") (units "768");
     getOr params (units "dpi") (units "96")];
    [units "audio"];
    [units "video"];
    [units "image"; units "image/png"; units "image/jpeg"];
    units "connect" :: connectArgs params args ].

(** [sizeInstr + audioInstr + videoInstr + imageInstr + connectInstr] *)
Definition handshakeData (params : jsstring -> option jsstring)
    (args : list jsstring) : jsstring :=
  concat (map buildInstruction (handshakeInstructions params args)).

(** [Guacamole.Tunnel.State] *)
Inductive TunnelState := T_CONNECTING | T_OPEN | T_CLOSED | T_UNSTABLE.

(** Which function [tunnel.oninstruction] holds after [connect]: the
    temporary handshake handler, or [origOninstruction] again. *)
Inductive Handler := Temporary | Original.

(** What [connect] fixes for the life of the tunnel: the session id, the
    parsed connection parameters ([params.get]), whether the client had
    set [oninstruction] before ([origOninstruction] is not null), and
    whether [tunnel.onstatechange] is set. *)
Record Setup := {
  sessionId : jsstring;
  params : jsstring -> option jsstring;
  hasOriginal : bool;
  hasStateListener : bool
}.

(** The mutable part: the parser's buffer, the closure variable
    [handshakeComplete], [tunnel.oninstruction] and [tunnel.state]. *)
Record Tunnel := {
  buffer : jsstring;
  handshakeComplete : bool;
  oninstruction : Handler;
  state : TunnelState
}.

(** What the tunnel does to the outside. *)
Inductive Output :=
| SendData (data : jsstring)
    (** [ws.send('rdp:data', { sessionId, data })] *)
| SendClose (reason : jsstring)
    (** [ws.send('rdp:close', { sessionId, reason })] *)
| Deliver (opcode : jsstring) (args : list jsstring)
    (** [origOninstruction(opcode, args)] *)
| StateChange (s : TunnelState)
    (** [tunnel.onstatechange(s)] *).

Definition onstatechange (setup : Setup) (s : TunnelState) : list Output :=
  if hasStateListener setup then [StateChange s] else [].

Definition original (setup : Setup) (i : instruction) : list Output :=
  if hasOriginal setup then [Deliver (fst i) (snd i)] else [].

(** The tunnel right after [connect(data)], whose first act is to send
    [select rdp]. *)
Definition connect (setup : Setup) (before : TunnelState)
    : Tunnel * list Output :=
  ({| buffer := []; handshakeComplete := false; oninstruction := Temporary;
      state := before |},
   [SendData (buildInstruction [units "select"; units "rdp"])]).

(** The parser's callback: [if (tunnel.oninstruction)
    tunnel.oninstruction(opcode, args)], with the temporary handler
    written out. *)
Definition dispatch (setup : Setup) (t : Tunnel) (i : instruction)
    : Tunnel * list Output :=
  match oninstruction t with
  | Temporary =>
      if negb (handshakeComplete t) && sameString (fst i) (units "args")
      then ({| buffer := buffer t; handshakeComplete := true;
               oninstruction := Original; state := T_OPEN |},
            SendData (handshakeData (params setup) (snd i))
            :: onstatechange setup T_OPEN)
      else (t, original setup i)
  | Original => (t, original setup i)
  end.

Fixpoint dispatchAll (setup : Setup) (t : Tunnel) (instrs : list instruction)
    : Tunnel * list Output :=
  match instrs with
  | [] => (t, [])
  | i :: instrs' =>
      let (t1, o1) := dispatch setup t i in
      let (t2, o2) := dispatchAll setup t1 instrs' in
      (t2, o1 ++ o2)
  end.

Definition withBuffer (b : jsstring) (t : Tunnel) : Tunnel :=
  {| buffer := b; handshakeComplete := handshakeComplete t;
     oninstruction := oninstruction t; state := state t |}.

(** The [rdp:data] subscription: [payloadSessionId] and [data] are
    [msg.payload?.sessionId] and [msg.payload?.data], [None] for
    [undefined].  The parser's buffer is its own; the callbacks do not
    touch it, so they are run after the loop of [feed]. *)
Definition onRdpData (setup : Setup) (t : Tunnel)
    (payloadSessionId data : option jsstring) : Tunnel * list Output :=
  match payloadSessionId with
  | None => (t, [])
  | Some sid =>
      if negb (sameString sid (sessionId setup)) then (t, [])
      else
        match data with
        | None | Some [] => (t, [])
        | Some (c :: d) =>
            let (buffer', emitted) := feed (buffer t) (c :: d) in
            dispatchAll setup (withBuffer buffer' t) emitted
        end
  end.

(** The [rdp:close] subscription. *)
Definition onRdpClose (setup : Setup) (t : Tunnel)
    (payloadSessionId : option jsstring) : Tunnel * list Output :=
  match payloadSessionId with
  | None => (t, [])
  | Some sid =>
      if negb (sameString sid (sessionId setup)) then (t, [])
      else ({| buffer := buffer t; handshakeComplete := handshakeComplete t;
               oninstruction := oninstruction t; state := T_CLOSED |},
            onstatechange setup T_CLOSED)
  end.

(** [tunnel.sendMessage(...elements)], the elements already through
    [String]. *)
Definition sendMessage (elements : list jsstring) : list Output :=
  [SendData (buildInstruction elements)].

(** [tunnel.disconnect()] *)
Definition disconnect (setup : Setup) (t : Tunnel) : Tunnel * list Output :=
  ({| buffer := buffer t; handshakeComplete := handshakeComplete t;
      oninstruction := oninstruction t; state := T_CLOSED |},
   SendClose (units "Client disconnect") :: onstatechange setup T_CLOSED).

(** All [rdp:data] messages of this session, in order of arrival. *)
Fixpoint receiveAll (setup : Setup) (t : Tunnel) (fragments : list jsstring)
    : Tunnel * list Output :=
  match fragments with
  | [] => (t, [])
  | f :: fs =>
      let (t1, o1) := onRdpData setup t (Some (sessionId setup)) (Some f) in
      let (t2, o2) := receiveAll setup t1 fs in
      (t2, o1 ++ o2)
  end.

(** The handshake is pending while the temporary handler is in place and
    has not fired. *)
Definition pending (t : Tunnel) : bool :=
  match oninstruction t with
  | Temporary => negb (handshakeComplete t)
  | Original => false
  end.

Definition isArgs (i : instruction) : bool := sameString (fst i) (units "args").

(** The tunnel after the handshake. *)
Definition opened (t : Tunnel) : Tunnel :=
  {| buffer := buffer t; handshakeComplete := true;
     oninstruction := Original; state := T_OPEN |}.

End Tunnel.

(* ===================================================================== *)
(** ** More vocabulary for the framer and the session manager             *)
(* ===================================================================== *)

Module FramerMore.
Import Framer.

(** Fragments fed one after the other. *)
Fixpoint feedAll (buffer : jsstring) (fragments : list jsstring)
    : jsstring * list instruction :=
  match fragments with
  | [] => (buffer, [])
  | f :: fs =>
      let (b1, o1) := feed buffer f in
      let (b2, o2) := feedAll b1 fs in
      (b2, o1 ++ o2)
  end.

End FramerMore.

Module SessionManagerMore.
Import SessionManager.

(** No bucket of an index is an empty set. *)
Definition noEmptyBuckets (index : JsMap.t JsSet.t) : Prop :=
  forall key ids, In (key, ids) index -> ids <> [].

Definition tidy (S : Type) (idx : Indexes S) : Prop :=
  noEmptyBuckets (sessionsByBrowser idx) /\ noEmptyBuckets (sessionsByDevice idx).

(** The ids filed under a device id belong to records of that device. *)
Definition filedByDevice (S : Type) (deviceOf : S -> string) (idx : Indexes S)
    : Prop :=
  forall deviceId ids id,
    In (deviceId, ids) (sessionsByDevice idx) -> In id ids ->
    exists session, In (id, session) (sessions idx) /\ deviceOf session = deviceId.

(** One change that the session manager's functions, or a write through a
    session reference, make to the indexes of a kind. *)
Inductive indexStep (S : Type) (idx : Indexes S) : Indexes S -> Prop :=
| step_create : forall mk bl al uuid deviceId browserId sessionId session idx',
    createIn mk bl al uuid deviceId browserId sessionId idx = inr (session, idx') ->
    indexStep idx idx'
| step_close : forall sessionId reason,
    indexStep idx (closeIn sessionId reason idx)
| step_write : forall sessions',
    JsMap.keys sessions' = JsMap.keys (sessions idx) ->
    indexStep idx {| sessions := sessions';
                     sessionsByBrowser := sessionsByBrowser idx;
                     sessionsByDevice := sessionsByDevice idx |}.

Inductive evolves (S : Type) (idx : Indexes S) : Indexes S -> Prop :=
| evolves_refl : evolves idx idx
| evolves_step : forall idx1 idx2,
    evolves idx idx1 -> indexStep idx1 idx2 -> evolves idx idx2.

(** [!(a !== b)] on session ids, for filtering lookup results. *)
Definition otherThan (S : Type) (sid : S -> string) (id : string) (s : S) : bool :=
  negb (String.eqb (sid s) id).

(** What holds of the indexes of one kind after any sequence of calls. *)
Definition sound (S : Type) (sid deviceOf : S -> string) (idx : Indexes S)
    : Prop :=
  wellFormed idx /\ tidy idx /\ keyedById sid idx /\ filedByDevice deviceOf idx.

Definition soundManager (m : Manager) : Prop :=
  sound SSHSession.id SSHSession.deviceId (forSSH m)
  /\ sound RDPSession.id RDPSession.deviceId (forRDP m).

End SessionManagerMore.

(* ===================================================================== *)
(** ** More vocabulary for the relay                                      *)
(* ===================================================================== *)

Module ServerMore.
Import Json Messages SessionManager SessionManagerMore Server.
Local Open Scope string_scope.
Local Open Scope list_scope.

(** The two session kinds the server is built with. *)
Inductive proxied : forall S : Type, SessionKind S -> Prop :=
| proxied_SSH : proxied SSH
| proxied_RDP : proxied RDP.

(** The [case] labels of the [switch] in the agent's message handler, and
    of the one in the browser's. *)
Definition agentSwitch : list string :=
  [ "agent:register"; "agent:heartbeat"; "ssh:session:response"; "ssh:data";
    "ssh:close"; "rdp:session:response"; "rdp:data"; "rdp:close" ].

Definition browserSwitch : list string :=
  [ "devices:list:request"; "ssh:session:request"; "ssh:data"; "ssh:resize";
    "ssh:close"; "rdp:session:request"; "rdp:data"; "rdp:close" ].

(** [writtenAs p w]: [w] is [p] with every number that is not finite, at
    any depth, replaced by [null], which is how [JSON.stringify] writes
    [NaN] and the infinities; nothing else differs. *)
Inductive writtenAs : value -> value -> Prop :=
| written_null : writtenAs JNull JNull
| written_bool b : writtenAs (JBool b) (JBool b)
| written_finite z : writtenAs (JNumber (Finite z)) (JNumber (Finite z))
| written_nonfinite : writtenAs (JNumber NonFinite) JNull
| written_string text : writtenAs (JString text) (JString text)
| written_array items items' :
    Forall2 writtenAs items items' ->
    writtenAs (JArray items) (JArray items')
| written_object fields fields' :
    Forall2 (fun field field' : string * value =>
               fst field = fst field' /\ writtenAs (snd field) (snd field'))
            fields fields' ->
    writtenAs (JObject fields) (JObject fields').

Section Messages.
Variable S : Type.
Variable K : SessionKind S.

(** [createMessageString('<kind>:session:request', { deviceId, sessionId })] *)
Definition sessionRequest (now : Z) (deviceId sessionId : string) : value :=
  createMessageString now (kindName K ++ ":session:request")
    (Some (JObject [("deviceId", JString deviceId);
                    ("sessionId", JString sessionId)])).

(** [createMessageString('<kind>:session:response',
      { sessionId, success, error })] *)
Definition sessionResponse (now : Z) (sessionId : string) (success : bool)
    (error : option string) : value :=
  createMessageString now (kindName K ++ ":session:response")
    (Some (JObject ([("sessionId", JString sessionId);
                     ("success", JBool success)]
                    ++ optionalField "error" (option_map JString error)))).

(** [createErrorMessage('<KIND>_SESSION_CREATE_FAILED', ...)] *)
Definition createFailed (now : Z) : value :=
  createErrorMessage now (kindUpper K ++ "_SESSION_CREATE_FAILED")
    ("Unable to create " ++ kindUpper K ++ " session") None.

(** [createErrorMessage('<KIND>_AGENT_UNAVAILABLE', ...)] *)
Definition agentUnavailable (now : Z) : value :=
  createErrorMessage now (kindUpper K ++ "_AGENT_UNAVAILABLE")
    "Agent is not available" None.

(** The endpoint of a session opposite to a sender of the given role. *)
Definition opposite (source : ConnectionType) (session : S) : SocketId :=
  match source with
  | browser => sagentSocket K session
  | agent => sbrowserSocket K session
  end.
End Messages.

(** [createMessageString('ssh:resize', { sessionId, cols, rows })] *)
Definition resizeMessage (now : Z) (sessionId : string) (c r : Z) : value :=
  createMessageString now "ssh:resize"
    (Some (JObject [("sessionId", JString sessionId);
                    ("cols", JNumber (Finite c));
                    ("rows", JNumber (Finite r))])).

(** [c] keeps [P]. *)
Definition keeps (A : Type) (P : State -> Prop) (c : M A) : Prop :=
  forall st, P st -> P (stateOf (c st)).

(** Every connection of the registry is stored under its own device id. *)
Definition registryKeyed (m : JsMap.t AgentConnectionInfo.t) : Prop :=
  forall deviceId info,
    In (deviceId, info) m -> AgentConnectionInfo.deviceId info = deviceId.

(** More of what every state of the process satisfies: no index of either
    kind holds an empty bucket, the registry is keyed by device id, and
    there is one entry per browser id. *)
Record Kept (st : State) : Prop := {
  kept_ssh : tidy (sshIndexes st);
  kept_rdp : tidy (rdpIndexes st);
  kept_registry : registryKeyed (agentConnections st);
  kept_browsers : NoDup (JsMap.keys (browserConnections st))
}.

(** What the generic proxy code needs from the two kinds, besides
    [KindLaws]. *)
Record ProxyLaws (S : Type) (K : SessionKind S) : Prop := {
  plaw_create : exists mk : Z -> string -> string -> SocketId -> SocketId -> S,
    (forall bl al now uuid d b sessionId idx,
        create K bl al now uuid d b sessionId idx
        = createIn (mk now d) bl al uuid d b sessionId idx)
    /\ (forall now d id b a,
          sid K (mk now d id b a) = id /\ sdeviceId K (mk now d id b a) = d /\
          sbrowserSocket K (mk now d id b a) = b /\
          sagentSocket K (mk now d id b a) = a);
  plaw_kept_get : forall st, Kept st -> tidy (indexes K st);
  plaw_kept_set : forall st i, Kept st -> tidy i -> Kept (withIndexes K i st);
  plaw_same : forall st, withIndexes K (indexes K st) st = st;
  plaw_twice : forall i j st,
    withIndexes K i (withIndexes K j st) = withIndexes K i st
}.

(** The device as the registry reports it right after a registration at
    time [now] on a transport accepted at [connectedAt]. *)
Definition registeredDevice (data : AgentRegisterData) (connectedAt now : Z)
    : Device :=
  {| dev_id := reg_deviceId data;
     dev_name := reg_deviceName data;
     dev_ipAddress := reg_ipAddress data;
     dev_status := online;
     dev_capabilities := reg_capabilities data;
     dev_lastSeen := now;
     dev_connectedAt := connectedAt |}.

(** An entry of the registry as the device list shows it on the wire:
    id, name, address, the status [online], and the capabilities, [rdp]
    only where the agent declared it. *)
Definition listedDevice (entry : string * AgentConnectionInfo.t) : value :=
  let info := snd entry in
  let caps := AgentConnectionInfo.capabilities info in
  JObject [("id", JString (fst entry));
           ("name", JString (AgentConnectionInfo.deviceName info));
           ("ipAddress", JString (AgentConnectionInfo.ipAddress info));
           ("status", JString "online");
           ("capabilities",
            JObject (("ssh", JBool (ssh caps))
                     :: match rdp caps with
                        | Some flag => [("rdp", JBool flag)]
                        | None => []
                        end))].

(** The events up to the start of a close of agent 1 in the scenario. *)
Definition agentClosing : list (Z * Event) :=
  Scenario.sessionOpened ++ [ (4%Z, Closing 1%nat) ].

Definition afterAgentClosing : State := fst (run agentClosing initial).

(** The registry after [agentConnections.delete] of each key of [l]. *)
Definition deleteKeys (l : list (string * AgentConnectionInfo.t))
    (m : JsMap.t AgentConnectionInfo.t) : JsMap.t AgentConnectionInfo.t :=
  fold_left (fun m e => JsMap.delete m (fst e)) l m.

(** The transports of the scenario. *)
Definition agent1 : Connection :=
  {| readyState := OPEN; connectionType := agent; connectedAt := 0;
     registeredDeviceId := Some "pi-1"; browserId := "" |}.

Definition browser2 : Connection :=
  {| readyState := OPEN; connectionType := browser; connectedAt := 2;
     registeredDeviceId := None; browserId := "b1" |}.

End ServerMore.

(* ===================================================================== *)
(** ** Properties of the instruction framer                               *)
(* ===================================================================== *)

Unset Implicit Arguments.

Module FramerProofs.
Import Framer.

(** Normal forms for concatenations and their lengths. *)
Ltac norm_app :=
  repeat first [ rewrite <- app_assoc | rewrite <- app_comm_cons
               | progress cbn [app] ].
Ltac norm_len :=
  repeat first [ rewrite length_app | progress cbn [length] ].
Ltac norm_len_in H :=
  repeat first [ rewrite length_app in H | progress cbn [length] in H ].

Lemma isDigit_DOT : isDigit DOT = false.
Proof. reflexivity. Qed.

(** *** The length prefix *)

Lemma readLength_spec rest :
  forall ds r, readLength rest = (ds, r) ->
  rest = ds ++ r /\ forallb isDigit ds = true /\
  match r with [] => True | c :: _ => isDigit c = false end.
Proof.
  induction rest as [|c rest IH]; simpl; intros ds r H.
  - inversion H; subst. auto.
  - destruct (isDigit c) eqn:Hc.
    + destruct (readLength rest) as [ds' r'] eqn:E. inversion H; subst.
      destruct (IH ds' r eq_refl) as (-> & Hd & Hr).
      simpl. rewrite Hc. auto.
    + inversion H; subst. simpl. rewrite Hc. auto.
Qed.

Lemma readLength_digits ds c r :
  forallb isDigit ds = true -> isDigit c = false ->
  readLength (ds ++ c :: r) = (ds, c :: r).
Proof.
  induction ds as [|d ds IH]; simpl; intros Hd Hc.
  - now rewrite Hc.
  - apply andb_true_iff in Hd as [Hd1 Hd2]. rewrite Hd1, IH; auto.
Qed.

Lemma unitsOfUint_digits d : forallb isDigit (unitsOfUint d) = true.
Proof. induction d; simpl; auto. Qed.

Lemma parseInt_unitsOfUint_acc d : forall acc,
  fold_left (fun a c => 10 * a + digitValue c) (unitsOfUint d) acc
  = Nat.of_uint_acc d acc.
Proof.
  induction d; intros acc; simpl; try reflexivity;
    rewrite IHd; f_equal; rewrite Nat.tail_mul_spec;
    unfold digitValue; simpl; lia.
Qed.

Lemma parseInt_toDecimal n : parseInt (toDecimal n) = n.
Proof.
  unfold parseInt, toDecimal. rewrite parseInt_unitsOfUint_acc.
  apply Unsigned.of_to.
Qed.

Lemma toDecimal_nonempty n : toDecimal n <> [].
Proof.
  unfold toDecimal. intros H.
  assert (E : Nat.of_uint (Nat.to_uint n) = n) by apply Unsigned.of_to.
  destruct (Nat.to_uint n) eqn:U; simpl in H; try discriminate.
  pose proof (Unsigned.to_uint_inj n 0) as I.
  destruct n; [discriminate U|].
  simpl in E. discriminate E.
Qed.

Lemma lengthPrefix_toDecimal v : lengthPrefix (toDecimal (length v)) v.
Proof.
  repeat split.
  - apply toDecimal_nonempty.
  - apply unitsOfUint_digits.
  - apply parseInt_toDecimal.
Qed.

(** *** One iteration of [tryParseOne], read off the text *)

(** A well-formed element followed by [d]: the parser reaches [d]. *)
Lemma tryParseElems_element fuel pos ds v d tail acc :
  lengthPrefix ds v ->
  tryParseElems (S fuel) pos (ds ++ DOT :: v ++ d :: tail) acc =
  if (d =? SEMI)%N then Some (acc ++ [v], pos + length ds + 1 + length v + 1)
  else if (d =? COMMA)%N
       then tryParseElems fuel (pos + length ds + 1 + length v + 1) tail
              (acc ++ [v])
       else None.
Proof.
  intros (Hne & Hd & Hlen).
  cbn [tryParseElems].
  rewrite (readLength_digits ds DOT _ Hd isDigit_DOT).
  destruct ds as [|d0 ds']; [congruence|].
  cbn [app]. rewrite <- app_comm_cons.
  rewrite N.eqb_refl. cbn [negb].
  rewrite Hlen.
  replace (length (v ++ d :: tail) <? length v) with false.
  2:{ symmetry. apply Nat.ltb_ge. rewrite length_app. lia. }
  rewrite firstn_app, Nat.sub_diag, firstn_all. cbn [firstn]. rewrite app_nil_r.
  rewrite skipn_app, Nat.sub_diag, skipn_all. cbn [skipn app].
  reflexivity.
Qed.

Lemma tryParseElems_unfold fuel pos rest acc :
  rest <> [] ->
  tryParseElems (S fuel) pos rest acc =
  let (lengthStr, r1) := readLength rest in
  match lengthStr, r1 with
  | [], _ | _, [] => None
  | _ :: _, c :: r2 =>
      if negb (c =? DOT)%N then None
      else
        let len := parseInt lengthStr in
        if length r2 <? len then None
        else
          match skipn len r2 with
          | [] => None
          | d :: r3 =>
              if (d =? SEMI)%N
              then Some (acc ++ [firstn len r2],
                         pos + length lengthStr + 1 + len + 1)
              else if (d =? COMMA)%N
                   then tryParseElems fuel
                          (pos + length lengthStr + 1 + len + 1) r3
                          (acc ++ [firstn len r2])
                   else None
          end
  end.
Proof.
  intros H. destruct rest as [|c rest]; [congruence|].
  cbn [tryParseElems]. destruct (readLength (c :: rest)) as [[|d ds] [|e r]];
    reflexivity.
Qed.

(** Either the buffer starts with a well-formed element and a following
    unit, or [tryParseOne]'s loop gives up on it whatever its other
    arguments. *)
Lemma tryParseElems_cases rest :
  (exists ds v d tail, lengthPrefix ds v /\ rest = ds ++ DOT :: v ++ d :: tail)
  \/ (forall fuel pos acc, tryParseElems fuel pos rest acc = None).
Proof.
  destruct (list_eq_dec N.eq_dec rest []) as [->|Hne].
  { right. intros [|f] p a; reflexivity. }
  destruct (readLength rest) as [ds r1] eqn:E.
  destruct (readLength_spec rest ds r1 E) as (Hr & Hd & _).
  assert (Stuck :
            (forall fuel pos acc,
               tryParseElems (S fuel) pos rest acc = None) ->
            (forall fuel pos acc, tryParseElems fuel pos rest acc = None)).
  { intros H [|f] p a; [reflexivity | apply H]. }
  destruct ds as [|d0 ds'].
  { right. apply Stuck. intros f p a.
    rewrite tryParseElems_unfold, E by assumption. reflexivity. }
  destruct r1 as [|c r2].
  { right. apply Stuck. intros f p a.
    rewrite tryParseElems_unfold, E by assumption. reflexivity. }
  destruct (c =? DOT)%N eqn:Ec.
  2:{ right. apply Stuck. intros f p a.
      rewrite tryParseElems_unfold, E by assumption. now rewrite Ec. }
  apply N.eqb_eq in Ec. subst c.
  destruct (length r2 <? parseInt (d0 :: ds')) eqn:El.
  { right. apply Stuck. intros f p a.
    rewrite tryParseElems_unfold, E by assumption.
    rewrite N.eqb_refl. cbn [negb]. cbv zeta. now rewrite El. }
  destruct (skipn (parseInt (d0 :: ds')) r2) as [|d r3] eqn:Es.
  { right. apply Stuck. intros f p a.
    rewrite tryParseElems_unfold, E by assumption.
    rewrite N.eqb_refl. cbn [negb]. cbv zeta. now rewrite El, Es. }
  apply Nat.ltb_ge in El.
  left. exists (d0 :: ds'), (firstn (parseInt (d0 :: ds')) r2), d, r3.
  split.
  - repeat split; [discriminate | assumption |].
    rewrite length_firstn. lia.
  - rewrite Hr. f_equal. f_equal. rewrite <- Es. symmetry. apply firstn_skipn.
Qed.

(** [length rest] iterations are enough: more fuel changes nothing. *)
Lemma tryParseElems_fuel f1 : forall f2 pos rest acc,
  length rest <= f1 -> length rest <= f2 ->
  tryParseElems f1 pos rest acc = tryParseElems f2 pos rest acc.
Proof.
  induction f1 as [|f1 IH]; intros f2 pos rest acc H1 H2.
  - destruct rest; [|simpl in H1; lia]. destruct f2; reflexivity.
  - destruct (tryParseElems_cases rest) as [(ds & v & d & tail & Hp & ->)|N].
    2:{ now rewrite !N. }
    norm_len_in H1. norm_len_in H2.
    destruct f2 as [|f2]; [lia|].
    rewrite !tryParseElems_element by assumption.
    destruct (d =? SEMI)%N; [reflexivity|].
    destruct (d =? COMMA)%N; [|reflexivity].
    apply IH; lia.
Qed.

(** What a successful [tryParseOne] loop consumed is the text of one
    complete instruction, and the elements are the ones of that text. *)
Lemma tryParseElems_sound fuel : forall pos rest acc els n,
  tryParseElems fuel pos rest acc = Some (els, n) ->
  exists new txt tail,
    els = acc ++ new /\ elementsText new txt /\
    n = pos + length txt /\ rest = txt ++ tail.
Proof.
  induction fuel as [|fuel IH]; intros pos rest acc els n H; [discriminate|].
  destruct (tryParseElems_cases rest) as [(ds & v & d & tail & Hp & ->)|N].
  2:{ rewrite N in H. discriminate. }
  rewrite tryParseElems_element in H by assumption.
  destruct (d =? SEMI)%N eqn:Ed.
  - apply N.eqb_eq in Ed. subst d. inversion H; subst.
    exists [v], (ds ++ DOT :: v ++ [SEMI]), tail. repeat split.
    + now constructor.
    + norm_len. lia.
    + now norm_app.
  - destruct (d =? COMMA)%N eqn:Ec; [|discriminate].
    apply N.eqb_eq in Ec. subst d.
    destruct (IH _ _ _ _ _ H) as (new & txt & tl & -> & Ht & -> & ->).
    exists (v :: new), (ds ++ DOT :: v ++ COMMA :: txt), tl. repeat split.
    + now norm_app.
    + now constructor.
    + norm_len. lia.
    + now norm_app.
Qed.

(** Conversely the text of a complete instruction is accepted, whatever
    follows it. *)
Lemma tryParseElems_complete new txt :
  elementsText new txt ->
  forall fuel pos tail acc, length (txt ++ tail) <= fuel ->
  tryParseElems fuel pos (txt ++ tail) acc
  = Some (acc ++ new, pos + length txt).
Proof.
  induction 1 as [ds v Hp | ds v els txt Hp Ht IH];
    intros fuel pos tail acc Hf; norm_len_in Hf;
    (destruct fuel as [|fuel]; [lia|]); norm_app;
    rewrite tryParseElems_element by assumption; cbn.
  - f_equal. f_equal. norm_len. lia.
  - rewrite IH by (norm_len; lia). norm_app.
    f_equal. f_equal. norm_len. lia.
Qed.

Lemma elementsText_nonempty els txt :
  elementsText els txt -> els <> [] /\ 3 <= length txt.
Proof.
  induction 1 as [ds v (Hne & _) | ds v els txt (Hne & _) Ht IH];
    (split; [discriminate|]); (destruct ds; [congruence|]); norm_len; lia.
Qed.

(** [tryParseOne] accepts a buffer exactly when it starts with the text
    of a complete instruction. *)
Lemma tryParseOne_Some buffer els n :
  tryParseOne buffer = Some (els, n) <->
  exists txt tail, elementsText els txt /\ n = length txt
                   /\ buffer = txt ++ tail.
Proof.
  unfold tryParseOne. split.
  - intros H. apply tryParseElems_sound in H.
    destruct H as (new & txt & tail & -> & Ht & -> & ->).
    exists txt, tail. auto.
  - intros (txt & tail & Ht & -> & ->).
    now rewrite (tryParseElems_complete els txt Ht).
Qed.

(** A parse that succeeded on a buffer succeeds identically on every
    extension of it. *)
Lemma tryParseOne_extend buffer extra r :
  tryParseOne buffer = Some r -> tryParseOne (buffer ++ extra) = Some r.
Proof.
  destruct r as [els n]. rewrite !tryParseOne_Some.
  intros (txt & tail & Ht & -> & ->).
  exists txt, (tail ++ extra). now rewrite app_assoc.
Qed.

(** *** The loop of [feed] *)

Lemma feedLoop_fuel f1 : forall f2 buffer,
  length buffer <= f1 -> length buffer <= f2 ->
  feedLoop f1 buffer = feedLoop f2 buffer.
Proof.
  induction f1 as [|f1 IH]; intros f2 buffer H1 H2.
  - destruct buffer; [|simpl in H1; lia]. destruct f2; reflexivity.
  - destruct buffer as [|c buffer']; [destruct f2; reflexivity|].
    destruct f2 as [|f2]; [simpl in H2; lia|].
    cbn [feedLoop].
    destruct (tryParseOne (c :: buffer')) as [[els n]|] eqn:E; [|reflexivity].
    apply tryParseOne_Some in E. destruct E as (txt & tail & Ht & -> & E).
    rewrite E. apply elementsText_nonempty in Ht as [_ Hl].
    rewrite skipn_app, Nat.sub_diag, skipn_all, skipn_O, app_nil_l.
    assert (length tail < length (c :: buffer')).
    { rewrite E. norm_len. lia. }
    rewrite (IH f2 tail) by (simpl in *; lia). reflexivity.
Qed.

Lemma run_nil : run [] = ([], []).
Proof. reflexivity. Qed.

Lemma run_None buffer :
  tryParseOne buffer = None -> run buffer = (buffer, []).
Proof.
  unfold run. intros H. destruct buffer as [|c b]; [reflexivity|].
  cbn [length feedLoop]. now rewrite H.
Qed.

Lemma run_Some els txt tail :
  elementsText els txt ->
  run (txt ++ tail) =
  let (buffer', out) := run tail in (buffer', asInstruction els ++ out).
Proof.
  intros Ht. unfold run.
  destruct (elementsText_nonempty _ _ Ht) as [Hne Hl].
  destruct (txt ++ tail) as [|c b] eqn:E.
  { apply (f_equal (@length _)) in E. norm_len_in E. lia. }
  cbn [length feedLoop]. rewrite <- E.
  rewrite (proj2 (tryParseOne_Some (txt ++ tail) els (length txt)))
    by (exists txt, tail; auto).
  rewrite skipn_app, Nat.sub_diag, skipn_all, skipn_O, app_nil_l.
  rewrite (feedLoop_fuel (length b) (length tail)).
  - destruct (feedLoop (length tail) tail) as [b' out].
    destruct els; [congruence | reflexivity].
  - apply (f_equal (@length _)) in E. norm_len_in E. lia.
  - lia.
Qed.

(** Every buffer is either stuck or starts with a complete instruction. *)
Lemma buffer_cases buffer :
  tryParseOne buffer = None \/
  exists els txt tail, elementsText els txt /\ buffer = txt ++ tail.
Proof.
  destruct (tryParseOne buffer) as [[els n]|] eqn:E; [right|now left].
  apply tryParseOne_Some in E. destruct E as (txt & tail & Ht & _ & ->).
  now exists els, txt, tail.
Qed.

(** Induction on a buffer along the instructions at its head. *)
Lemma buffer_ind (P : jsstring -> Prop) :
  (forall buffer, tryParseOne buffer = None -> P buffer) ->
  (forall els txt tail, elementsText els txt -> P tail -> P (txt ++ tail)) ->
  forall buffer, P buffer.
Proof.
  intros Hstuck Hstep buffer.
  remember (length buffer) as n eqn:Hn. revert buffer Hn.
  induction n as [n IH] using lt_wf_ind. intros buffer ->.
  destruct (buffer_cases buffer) as [E|(els & txt & tail & Ht & ->)].
  - now apply Hstuck.
  - apply Hstep with els; [assumption|].
    apply (IH (length tail)); [|reflexivity].
    apply elementsText_nonempty in Ht as [_ Hl]. norm_len. lia.
Qed.

(** Feeding [b] after [buffer] equals feeding [b] to what the loop left of
    [buffer], with the emissions concatenated. *)
Lemma run_app b buffer :
  run (buffer ++ b) =
  let (rest, out1) := run buffer in
  let (rest', out2) := run (rest ++ b) in (rest', out1 ++ out2).
Proof.
  pattern buffer; apply buffer_ind; clear buffer;
    [intros buffer E | intros els txt tail Ht IH].
  - rewrite (run_None buffer E). now destruct (run (buffer ++ b)).
  - norm_app. rewrite !(run_Some els txt) by assumption. rewrite IH.
    destruct (run tail) as [rest out1].
    destruct (run (rest ++ b)) as [rest' out2]. now rewrite app_assoc.
Qed.

Lemma feed_app buffer a b :
  feed buffer (a ++ b) =
  let (buffer1, out1) := feed buffer a in
  let (buffer2, out2) := feed buffer1 b in (buffer2, out1 ++ out2).
Proof.
  unfold feed. fold (run (buffer ++ a ++ b)). fold (run (buffer ++ a)).
  rewrite app_assoc, run_app.
  destruct (run (buffer ++ a)) as [rest out1]. reflexivity.
Qed.

(** A stream of complete instructions is emitted whole and in order. *)
Lemma run_stream instrs texts :
  Forall2 elementsText instrs texts ->
  forall tail,
  run (concat texts ++ tail) =
  let (rest, out) := run tail in (rest, flat_map asInstruction instrs ++ out).
Proof.
  induction 1 as [|els txt instrs texts Ht _ IH]; intros tail.
  - simpl. now destruct (run tail).
  - cbn [concat flat_map]. norm_app. rewrite (run_Some els txt) by assumption.
    rewrite IH. destruct (run tail). now rewrite app_assoc.
Qed.

(** What the loop removes from the buffer is exactly the text of the
    instructions it emits; what it leaves is stuck. *)
Lemma run_conserves buffer :
  exists texts,
    buffer = concat texts ++ fst (run buffer) /\
    Forall2 (fun i t => elementsText (fst i :: snd i) t) (snd (run buffer)) texts
    /\ tryParseOne (fst (run buffer)) = None.
Proof.
  pattern buffer; apply buffer_ind; clear buffer;
    [intros buffer E | intros els txt tail Ht IH].
  - exists []. rewrite (run_None buffer E). cbn. auto.
  - destruct IH as (texts & Hc & Hf & Hs).
    rewrite (run_Some els txt) by assumption.
    destruct (run tail) as [rest out]. cbn [fst snd] in *.
    exists (txt :: texts). cbn [concat]. norm_app. split; [congruence|].
    split; [|assumption].
    destruct els as [|op args];
      [now apply elementsText_nonempty in Ht as [? _]|].
    cbn. constructor; assumption.
Qed.

(** *** The encoder *)

Lemma join_cons p q ps : join (p :: q :: ps) = p ++ COMMA :: join (q :: ps).
Proof. reflexivity. Qed.

Lemma buildInstruction_text els :
  els <> [] -> elementsText els (buildInstruction els).
Proof.
  unfold buildInstruction. induction els as [|el els IH]; [congruence|].
  intros _. destruct els as [|el' els].
  - simpl. norm_app. constructor. apply lengthPrefix_toDecimal.
  - specialize (IH ltac:(discriminate)). cbn [map] in *.
    rewrite join_cons. norm_app.
    constructor; [apply lengthPrefix_toDecimal | exact IH].
Qed.

(** *** Invalid heads *)

Lemma invalidHead_stuck buffer :
  invalidHead buffer ->
  forall fuel pos acc, tryParseElems fuel pos buffer acc = None.
Proof.
  assert (Step : forall ds v p, lengthPrefix ds v ->
            (forall fuel pos acc, tryParseElems fuel pos p acc = None) ->
            forall fuel pos acc,
              tryParseElems fuel pos (ds ++ DOT :: v ++ COMMA :: p) acc = None).
  { intros ds v p Hp H [|fuel] pos acc; [reflexivity|].
    rewrite tryParseElems_element by assumption. cbn. apply H. }
  intros [p ds c rest Hp Hne Hd Hc Hdot | p ds v c rest Hp Hl Hc Hs].
  - induction Hp as [|ds' v' p' Hl' _ IH].
    + intros [|fuel] pos acc; [reflexivity|]. rewrite app_nil_l.
      rewrite tryParseElems_unfold by (destruct ds; [congruence|discriminate]).
      rewrite (readLength_digits ds c rest Hd Hc).
      destruct ds; [congruence|].
      apply N.eqb_neq in Hdot. now rewrite Hdot.
    + norm_app. now apply Step.
  - induction Hp as [|ds' v' p' Hl' _ IH].
    + intros [|fuel] pos acc; [reflexivity|]. rewrite app_nil_l.
      rewrite tryParseElems_element by assumption.
      apply N.eqb_neq in Hc, Hs. now rewrite Hc, Hs.
    + norm_app. now apply Step.
Qed.

Lemma invalidHead_app buffer extra :
  invalidHead buffer -> invalidHead (buffer ++ extra).
Proof.
  intros [p ds c rest Hp Hne Hd Hc Hdot | p ds v c rest Hp Hl Hc Hs].
  - replace ((p ++ ds ++ c :: rest) ++ extra)
      with (p ++ ds ++ c :: (rest ++ extra)) by now norm_app.
    now constructor.
  - replace ((p ++ ds ++ DOT :: v ++ c :: rest) ++ extra)
      with (p ++ ds ++ DOT :: v ++ c :: (rest ++ extra)) by now norm_app.
    now constructor.
Qed.

(** *** Fragmentation does not change what is emitted *)

(** C2.  For every stream made of complete instructions and every split
    [a ++ b] of it at any unit boundary, feeding [a] and then [b] to a fresh
    framer emits the same opcode/argument pairs (and leaves the same buffer)
    as feeding the unsplit stream at once; the unsplit stream emits every
    instruction it contains, in order, and leaves the buffer empty.  The
    number of elements of an instruction is arbitrary (1, 2, 5, ...). *)
Theorem feed_split_equivalence instrs texts a b :
  Forall2 elementsText instrs texts ->
  a ++ b = concat texts ->
  let (buffer1, out1) := feed [] a in
  let (buffer2, out2) := feed buffer1 b in
  feed [] (a ++ b) = (buffer2, out1 ++ out2)
  /\ feed [] (a ++ b) = ([], flat_map asInstruction instrs).
Proof.
  intros Ht Hs. pose proof (feed_app [] a b) as Happ.
  destruct (feed [] a) as [buffer1 out1].
  destruct (feed buffer1 b) as [buffer2 out2].
  split; [exact Happ|].
  unfold feed. fold (run ([] ++ a ++ b)). rewrite app_nil_l, Hs.
  rewrite <- (app_nil_r (concat texts)).
  rewrite (run_stream instrs texts Ht []), run_nil. now rewrite app_nil_r.
Qed.

(** Three instructions with 1, 2 and 5 elements, as [buildInstruction]
    writes them, split inside the second one. *)
Lemma feed_split_equivalence_witness :
  let i1 := [units "sync"] in
  let i2 := [units "select"; units "rdp"] in
  let i5 := [units "size"; units "1024"; units "768"; units "96"; []] in
  let stream := buildInstruction i1 ++ buildInstruction i2
                ++ buildInstruction i5 in
  let a := firstn 12 stream in
  let b := skipn 12 stream in
  feed [] a = (units "6.sel", [(units "sync", [])]) /\
  feed (units "6.sel") b
  = ([], [(units "select", [units "rdp"]);
          (units "size", [units "1024"; units "768"; units "96"; []])]) /\
  feed [] (a ++ b)
  = ([], [(units "sync", []); (units "select", [units "rdp"]);
          (units "size", [units "1024"; units "768"; units "96"; []])]).
Proof.
  intros i1 i2 i5 stream a b.
  assert (Ht : Forall2 elementsText [i1; i2; i5]
                 [buildInstruction i1; buildInstruction i2;
                  buildInstruction i5]).
  { repeat constructor; apply buildInstruction_text; discriminate. }
  assert (Hs : a ++ b = concat [buildInstruction i1; buildInstruction i2;
                                buildInstruction i5]) by reflexivity.
  pose proof (feed_split_equivalence _ _ a b Ht Hs) as H.
  vm_compute in H. destruct H as [_ H].
  split; [reflexivity|]. split; [reflexivity|]. exact H.
Defined.

(** *** Nothing is ever discarded *)

(** C9.  Whatever the buffer holds after the append, [feed] emits exactly
    the complete instructions at its front and stops at the first head
    that is structurally invalid or incomplete, leaving that rest in the
    buffer unchanged; in particular an invalid or incomplete head of the
    whole buffer emits nothing and keeps every unit, and an invalid head
    stays so whatever is fed later.  In every case the units removed are
    exactly the texts of the emitted instructions. *)
Theorem feed_never_discards :
  (forall buffer data instrs texts rest,
      Forall2 elementsText instrs texts ->
      invalidHead rest \/ tryParseOne rest = None ->
      buffer ++ data = concat texts ++ rest ->
      feed buffer data = (rest, flat_map asInstruction instrs))
  /\ (forall buffer data,
        invalidHead buffer -> feed buffer data = (buffer ++ data, []))
  /\ (forall buffer data,
        exists texts,
          buffer ++ data = concat texts ++ fst (feed buffer data) /\
          Forall2 (fun i t => elementsText (fst i :: snd i) t)
            (snd (feed buffer data)) texts).
Proof.
  assert (Stuck : forall rest,
            invalidHead rest \/ tryParseOne rest = None ->
            tryParseOne rest = None).
  { intros rest [H|H]; [|exact H]. now apply invalidHead_stuck. }
  assert (Main : forall buffer data instrs texts rest,
      Forall2 elementsText instrs texts ->
      invalidHead rest \/ tryParseOne rest = None ->
      buffer ++ data = concat texts ++ rest ->
      feed buffer data = (rest, flat_map asInstruction instrs)).
  { intros buffer data instrs texts rest Ht Hr E.
    unfold feed. fold (run (buffer ++ data)). rewrite E.
    rewrite (run_stream instrs texts Ht rest), (run_None rest (Stuck _ Hr)).
    now rewrite app_nil_r. }
  split; [exact Main|]. split.
  - intros buffer data Hi.
    apply (Main buffer data [] [] (buffer ++ data)); [constructor | | reflexivity].
    left. now apply invalidHead_app.
  - intros buffer data. unfold feed. fold (run (buffer ++ data)).
    destruct (run_conserves (buffer ++ data)) as (texts & H1 & H2 & _).
    now exists texts.
Qed.

(** A complete [sync] followed by a length prefix that runs into ['x']:
    the instruction is emitted, the invalid rest is kept, and stays. *)
Lemma feed_never_discards_witness :
  invalidHead (units "3xyz") /\
  feed (units "4.sync;3x") (units "yz") = (units "3xyz", [(units "sync", [])])
  /\ feed (units "3xyz") (units ".ab;") = (units "3xyz.ab;", []).
Proof.
  assert (Hi : invalidHead (units "3xyz")).
  { apply (@IH_length [] (units "3") 120%N (units "yz")).
    - constructor.
    - discriminate.
    - reflexivity.
    - reflexivity.
    - discriminate. }
  destruct feed_never_discards as (Main & Perm & _).
  split; [exact Hi|]. split.
  - apply (Main (units "4.sync;3x") (units "yz") [[units "sync"]]
             [units "4.sync;"] (units "3xyz")).
    + constructor; [|constructor].
      apply (@ET_last (units "4") (units "sync")).
      repeat split. discriminate.
    + now left.
    + reflexivity.
  - exact (Perm (units "3xyz") (units ".ab;") Hi).
Defined.

End FramerProofs.

(* ===================================================================== *)
(** ** Properties of [Map], [Set] and the session manager                 *)
(* ===================================================================== *)

Module ListFacts.
Lemma NoDup_app_iff (A : Type) (l1 l2 : list A) :
  NoDup (l1 ++ l2) <->
  NoDup l1 /\ NoDup l2 /\ (forall a, In a l1 -> ~ In a l2).
Proof.
  split.
  - intros H. split; [|split].
    + eapply NoDup_app_remove_r; eauto.
    + eapply NoDup_app_remove_l; eauto.
    + induction l1 as [|x l1 IH]; simpl in *; [tauto|].
      inversion H; subst. intros a [->|Ha] Hin.
      * apply H2. apply in_or_app. auto.
      * now apply (IH H3 a).
  - intros (H1 & H2 & H3). now apply NoDup_app.
Qed.
End ListFacts.

Module JsMapFacts.
Section WithValue.
Variable V : Type.
Implicit Types (m : JsMap.t V) (k : string) (v : V).

Lemma get_In_keys m k v : JsMap.get m k = Some v -> In k (JsMap.keys m).
Proof.
  induction m as [|[k' v'] m IH]; simpl; [discriminate|].
  destruct (String.eqb_spec k' k); auto.
Qed.

Lemma get_None m k : JsMap.get m k = None <-> ~ In k (JsMap.keys m).
Proof.
  induction m as [|[k' v'] m IH]; simpl; [tauto|].
  destruct (String.eqb_spec k' k); [|tauto].
  split; [discriminate | intros H; exfalso; auto].
Qed.

Lemma has_In m k : JsMap.has m k = true <-> In k (JsMap.keys m).
Proof.
  unfold JsMap.has. destruct (JsMap.get m k) eqn:E.
  - split; auto. intros _. eapply get_In_keys; eauto.
  - apply get_None in E. split; [discriminate | tauto].
Qed.

Lemma has_false m k : JsMap.has m k = false <-> ~ In k (JsMap.keys m).
Proof.
  rewrite <- has_In. destruct (JsMap.has m k); split; congruence.
Qed.

Lemma get_In m k v : JsMap.get m k = Some v -> In (k, v) m.
Proof.
  induction m as [|[k' v'] m IH]; simpl; [discriminate|].
  destruct (String.eqb_spec k' k); [|auto].
  intros H; inversion H; subst; auto.
Qed.

Lemma In_get m k v :
  NoDup (JsMap.keys m) -> In (k, v) m -> JsMap.get m k = Some v.
Proof.
  induction m as [|[k' v'] m IH]; simpl; [tauto|].
  intros Hnd [H|H]; inversion Hnd; subst.
  - inversion H; subst. now rewrite String.eqb_refl.
  - destruct (String.eqb_spec k' k); [|auto]. subst.
    exfalso. apply H2. change k with (fst (k, v)). now apply in_map.
Qed.

(** A present key splits the map around its entry. *)
Lemma get_split m k v :
  JsMap.get m k = Some v ->
  exists m1 m2, m = m1 ++ (k, v) :: m2 /\ ~ In k (JsMap.keys m1).
Proof.
  induction m as [|[k' v'] m IH]; simpl; [discriminate|].
  destruct (String.eqb_spec k' k).
  - intros H; inversion H; subst. exists [], m. auto.
  - intros H. destruct (IH H) as (m1 & m2 & -> & Hn).
    exists ((k', v') :: m1), m2. split; [reflexivity|].
    simpl. tauto.
Qed.

Lemma set_absent m k v :
  ~ In k (JsMap.keys m) -> JsMap.set m k v = m ++ [(k, v)].
Proof.
  induction m as [|[k' v'] m IH]; simpl; [reflexivity|].
  intros H. destruct (String.eqb_spec k' k); [tauto|].
  rewrite IH; tauto.
Qed.

Lemma set_present m1 m2 k v v' :
  ~ In k (JsMap.keys m1) ->
  JsMap.set (m1 ++ (k, v) :: m2) k v' = m1 ++ (k, v') :: m2.
Proof.
  induction m1 as [|[k1 v1] m1 IH]; simpl; intros H.
  - now rewrite String.eqb_refl.
  - destruct (String.eqb_spec k1 k); [tauto|]. rewrite IH; tauto.
Qed.

Lemma delete_absent m k : ~ In k (JsMap.keys m) -> JsMap.delete m k = m.
Proof.
  induction m as [|[k' v'] m IH]; simpl; [reflexivity|].
  intros H. destruct (String.eqb_spec k' k); [tauto|].
  rewrite IH; tauto.
Qed.

Lemma delete_present m1 m2 k v :
  ~ In k (JsMap.keys m1) ->
  JsMap.delete (m1 ++ (k, v) :: m2) k = m1 ++ m2.
Proof.
  induction m1 as [|[k1 v1] m1 IH]; simpl; intros H.
  - now rewrite String.eqb_refl.
  - destruct (String.eqb_spec k1 k); [tauto|]. rewrite IH; tauto.
Qed.

Lemma keys_app m1 m2 : JsMap.keys (m1 ++ m2) = JsMap.keys m1 ++ JsMap.keys m2.
Proof. apply map_app. Qed.

Lemma keys_set m k v :
  JsMap.keys (JsMap.set m k v)
  = if JsMap.has m k then JsMap.keys m else JsMap.keys m ++ [k].
Proof.
  unfold JsMap.has. destruct (JsMap.get m k) eqn:E.
  - destruct (get_split m k _ E) as (m1 & m2 & -> & Hn).
    rewrite set_present by assumption. now rewrite !keys_app.
  - apply get_None in E. rewrite set_absent by assumption.
    now rewrite keys_app.
Qed.

Lemma NoDup_keys_set m k v :
  NoDup (JsMap.keys m) -> NoDup (JsMap.keys (JsMap.set m k v)).
Proof.
  intros H. rewrite keys_set. destruct (JsMap.has m k) eqn:E; [assumption|].
  apply has_false in E. apply NoDup_app.
  - assumption.
  - repeat constructor. simpl; tauto.
  - intros x Hx [<-|[]]. auto.
Qed.

Lemma In_keys_set m k v x :
  In x (JsMap.keys (JsMap.set m k v)) <-> x = k \/ In x (JsMap.keys m).
Proof.
  rewrite keys_set. destruct (JsMap.has m k) eqn:E.
  - apply has_In in E. split; [auto | intros [->|]; auto].
  - rewrite in_app_iff. simpl. intuition.
Qed.

Lemma get_set_same m k v : JsMap.get (JsMap.set m k v) k = Some v.
Proof.
  induction m as [|[k' v'] m IH]; simpl.
  - now rewrite String.eqb_refl.
  - destruct (String.eqb_spec k' k); simpl.
    + subst. now rewrite String.eqb_refl.
    + destruct (String.eqb_spec k' k); [contradiction | exact IH].
Qed.

Lemma get_set_other m k v k' :
  k' <> k -> JsMap.get (JsMap.set m k v) k' = JsMap.get m k'.
Proof.
  intros Hne. induction m as [|[k1 v1] m IH]; simpl.
  - destruct (String.eqb_spec k k'); [congruence | reflexivity].
  - destruct (String.eqb_spec k1 k); simpl.
    + subst. destruct (String.eqb_spec k k'); [congruence | reflexivity].
    + destruct (String.eqb_spec k1 k'); [reflexivity | exact IH].
Qed.

Lemma In_delete m k e : In e (JsMap.delete m k) -> In e m.
Proof.
  induction m as [|[k' v'] m IH]; simpl; [tauto|].
  destruct (String.eqb_spec k' k); simpl; intuition.
Qed.

Lemma keys_delete m k x :
  NoDup (JsMap.keys m) ->
  (In x (JsMap.keys (JsMap.delete m k)) <-> In x (JsMap.keys m) /\ x <> k).
Proof.
  induction m as [|[k' v'] m IH]; simpl; [tauto|].
  intros Hnd. inversion Hnd; subst.
  destruct (String.eqb_spec k' k); simpl.
  - subst. split; [|intuition congruence].
    intros H. split; [auto|]. intros ->. auto.
  - rewrite IH by assumption. split; [|intuition congruence].
    intros [->|[? ?]]; auto.
Qed.

Lemma NoDup_keys_delete m k :
  NoDup (JsMap.keys m) -> NoDup (JsMap.keys (JsMap.delete m k)).
Proof.
  induction m as [|[k' v'] m IH]; simpl; [auto|].
  intros Hnd. inversion Hnd; subst.
  destruct (String.eqb_spec k' k); simpl; [assumption|].
  constructor; [|auto]. intros H. apply H1.
  change (In k' (JsMap.keys (JsMap.delete m k))) in H.
  now apply keys_delete in H.
Qed.

Lemma get_delete_same m k :
  NoDup (JsMap.keys m) -> JsMap.get (JsMap.delete m k) k = None.
Proof.
  intros H. apply get_None. rewrite keys_delete by assumption. tauto.
Qed.

Lemma In_set m k v e : In e (JsMap.set m k v) -> e = (k, v) \/ In e m.
Proof.
  induction m as [|[k' v'] m IH]; simpl.
  - intros [<-|[]]. now left.
  - destruct (String.eqb_spec k' k); simpl.
    + subst. intros [<-|H]; auto.
    + intros [<-|H]; auto. destruct (IH H); auto.
Qed.

Lemma keys_delete_incl m k x :
  In x (JsMap.keys (JsMap.delete m k)) -> In x (JsMap.keys m).
Proof.
  unfold JsMap.keys. rewrite !in_map_iff.
  intros (e & <- & He). exists e. split; [reflexivity|].
  now apply In_delete in He.
Qed.

Lemma get_delete_other m k k' :
  k' <> k -> JsMap.get (JsMap.delete m k) k' = JsMap.get m k'.
Proof.
  intros Hne. induction m as [|[k1 v1] m IH]; simpl; [reflexivity|].
  destruct (String.eqb_spec k1 k); simpl.
  - subst. destruct (String.eqb_spec k k'); [congruence | reflexivity].
  - destruct (String.eqb_spec k1 k'); [reflexivity | exact IH].
Qed.
End WithValue.
End JsMapFacts.

Module JsSetFacts.
Lemma mem_has s x : JsSet.has s x = true <-> In x s.
Proof.
  unfold JsSet.has. rewrite existsb_exists. split.
  - intros (y & Hy & E). apply String.eqb_eq in E. now subst.
  - intros H. exists x. split; [assumption | apply String.eqb_refl].
Qed.

Lemma mem_has_false s x : JsSet.has s x = false <-> ~ In x s.
Proof.
  rewrite <- mem_has. destruct (JsSet.has s x); split; congruence.
Qed.

Lemma add_absent s x : ~ In x s -> JsSet.add s x = s ++ [x].
Proof. intros H. unfold JsSet.add. apply mem_has_false in H. now rewrite H. Qed.

Lemma mem_delete s x y :
  NoDup s -> (In y (JsSet.delete s x) <-> In y s /\ y <> x).
Proof.
  induction s as [|z s IH]; simpl; [tauto|].
  intros Hnd. inversion Hnd; subst.
  destruct (String.eqb_spec z x); simpl.
  - subst. split; [|intuition congruence].
    intros H. split; [auto|]. intros ->. auto.
  - rewrite IH by assumption. split; [|intuition congruence].
    intros [->|[? ?]]; auto.
Qed.

Lemma NoDup_delete s x : NoDup s -> NoDup (JsSet.delete s x).
Proof.
  induction s as [|z s IH]; simpl; [auto|].
  intros Hnd. inversion Hnd; subst.
  destruct (String.eqb_spec z x); [assumption|].
  constructor; [|auto]. rewrite mem_delete by assumption. tauto.
Qed.
End JsSetFacts.

Module SessionManagerProofs.
Import SessionManager JsMapFacts JsSetFacts ListFacts.

(** *** Buckets and their members *)

Lemma members_cons key ids index :
  members ((key, ids) :: index) = ids ++ members index.
Proof. reflexivity. Qed.

Lemma members_app index1 index2 :
  members (index1 ++ index2) = members index1 ++ members index2.
Proof.
  unfold members, JsMap.values. now rewrite map_app, concat_app.
Qed.

Lemma members_inBucket index id :
  In id (members index) <-> exists key, inBucket index key id.
Proof.
  unfold members, JsMap.values, inBucket. rewrite in_concat. split.
  - intros (ids & Hin & Hid). apply in_map_iff in Hin.
    destruct Hin as ([key ids'] & <- & Hin). now exists key, ids'.
  - intros (key & ids & Hin & Hid). exists ids. split; [|assumption].
    change ids with (snd (key, ids)). now apply in_map.
Qed.

Lemma inBucket_unique index id key1 key2 :
  NoDup (members index) ->
  inBucket index key1 id -> inBucket index key2 id -> key1 = key2.
Proof.
  induction index as [|[key ids] index IH]; intros Hnd H1 H2.
  - destruct H1 as (? & [] & _).
  - rewrite members_cons in Hnd. apply NoDup_app_iff in Hnd.
    destruct Hnd as (_ & Hm & Hdis).
    assert (Tail : forall k, (exists l, In (k, l) index /\ In id l) ->
                             In id (members index)).
    { intros k Hk. apply members_inBucket. now exists k. }
    destruct H1 as (ids1 & [E1|T1] & I1), H2 as (ids2 & [E2|T2] & I2).
    + congruence.
    + inversion E1; subst. exfalso. apply (Hdis id I1). apply (Tail key2). eauto.
    + inversion E2; subst. exfalso. apply (Hdis id I2). apply (Tail key1). eauto.
    + apply IH; [assumption | now exists ids1 | now exists ids2].
Qed.

(** *** [addToIndex] *)

Lemma addToIndex_cases index key id :
  (~ In key (JsMap.keys index) /\
   addToIndex index key id = index ++ [(key, JsSet.add JsSet.empty id)])
  \/ (exists m1 m2 ids,
        index = m1 ++ (key, ids) :: m2 /\ ~ In key (JsMap.keys m1) /\
        addToIndex index key id = m1 ++ (key, JsSet.add ids id) :: m2).
Proof.
  unfold addToIndex. destruct (JsMap.has index key) eqn:E.
  - right. unfold JsMap.has in E.
    destruct (JsMap.get index key) as [ids|] eqn:G; [|discriminate].
    destruct (get_split _ index key ids G) as (m1 & m2 & -> & Hn).
    exists m1, m2, ids. repeat split; auto.
    now rewrite set_present.
  - left. apply has_false in E. split; [assumption|].
    rewrite get_set_same. rewrite (set_absent _ index key _ E).
    exact (set_present _ index [] key _ _ E).
Qed.

Lemma addToIndex_keys index key id :
  NoDup (JsMap.keys index) -> NoDup (JsMap.keys (addToIndex index key id)).
Proof.
  intros H.
  destruct (addToIndex_cases index key id)
    as [[Hn ->]|(m1 & m2 & ids & -> & Hn & ->)].
  - rewrite keys_app. apply NoDup_app; [assumption | | ].
    + repeat constructor. simpl; tauto.
    + intros x Hx [<-|[]]. auto.
  - now rewrite keys_app in *.
Qed.

Lemma addToIndex_members index key id x :
  ~ In id (members index) ->
  (In x (members (addToIndex index key id)) <-> x = id \/ In x (members index)).
Proof.
  intros Hid.
  destruct (addToIndex_cases index key id)
    as [[Hn ->]|(m1 & m2 & ids & -> & Hn & ->)].
  - rewrite members_app, in_app_iff. cbn. intuition.
  - rewrite !members_app, !members_cons in *.
    rewrite add_absent by (intros H; apply Hid; rewrite !in_app_iff; auto).
    rewrite !in_app_iff. cbn. intuition.
Qed.

Lemma addToIndex_NoDup index key id :
  NoDup (members index) -> ~ In id (members index) ->
  NoDup (members (addToIndex index key id)).
Proof.
  intros Hnd Hid.
  destruct (addToIndex_cases index key id)
    as [[Hn ->]|(m1 & m2 & ids & -> & Hn & ->)].
  - rewrite members_app. apply NoDup_app; [assumption | | ].
    + cbn. repeat constructor. simpl; tauto.
    + intros x Hx [<-|[]]. auto.
  - rewrite !members_app, !members_cons in *.
    rewrite add_absent by (intros H; apply Hid; rewrite !in_app_iff; auto).
    rewrite <- app_assoc. cbn [app].
    rewrite !in_app_iff in Hid.
    apply NoDup_app_iff in Hnd. destruct Hnd as (H1 & H2 & H3).
    apply NoDup_app_iff in H2. destruct H2 as (H4 & H5 & H6).
    apply NoDup_app_iff. split; [assumption|]. split.
    + apply NoDup_app_iff. split; [assumption|]. split.
      * constructor; [tauto | assumption].
      * intros a Ha [<-|Hin]; [tauto | now apply (H6 a)].
    + intros a Ha. specialize (H3 a Ha). rewrite in_app_iff in *. cbn.
      intuition. subst. tauto.
Qed.

Lemma addToIndex_inBucket index key id :
  inBucket (addToIndex index key id) key id.
Proof.
  assert (A : forall ids, In id (JsSet.add ids id)).
  { intros ids. unfold JsSet.add. destruct (JsSet.has ids id) eqn:E.
    - now apply mem_has. - apply in_or_app. right. now left. }
  destruct (addToIndex_cases index key id)
    as [[Hn ->]|(m1 & m2 & ids & -> & Hn & ->)].
  - exists (JsSet.add JsSet.empty id). split; [|apply A].
    apply in_or_app. right. now left.
  - exists (JsSet.add ids id). split; [|apply A].
    apply in_or_app. right. now left.
Qed.

(** *** [removeFromIndex] *)

Lemma removeFromIndex_keys_incl index id key :
  In key (JsMap.keys (removeFromIndex index id)) -> In key (JsMap.keys index).
Proof.
  induction index as [|[k ids] index IH]; simpl; [tauto|].
  destruct (JsSet.has ids id); [destruct (JsSet.size _ =? 0)|]; simpl; tauto.
Qed.

Lemma removeFromIndex_keys index id :
  NoDup (JsMap.keys index) -> NoDup (JsMap.keys (removeFromIndex index id)).
Proof.
  induction index as [|[k ids] index IH]; simpl; [auto|].
  intros Hnd. inversion Hnd; subst.
  assert (~ In k (JsMap.keys (removeFromIndex index id)))
    by (intros H; now apply removeFromIndex_keys_incl in H).
  destruct (JsSet.has ids id); [destruct (JsSet.size _ =? 0)|]; simpl;
    try constructor; auto.
Qed.

Lemma removeFromIndex_members index id :
  NoDup (members index) ->
  NoDup (members (removeFromIndex index id)) /\
  forall x, In x (members (removeFromIndex index id))
            <-> In x (members index) /\ x <> id.
Proof.
  induction index as [|[k ids] index IH]; intros Hnd.
  - simpl. split; [constructor | cbn; tauto].
  - rewrite members_cons in Hnd. apply NoDup_app_iff in Hnd.
    destruct Hnd as (Hids & Hm & Hdis).
    destruct (IH Hm) as (IH1 & IH2).
    cbn [removeFromIndex]. destruct (JsSet.has ids id) eqn:Hhas.
    + apply mem_has in Hhas.
      assert (Hnot : ~ In id (members index)) by now apply Hdis.
      destruct (JsSet.size (JsSet.delete ids id) =? 0) eqn:Hsz.
      * apply Nat.eqb_eq in Hsz. unfold JsSet.size in Hsz.
        apply length_zero_iff_nil in Hsz.
        assert (Only : forall x, In x ids -> x = id).
        { intros x Hx. destruct (string_dec x id) as [|Hne]; [assumption|].
          assert (In x (JsSet.delete ids id))
            by (apply mem_delete; auto).
          rewrite Hsz in H. destruct H. }
        split; [assumption|]. intros x. rewrite members_cons, in_app_iff.
        split.
        -- intros Hx. split; [auto|]. intros ->. auto.
        -- intros [[Hx|Hx] Hne]; [|assumption]. now apply Only in Hx.
      * rewrite members_cons. split.
        -- apply NoDup_app_iff. split; [now apply NoDup_delete|].
           split; [assumption|]. intros a Ha Hin.
           apply mem_delete in Ha; [|assumption]. apply IH2 in Hin.
           apply (Hdis a); tauto.
        -- intros x. rewrite members_cons, !in_app_iff, IH2.
           rewrite mem_delete by assumption. tauto.
    + apply mem_has_false in Hhas. rewrite members_cons. split.
      * apply NoDup_app_iff. split; [assumption|]. split; [assumption|].
        intros a Ha Hin. apply IH2 in Hin. apply (Hdis a); tauto.
      * intros x. rewrite members_cons, !in_app_iff, IH2.
        split; [|tauto]. intros [Hx|Hx]; [|tauto].
        split; [auto|]. intros ->. auto.
Qed.

(** *** The representation invariant *)

Section WithSession.
Variable S : Type.
Implicit Types idx : Indexes S.

Lemma wellFormed_empty : wellFormed (noSessions S).
Proof. constructor; cbn; try constructor; tauto. Qed.

Lemma createIn_wellFormed mk bl al uuid deviceId browserId sessionId idx
      session idx' :
  wellFormed idx ->
  createIn mk bl al uuid deviceId browserId sessionId idx
  = inr (session, idx') ->
  wellFormed idx'.
Proof.
  intros [W1 W2 W3 W4 W5 W6 W7]. unfold createIn.
  destruct bl as [bl|]; [|discriminate].
  destruct al as [al|]; [|discriminate].
  destruct (bl browserId) as [bs|]; [|discriminate].
  destruct (al deviceId) as [ags|]; [|discriminate].
  set (id := match sessionId with Some i => i | None => uuid end).
  destruct (JsMap.has (sessions idx) id) eqn:Hhas; [discriminate|].
  intros H; inversion H; subst session idx'; clear H.
  apply has_false in Hhas.
  assert (Hb : ~ In id (members (sessionsByBrowser idx)))
    by now rewrite W6.
  assert (Hd : ~ In id (members (sessionsByDevice idx)))
    by now rewrite W7.
  constructor; cbn [sessions sessionsByBrowser sessionsByDevice].
  - now apply NoDup_keys_set.
  - now apply addToIndex_keys.
  - now apply addToIndex_keys.
  - now apply addToIndex_NoDup.
  - now apply addToIndex_NoDup.
  - intros x. rewrite addToIndex_members, In_keys_set, W6 by assumption.
    tauto.
  - intros x. rewrite addToIndex_members, In_keys_set, W7 by assumption.
    tauto.
Qed.

Lemma closeIn_wellFormed sessionId reason idx :
  wellFormed idx -> wellFormed (closeIn sessionId reason idx).
Proof.
  intros W. unfold closeIn.
  destruct (JsMap.get (sessions idx) sessionId) eqn:G; [|assumption].
  destruct W as [W1 W2 W3 W4 W5 W6 W7].
  destruct (removeFromIndex_members _ sessionId W4) as (B1 & B2).
  destruct (removeFromIndex_members _ sessionId W5) as (D1 & D2).
  constructor; cbn [sessions sessionsByBrowser sessionsByDevice].
  - now apply NoDup_keys_delete.
  - now apply removeFromIndex_keys.
  - now apply removeFromIndex_keys.
  - assumption.
  - assumption.
  - intros x. rewrite B2, keys_delete, W6 by assumption. tauto.
  - intros x. rewrite D2, keys_delete, W7 by assumption. tauto.
Qed.

Lemma wellFormed_agree idx : wellFormed idx -> indexesAgree idx.
Proof.
  intros [W1 W2 W3 W4 W5 W6 W7]. split; [|split].
  - intros id Hid. split.
    + apply W6, members_inBucket in Hid. destruct Hid as (key & Hk).
      exists key. split; [assumption|]. intros key' Hk'.
      now apply (inBucket_unique (sessionsByBrowser idx) id).
    + apply W7, members_inBucket in Hid. destruct Hid as (key & Hk).
      exists key. split; [assumption|]. intros key' Hk'.
      now apply (inBucket_unique (sessionsByDevice idx) id).
  - intros key id H. apply W6, members_inBucket. now exists key.
  - intros key id H. apply W7, members_inBucket. now exists key.
Qed.
End WithSession.

(** *** Records keep their ids *)

Section Keyed.
Variable S : Type.
Variable sid : S -> string.
Implicit Types idx : Indexes S.

Lemma createIn_keyed mk bl al uuid deviceId browserId sessionId idx
      session idx' :
  (forall id b a, sid (mk id b a) = id) ->
  keyedById sid idx ->
  createIn mk bl al uuid deviceId browserId sessionId idx
  = inr (session, idx') ->
  keyedById sid idx'.
Proof.
  intros Hmk Hk. unfold createIn.
  destruct bl as [bl|]; [|discriminate].
  destruct al as [al|]; [|discriminate].
  destruct (bl browserId) as [bs|]; [|discriminate].
  destruct (al deviceId) as [ags|]; [|discriminate].
  destruct (JsMap.has _ _); [discriminate|].
  intros H; inversion H; subst session idx'; clear H.
  intros id session Hin. cbn [sessions] in Hin.
  apply In_set in Hin. destruct Hin as [E|Hin]; [|now apply Hk].
  inversion E; subst. apply Hmk.
Qed.

Lemma closeIn_keyed sessionId reason idx :
  keyedById sid idx -> keyedById sid (closeIn sessionId reason idx).
Proof.
  intros Hk. unfold closeIn.
  destruct (JsMap.get (sessions idx) sessionId); [|assumption].
  intros id session Hin. cbn [sessions] in Hin.
  apply In_delete in Hin. now apply Hk.
Qed.

Lemma closeIn_closed sessionId reason idx :
  wellFormed idx -> getIn sessionId (closeIn sessionId reason idx) = None.
Proof.
  intros W. unfold closeIn, getIn.
  destruct (JsMap.get (sessions idx) sessionId) eqn:G; [|assumption].
  cbn [sessions]. apply get_delete_same, W.
Qed.

Lemma closeIn_stays_closed id sessionId reason idx :
  getIn id idx = None -> getIn id (closeIn sessionId reason idx) = None.
Proof.
  unfold closeIn, getIn. intros H.
  destruct (JsMap.get (sessions idx) sessionId); [|assumption].
  cbn [sessions]. apply get_None. intros Hin.
  apply keys_delete_incl in Hin. now apply get_None in H.
Qed.
End Keyed.

(** *** All call sequences *)

Lemma call_wellFormed m c : wellFormedManager m -> wellFormedManager (call m c).
Proof.
  intros [Hs Hr]. destruct c; cbn [call].
  - unfold createSession.
    destruct (createIn _ _ _ _ _ _ _ _) as [e|[s idx]] eqn:E; [now split|].
    split; [|assumption]. eapply createIn_wellFormed; eauto.
  - split; [|assumption]. now apply closeIn_wellFormed.
  - unfold createRDPSession.
    destruct (createIn _ _ _ _ _ _ _ _) as [e|[s idx]] eqn:E; [now split|].
    split; [assumption|]. eapply createIn_wellFormed; eauto.
  - split; [assumption|]. now apply closeIn_wellFormed.
Qed.

Lemma calls_wellFormed cs : wellFormedManager (calls cs).
Proof.
  unfold calls.
  assert (G : forall m, wellFormedManager m ->
                        wellFormedManager (fold_left call cs m)).
  { induction cs as [|c cs IH]; intros m Hm; [assumption|].
    cbn [fold_left]. apply IH. now apply call_wellFormed. }
  apply G. split; apply wellFormed_empty.
Qed.

(** C1.  After every sequence of create and close calls, SSH and RDP in
    any order, the three indexes of each kind agree: every id of the
    by-id map is in exactly one browser bucket and exactly one device
    bucket, and every id in a bucket is in the by-id map. *)
Theorem indexes_agree_after_calls (cs : list Call) :
  indexesAgree (forSSH (calls cs)) /\ indexesAgree (forRDP (calls cs)).
Proof.
  destruct (calls_wellFormed cs) as [Hs Hr].
  split; now apply wellFormed_agree.
Qed.

(** *** Duplicate ids *)

Lemma createIn_duplicate (S : Type) (mk : string -> SocketId -> SocketId -> S)
      bl al uuid deviceId browserId id (idx : Indexes S) :
  JsMap.has (sessions idx) id = true ->
  exists e, createIn mk bl al uuid deviceId browserId (Some id) idx = inl e.
Proof.
  intros H. unfold createIn.
  destruct bl as [bl|]; [|eauto]. destruct al as [al|]; [|eauto].
  destruct (bl browserId); [|eauto]. destruct (al deviceId); [|eauto].
  rewrite H. eauto.
Qed.

(** C3, as the code has it.  A create call of one kind with a
    caller-supplied id that a live session of that kind already has always
    throws and leaves the whole manager as it was; so in every reachable
    state each by-id map holds at most one session per id.  The check is
    per kind: the other kind's map is not consulted. *)
Theorem duplicate_id_rejected_per_kind
    (cs : list Call) (bl al : option SocketLookup) (now : Z)
    (uuid deviceId browserId id : string) :
  let m := calls cs in
  (JsMap.has (sessions (forSSH m)) id = true ->
     (exists e, createSession bl al now uuid deviceId browserId (Some id)
                  (forSSH m) = inl e) /\
     call m (CreateSSH bl al now uuid deviceId browserId (Some id)) = m)
  /\ (JsMap.has (sessions (forRDP m)) id = true ->
     (exists e, createRDPSession bl al now uuid deviceId browserId (Some id)
                  (forRDP m) = inl e) /\
     call m (CreateRDP bl al now uuid deviceId browserId (Some id)) = m)
  /\ NoDup (JsMap.keys (sessions (forSSH m)))
  /\ NoDup (JsMap.keys (sessions (forRDP m))).
Proof.
  intros m. destruct (calls_wellFormed cs) as [Hs Hr]. fold m in Hs, Hr.
  split; [|split; [|split]].
  - intros H.
    destruct (createIn_duplicate _ (newSSHSession now deviceId)
                bl al uuid deviceId browserId id (forSSH m) H) as [e He].
    split; [now exists e|]. cbn [call]. unfold createSession. now rewrite He.
  - intros H.
    destruct (createIn_duplicate _ (newRDPSession now deviceId)
                bl al uuid deviceId browserId id (forRDP m) H) as [e He].
    split; [now exists e|]. cbn [call]. unfold createRDPSession. now rewrite He.
  - apply Hs.
  - apply Hr.
Qed.

Local Open Scope string_scope.
Local Open Scope list_scope.

(** An SSH session [s1] is live; a second create with [s1] throws
    [SessionAlreadyExists] and changes nothing. *)
Lemma duplicate_id_rejected_per_kind_witness :
  let lookup := Some (fun _ : string => Some 1) in
  let cs := [CreateSSH lookup lookup 0 "u1" "pi-1" "b1" (Some "s1")] in
  JsMap.has (sessions (forSSH (calls cs))) "s1" = true /\
  createSession lookup lookup 5 "u2" "pi-2" "b2" (Some "s1") (forSSH (calls cs))
  = inl (SessionAlreadyExists "s1") /\
  call (calls cs) (CreateSSH lookup lookup 5 "u2" "pi-2" "b2" (Some "s1"))
  = calls cs.
Proof.
  intros lookup cs.
  assert (H : JsMap.has (sessions (forSSH (calls cs))) "s1" = true)
    by reflexivity.
  destruct (duplicate_id_rejected_per_kind cs lookup lookup 5
              "u2" "pi-2" "b2" "s1") as (Hssh & _).
  destruct (Hssh H) as [_ Hcall].
  split; [exact H|]. split; [reflexivity | exact Hcall].
Defined.

(** C3 as stated fails across kinds: while the SSH session [s1] is live,
    creating an RDP session with the caller-supplied id [s1] succeeds, and
    two live sessions carry the id [s1]. *)
Lemma same_id_accepted_across_kinds :
  let lookup := Some (fun _ : string => Some 1) in
  let m := calls [CreateSSH lookup lookup 0 "u1" "pi-1" "b1" (Some "s1")] in
  let m' := call m (CreateRDP lookup lookup 5 "u2" "pi-1" "b1" (Some "s1")) in
  In "s1" (liveIds m) /\
  createRDPSession lookup lookup 5 "u2" "pi-1" "b1" (Some "s1") (forRDP m)
  = inr (newRDPSession 5 "pi-1" "s1" 1 1,
         {| sessions := [("s1", newRDPSession 5 "pi-1" "s1" 1 1)];
            sessionsByBrowser := [("b1", ["s1"])];
            sessionsByDevice := [("pi-1", ["s1"])] |}) /\
  m' <> m /\
  liveIds m' = ["s1"; "s1"] /\ ~ NoDup (liveIds m').
Proof.
  cbv zeta. split; [now left|]. split; [reflexivity|].
  split; [discriminate|]. split; [reflexivity|].
  intros H. inversion H; subst. apply H2. now left.
Defined.

End SessionManagerProofs.

(* ===================================================================== *)
(** ** Properties of the relay                                            *)
(* ===================================================================== *)

Module ServerProofs.
Import Json Messages SessionManager Server Scenario.
Import JsMapFacts SessionManagerProofs.
Local Open Scope string_scope.
Local Open Scope list_scope.
Local Open Scope relay_scope.
Local Set Implicit Arguments.

(** *** Running handlers *)

Lemma run_bind (A B : Type) (c : M A) (k : A -> M B) st a st1 t1 :
  c st = (a, st1, t1) ->
  bind c k st = (fst (fst (k a st1)), stateOf (k a st1), t1 ++ traceOf (k a st1)).
Proof.
  intros H. unfold bind, stateOf, traceOf. rewrite H.
  now destruct (k a st1) as [[b st2] t2].
Qed.

Lemma unit_result (r : unit * State * list Effect) :
  r = (tt, stateOf r, traceOf r).
Proof. now destruct r as [[[] st] t]. Qed.

Lemma sendIfOpen_run s message st :
  sendIfOpen s message st
  = (tt, st, if isOpen st s then [Send s message] else []).
Proof.
  unfold sendIfOpen, bind, gets, socketSend, emit, ret.
  now destruct (isOpen st s).
Qed.

(** *** The mutable records *)

Lemma keys_mutate (S : Type) (m : JsMap.t S) key f :
  JsMap.keys (mutate m key f) = JsMap.keys m.
Proof.
  induction m as [|[k v] m IH]; simpl; [reflexivity|].
  destruct (String.eqb k key); simpl; [reflexivity | now rewrite IH].
Qed.

Lemma In_mutate (S : Type) (m : JsMap.t S) key f id x :
  In (id, x) (mutate m key f) ->
  In (id, x) m \/ exists y, In (id, y) m /\ x = f y.
Proof.
  induction m as [|[k v] m IH]; simpl; [tauto|].
  destruct (String.eqb k key); simpl.
  - intros [E|H]; [|auto]. inversion E; subst. right. exists v. auto.
  - intros [E|H]; [auto|]. destruct (IH H) as [|(y & Hy & ->)]; [auto|].
    right. exists y. auto.
Qed.

Lemma mutateSession_wellFormed (S : Type) key f (idx : Indexes S) :
  wellFormed idx -> wellFormed (mutateSession key f idx).
Proof.
  intros [W1 W2 W3 W4 W5 W6 W7].
  constructor; cbn [mutateSession sessions sessionsByBrowser sessionsByDevice];
    rewrite ?keys_mutate; assumption.
Qed.

Lemma mutateSession_keyed (S : Type) (sid : S -> string) key f
      (idx : Indexes S) :
  (forall x, sid (f x) = sid x) ->
  keyedById sid idx -> keyedById sid (mutateSession key f idx).
Proof.
  intros Hf Hk id x Hin. cbn [mutateSession sessions] in Hin.
  apply In_mutate in Hin. destruct Hin as [Hin|(y & Hy & ->)].
  - now apply Hk.
  - rewrite Hf. now apply Hk.
Qed.

(** *** The invariant of the process *)

Lemma Inv_initial : Inv initial.
Proof.
  constructor; cbn; try apply wellFormed_empty; try constructor;
    intros ? ? [].
Qed.

Lemma SSH_laws : KindLaws SSH.
Proof.
  constructor; try reflexivity.
  - intros st [? ? ? ? ?]. now split.
  - intros st i [? ? ? ? ?] ? ?. now constructor.
  - intros bl al now uuid d b sessionId idx session idx' H W Hk. split.
    + eapply createIn_wellFormed; [exact W | exact H].
    + eapply createIn_keyed; [ | exact Hk | exact H]. reflexivity.
Qed.

Lemma RDP_laws : KindLaws RDP.
Proof.
  constructor; try reflexivity.
  - intros st [? ? ? ? ?]. now split.
  - intros st i [? ? ? ? ?] ? ?. now constructor.
  - intros bl al now uuid d b sessionId idx session idx' H W Hk. split.
    + eapply createIn_wellFormed; [exact W | exact H].
    + eapply createIn_keyed; [ | exact Hk | exact H]. reflexivity.
Qed.

(** *** Every handler keeps the invariant *)

Lemma preserves_ret (A : Type) (a : A) : preserves (ret a).
Proof. intros st H. exact H. Qed.

Lemma preserves_gets (A : Type) (f : State -> A) : preserves (gets f).
Proof. intros st H. exact H. Qed.

Lemma preserves_emit e : preserves (emit e).
Proof. intros st H. exact H. Qed.

Lemma preserves_modify f :
  (forall st, Inv st -> Inv (f st)) -> preserves (modify f).
Proof. intros Hf st H. now apply Hf. Qed.

Lemma preserves_bind (A B : Type) (c : M A) (k : A -> M B) :
  preserves c -> (forall a, preserves (k a)) -> preserves (bind c k).
Proof.
  intros Hc Hk st H. unfold bind, stateOf.
  destruct (c st) as [[a st1] t1] eqn:E1.
  specialize (Hc st H). rewrite E1 in Hc. cbn in Hc.
  specialize (Hk a st1 Hc). unfold stateOf in Hk.
  now destruct (k a st1) as [[b st2] t2].
Qed.

Lemma preserves_forEach (A : Type) (xs : list A) (body : A -> M unit) :
  (forall x, preserves (body x)) -> preserves (forEach xs body).
Proof.
  intros Hb. induction xs as [|x xs IH]; cbn [forEach].
  - apply preserves_ret.
  - apply preserves_bind; auto.
Qed.

Lemma Inv_withSockets table st : Inv st -> Inv (withSockets table st).
Proof. intros [? ? ? ? ?]. now constructor. Qed.

Lemma Inv_withBrowserConnections m st :
  Inv st -> Inv (withBrowserConnections m st).
Proof. intros [? ? ? ? ?]. now constructor. Qed.

Lemma Inv_withAgentConnections m st :
  NoDup (JsMap.keys m) -> Inv st -> Inv (withAgentConnections m st).
Proof. intros ? [? ? ? ? ?]. now constructor. Qed.

Lemma touch_keys now deviceId m :
  NoDup (JsMap.keys m) -> NoDup (JsMap.keys (touch now deviceId m)).
Proof.
  intros H. unfold touch. destruct (JsMap.get m deviceId); [|assumption].
  now apply NoDup_keys_set.
Qed.

(** Solves [preserves] goals along the structure of a handler. *)
Ltac pres_step :=
  first
    [ apply preserves_ret | apply preserves_gets | apply preserves_emit
    | apply preserves_bind; [|intros ?]
    | apply preserves_forEach; intros ?
    | apply preserves_modify; intros ? ?;
      first [ now apply Inv_withSockets
            | now apply Inv_withBrowserConnections
            | apply Inv_withAgentConnections;
              [ first [ apply NoDup_keys_set | apply NoDup_keys_delete
                      | apply touch_keys ];
                match goal with H : Inv _ |- _ => apply H end
              | assumption ] ]
    | match goal with
      | |- preserves (match ?x with _ => _ end) => destruct x
      | |- preserves (if ?x then _ else _) => destruct x
      end ].
Ltac pres := repeat pres_step.

Lemma preserves_sendIfOpen s message : preserves (sendIfOpen s message).
Proof. unfold sendIfOpen, socketSend. pres. Qed.

Lemma preserves_socketSend s message : preserves (socketSend s message).
Proof. unfold socketSend. pres. Qed.

Lemma preserves_socketClose s code reason : preserves (socketClose s code reason).
Proof. unfold socketClose. pres. Qed.

Lemma preserves_broadcast message : preserves (broadcastToBrowsers message).
Proof. unfold broadcastToBrowsers. pres. Qed.

Section ProxyPreserves.
Variable S : Type.
Variable K : SessionKind S.
Hypothesis laws : KindLaws K.

Lemma preserves_onIndexes f :
  (forall idx, wellFormed idx -> keyedById (sid K) idx ->
               wellFormed (f idx) /\ keyedById (sid K) (f idx)) ->
  preserves (onIndexes K f).
Proof.
  intros Hf. unfold onIndexes. apply preserves_modify. intros st H.
  destruct (law_inv_get laws H) as [W Hk].
  destruct (Hf _ W Hk). now apply (law_inv_set laws).
Qed.

Lemma preserves_close sessionId reason : preserves (close K sessionId reason).
Proof.
  apply preserves_onIndexes. intros idx W Hk. split.
  - now apply closeIn_wellFormed.
  - now apply closeIn_keyed.
Qed.

Lemma preserves_mutate key s :
  preserves (onIndexes K (mutateSession key (withStatus K s))).
Proof.
  apply preserves_onIndexes. intros idx W Hk. split.
  - now apply mutateSession_wellFormed.
  - apply mutateSession_keyed; [|assumption]. apply (law_status laws).
Qed.

Lemma preserves_tryCreate now deviceId browser sessionId :
  preserves (tryCreate K now deviceId browser sessionId).
Proof.
  intros st H. unfold tryCreate, stateOf.
  destruct (create K _ _ _ _ _ _ _ _) as [e|[session idx]] eqn:E; [exact H|].
  cbn. destruct (law_inv_get laws H) as [W Hk].
  destruct (law_create laws _ _ _ _ _ _ _ E W Hk).
  now apply (law_inv_set laws).
Qed.

Ltac proxy :=
  repeat first
    [ apply preserves_sendIfOpen | apply preserves_close
    | apply preserves_mutate | apply preserves_tryCreate | pres_step ].

Lemma preserves_sessionRequest now payload browser socket :
  preserves (handleSessionRequestFromBrowser K now payload browser socket).
Proof. unfold handleSessionRequestFromBrowser. proxy. Qed.

Lemma preserves_sessionResponse now payload :
  preserves (handleSessionResponseFromAgent K now payload).
Proof. unfold handleSessionResponseFromAgent. proxy. Qed.

Lemma preserves_dataFromBrowser now payload :
  preserves (handleDataFromBrowser K now payload).
Proof. unfold handleDataFromBrowser. proxy. Qed.

Lemma preserves_dataFromAgent now payload :
  preserves (handleDataFromAgent K now payload).
Proof. unfold handleDataFromAgent. proxy. Qed.

Lemma preserves_handleClose now payload source :
  preserves (handleClose K now payload source).
Proof. unfold handleClose. proxy. Qed.

Lemma preserves_closeForBrowser now browser :
  preserves (closeSessionsForBrowser K now browser).
Proof. unfold closeSessionsForBrowser. proxy. Qed.

Lemma preserves_closeForAgent now deviceId :
  preserves (closeSessionsForAgent K now deviceId).
Proof. unfold closeSessionsForAgent. proxy. Qed.
End ProxyPreserves.

Lemma preserves_resize now payload :
  preserves (handleSshResizeFromBrowser now payload).
Proof.
  unfold handleSshResizeFromBrowser. pres.
  apply (preserves_onIndexes SSH_laws). intros idx W Hk. split.
  - now apply mutateSession_wellFormed.
  - apply mutateSession_keyed; [reflexivity | assumption].
Qed.

Lemma preserves_step now e : preserves (step now e).
Proof.
  destruct e; cbn [step].
  - unfold handleConnection. pres.
  - unfold onAgentMessage, onBrowserMessage, dispatchAgent, dispatchBrowser,
        handleAgentRegister, handleAgentHeartbeat, replaceExisting,
        storeConnection, handleDeviceListRequest, handleCloseFromAgent,
        handleCloseFromBrowser;
      repeat first
        [ apply preserves_socketSend | apply preserves_socketClose
        | apply preserves_broadcast
        | apply (preserves_sessionRequest SSH_laws)
        | apply (preserves_sessionRequest RDP_laws)
        | apply (preserves_sessionResponse SSH_laws)
        | apply (preserves_sessionResponse RDP_laws)
        | apply preserves_dataFromBrowser
        | apply preserves_dataFromAgent
        | apply (preserves_handleClose SSH_laws)
        | apply (preserves_handleClose RDP_laws)
        | apply preserves_resize
        | pres_step ].
  - pres.
  - unfold onAgentClose, onBrowserClose;
      repeat first
        [ apply preserves_broadcast
        | apply (preserves_closeForBrowser SSH_laws)
        | apply (preserves_closeForBrowser RDP_laws)
        | apply (preserves_closeForAgent SSH_laws)
        | apply (preserves_closeForAgent RDP_laws)
        | pres_step ].
  - unfold cleanupStaleConnections. pres.
Qed.

Lemma run_Inv events : forall st, Inv st -> Inv (fst (run events st)).
Proof.
  induction events as [|[now e] events IH]; intros st H; [exact H|].
  cbn [run]. pose proof (preserves_step now e) as H1.
  specialize (H1 st H).
  unfold stateOf in H1. destruct (step now e st) as [[u st1] t1]. cbn in H1.
  specialize (IH st1 H1). now destruct (run events st1).
Qed.

Lemma reachable_Inv st : reachable st -> Inv st.
Proof. intros [events <-]. apply run_Inv, Inv_initial. Qed.

(** In the running process too, whatever the events, the three indexes
    of each kind agree. *)
Lemma indexes_agree_when_reachable st :
  reachable st -> indexesAgree (sshIndexes st) /\ indexesAgree (rdpIndexes st).
Proof.
  intros H. apply reachable_Inv in H. destruct H as [_ Hs Hr _ _].
  split; now apply wellFormed_agree.
Qed.

Local Unset Implicit Arguments.

(** *** Computing with handlers *)

Lemma bind_gets (A B : Type) (f : State -> A) (k : A -> M B) st :
  bind (gets f) k st = k (f st) st.
Proof. unfold bind, gets. now destruct (k (f st) st) as [[b st2] t2]. Qed.

Lemma bind_modify (B : Type) (f : State -> State) (k : unit -> M B) st :
  bind (modify f) k st = k tt (f st).
Proof. unfold bind, modify. now destruct (k tt (f st)) as [[b st2] t2]. Qed.

Lemma bind_emit (B : Type) e (k : unit -> M B) st :
  bind (emit e) k st
  = (fst (fst (k tt st)), stateOf (k tt st), e :: traceOf (k tt st)).
Proof. unfold bind, emit. now destruct (k tt st) as [[b st2] t2]. Qed.

Lemma isOpen_withIndexes (S : Type) (K : SessionKind S) (laws : KindLaws K)
      i st s :
  isOpen (withIndexes K i st) s = isOpen st s.
Proof. unfold isOpen. now rewrite (law_sockets laws). Qed.

(** The handler that a ['message'] event runs. *)
Lemma step_message st s c now data :
  connection (sockets st) s = Some c -> readyState c <> CLOSED ->
  step now (Message s data) st =
  match connectionType c with
  | agent => onAgentMessage s (connectedAt c) now data st
  | browser => onBrowserMessage s (browserId c) now data st
  end.
Proof.
  intros Hc Hr. cbn [step]. rewrite bind_gets, Hc.
  destruct (readyState c); try congruence; now destruct (connectionType c).
Qed.

(** The handler that a ['close'] event runs. *)
Lemma step_closed st s c now :
  connection (sockets st) s = Some c -> readyState c <> CLOSED ->
  step now (Closed s) st =
  match connectionType c with
  | agent => onAgentClose now (registeredDeviceId c) (markClosed s st)
  | browser => onBrowserClose now (browserId c) (markClosed s st)
  end.
Proof.
  intros Hc Hr. cbn [step]. rewrite bind_gets, Hc.
  destruct (readyState c); try congruence; rewrite bind_modify;
    now destruct (connectionType c).
Qed.

Lemma withAgentConnections_same st :
  withAgentConnections (agentConnections st) st = st.
Proof. now destruct st. Qed.

(** *** Heartbeats *)

(** C10.  On an agent connection, every heartbeat whose payload passes
    [validateAgentHeartbeatPayload] (an object with a non-empty string
    [deviceId]) is answered on the sending socket with the message of
    type [agent:heartbeat:ack] whose payload is [success: true] and the
    time, and nothing else is sent; the registry changes only in the
    [lastHeartbeat] of that device, and not at all when the device id is
    unknown.  A heartbeat whose payload fails validation gets no reply
    and changes nothing. *)
Theorem heartbeat_acknowledged st s c now data message :
  connection (sockets st) s = Some c -> readyState c <> CLOSED ->
  connectionType c = agent ->
  parseMessage data = valid message -> type message = "agent:heartbeat" ->
  (forall deviceId,
      validateAgentHeartbeatPayload (payload message) = valid deviceId ->
      step now (Message s data) st
      = (tt, withAgentConnections (touch now deviceId (agentConnections st)) st,
         [Send s (JObject [("type", JString "agent:heartbeat:ack");
                           ("timestamp", JNumber (Finite now));
                           ("payload",
                            JObject [("success", JBool true);
                                     ("timestamp", JNumber (Finite now))])])])
      /\ (JsMap.get (agentConnections st) deviceId = None ->
          stateOf (step now (Message s data) st) = st))
  /\ (forall error,
        validateAgentHeartbeatPayload (payload message) = invalid error ->
        step now (Message s data) st = (tt, st, []))
  /\ (forall fields deviceId,
        payload message = Some (JObject fields) ->
        lookup fields "deviceId" = Some (JString deviceId) -> deviceId <> "" ->
        validateAgentHeartbeatPayload (payload message) = valid deviceId).
Proof.
  intros Hc Hr Ha Hp Hty.
  assert (E : step now (Message s data) st
              = handleAgentHeartbeat s (payload message) now st).
  { rewrite (step_message st s c now data Hc Hr), Ha. unfold onAgentMessage.
    rewrite Hp, Hty. reflexivity. }
  rewrite E. unfold handleAgentHeartbeat. split; [|split].
  - intros deviceId Hv. rewrite Hv. split.
    + now rewrite bind_modify.
    + intros Hn. rewrite bind_modify. unfold touch. rewrite Hn.
      cbn. apply withAgentConnections_same.
  - intros error Hv. now rewrite Hv.
  - intros fields deviceId Hf Hl Hne. rewrite Hf. cbn. rewrite Hl. cbn.
    apply String.eqb_neq in Hne. now rewrite Hne.
Qed.

Lemma reachable_run events : reachable (fst (run events initial)).
Proof. now exists events. Qed.

(** An agent that heartbeats for itself, and one for a device nobody
    registered: both are acknowledged. *)
Lemma heartbeat_acknowledged_witness :
  step 7 (Message 1%nat (frame "agent:heartbeat" [("deviceId", JString "pi-1")]))
    afterSessionOpened
  = (tt,
     withAgentConnections
       (touch 7 "pi-1" (agentConnections afterSessionOpened)) afterSessionOpened,
     [Send 1%nat
        (wire "agent:heartbeat:ack" 7
           [("success", JBool true); ("timestamp", JNumber (Finite 7))])])
  /\ step 7 (Message 1%nat (frame "agent:heartbeat" [("deviceId", JString "nobody")]))
       afterSessionOpened
     = (tt, afterSessionOpened,
        [Send 1%nat
           (wire "agent:heartbeat:ack" 7
              [("success", JBool true); ("timestamp", JNumber (Finite 7))])])
  /\ step 7 (Message 1%nat (frame "agent:heartbeat" [("deviceId", JNumber (Finite 3))]))
       afterSessionOpened
     = (tt, afterSessionOpened, []).
Proof.
  pose (c := {| readyState := OPEN; connectionType := agent; connectedAt := 0;
                registeredDeviceId := Some "pi-1"; browserId := "" |}).
  assert (Hc : connection (sockets afterSessionOpened) 1%nat = Some c)
    by reflexivity.
  assert (Hr : readyState c <> CLOSED) by discriminate.
  split; [|split].
  - destruct (heartbeat_acknowledged afterSessionOpened 1%nat c 7
                (frame "agent:heartbeat" [("deviceId", JString "pi-1")])
                {| type := "agent:heartbeat"; timestamp := 1;
                   payload := Some (JObject [("deviceId", JString "pi-1")]) |}
                Hc Hr eq_refl eq_refl eq_refl) as (H & _ & _).
    exact (proj1 (H "pi-1" eq_refl)).
  - destruct (heartbeat_acknowledged afterSessionOpened 1%nat c 7
                (frame "agent:heartbeat" [("deviceId", JString "nobody")])
                {| type := "agent:heartbeat"; timestamp := 1;
                   payload := Some (JObject [("deviceId", JString "nobody")]) |}
                Hc Hr eq_refl eq_refl eq_refl) as (H & _ & _).
    exact (proj1 (H "nobody" eq_refl)).
  - destruct (heartbeat_acknowledged afterSessionOpened 1%nat c 7
                (frame "agent:heartbeat" [("deviceId", JNumber (Finite 3))])
                {| type := "agent:heartbeat"; timestamp := 1;
                   payload := Some (JObject [("deviceId", JNumber (Finite 3))]) |}
                Hc Hr eq_refl eq_refl eq_refl) as (_ & H & _).
    exact (H "deviceId must be a non-empty string" eq_refl).
Defined.

(** *** Invalid input *)

Lemma errorOf_Some (A : Type) (v : Validation A) error :
  errorOf v = Some error -> v = invalid error.
Proof. destruct v; cbn; congruence. Qed.

(** Case analysis on the message type along a dispatch table. *)
Ltac by_type ty :=
  repeat match goal with
    | H : context [String.eqb ty ?lit] |- _ =>
        destruct (String.eqb_spec ty lit);
        [ subst ty | ]
    end.

(** What [parseMessage] rejects and what it accepts, by the shape of the
    parsed value. *)
Lemma parse_rejects obj :
  match obj with JObject _ | JArray _ => False | _ => True end
  \/ match prop obj "type" with Some (JString ty) => ty = "" | _ => True end
  \/ match prop obj "timestamp" with
     | Some (JNumber (Finite _)) => False
     | _ => True
     end ->
  parseMessage (Parsed obj)
  = invalid "Invalid message structure: must have type (string) and timestamp (number)".
Proof.
  intros H. unfold parseMessage, isValidMessageStructure.
  destruct H as [H|[H|H]].
  - destruct obj; try reflexivity; destruct H.
  - destruct (isObject (Some obj)); [cbn [negb]|reflexivity].
    unfold nonEmptyString.
    destruct (prop obj "type") as [[| | |ty| |]|]; try reflexivity.
    now rewrite H.
  - destruct (isObject (Some obj)); [cbn [negb]|reflexivity].
    destruct (nonEmptyString (prop obj "type")); [|reflexivity].
    unfold finiteNumber.
    destruct (prop obj "timestamp") as [[| |[z|]| | |]|];
      try reflexivity; destruct H.
Qed.

Lemma parse_accepts obj ty ts :
  prop obj "type" = Some (JString ty) -> ty <> "" ->
  prop obj "timestamp" = Some (JNumber (Finite ts)) ->
  parseMessage (Parsed obj)
  = valid {| type := ty; timestamp := ts; payload := prop obj "payload" |}.
Proof.
  intros Hty Hne Hts. unfold parseMessage, isValidMessageStructure.
  assert (Ho : isObject (Some obj) = true).
  { destruct obj; try reflexivity; discriminate Hty. }
  rewrite Ho, Hty, Hts. cbn [negb nonEmptyString finiteNumber].
  apply String.eqb_neq in Hne. now rewrite Hne.
Qed.

(** C7, as the code has it.  A frame that is not JSON, and a frame whose
    value is no object or has no non-empty string [type] or no finite
    number [timestamp], is answered on the socket it came from with the
    typed error of code [INVALID_MESSAGE] and the parser's text, and
    changes nothing.  A frame with type and time stamp, of a type whose
    payload its validator rejects, changes nothing either and nothing is
    relayed: the only socket call is the reply to the origin, which
    exists for [agent:register] (an [agent:register:ack] with [success]
    false and the error) and for the two session requests (a typed
    error, if the browser's transport is open) and for no other type.
    Every validator rejects a payload that is no object. *)
Theorem invalid_input_dropped st s c now data :
  connection (sockets st) s = Some c -> readyState c <> CLOSED ->
  (forall text,
      data = SyntaxError text ->
      step now (Message s data) st
      = (tt, st,
         [Send s (typedError now "INVALID_MESSAGE"
                    ("Failed to parse JSON: " ++ text))]))
  /\ (forall obj,
        data = Parsed obj ->
        match obj with JObject _ | JArray _ => False | _ => True end
        \/ match prop obj "type" with
           | Some (JString ty) => ty = ""
           | _ => True
           end
        \/ match prop obj "timestamp" with
           | Some (JNumber (Finite _)) => False
           | _ => True
           end ->
        step now (Message s data) st
        = (tt, st,
           [Send s (typedError now "INVALID_MESSAGE"
                      "Invalid message structure: must have type (string) and timestamp (number)")]))
  /\ (forall obj ty ts error,
        data = Parsed obj ->
        prop obj "type" = Some (JString ty) -> ty <> "" ->
        prop obj "timestamp" = Some (JNumber (Finite ts)) ->
        payloadError (connectionType c) ty (prop obj "payload") = Some error ->
        step now (Message s data) st
        = (tt, st, replyToInvalidPayload (connectionType c) s now ty error st))
  /\ (forall role ty payload,
        In ty (validatedTypes role) ->
        match payload with
        | Some (JObject _) | Some (JArray _) => False
        | _ => True
        end ->
        payloadError role ty payload = Some "Payload must be an object").
Proof.
  intros Hc Hr. rewrite (step_message st s c now data Hc Hr).
  split; [|split; [|split]].
  - intros text ->.
    destruct (connectionType c); unfold onAgentMessage, onBrowserMessage;
      reflexivity.
  - intros obj -> H.
    destruct (connectionType c); unfold onAgentMessage, onBrowserMessage;
      rewrite (parse_rejects obj H); reflexivity.
  - intros obj ty ts error -> Hty Hne Hts He.
    unfold onAgentMessage, onBrowserMessage.
    rewrite (parse_accepts obj ty ts Hty Hne Hts).
    generalize dependent (prop obj "payload"). intros pl He.
    unfold replyToInvalidPayload.
    destruct (connectionType c); cbn [type payload];
      unfold payloadError in He; by_type ty; try discriminate He;
      apply errorOf_Some in He; cbn;
      unfold handleAgentRegister, handleAgentHeartbeat,
        handleSessionResponseFromAgent, handleDataFromAgent,
        handleCloseFromAgent, handleCloseFromBrowser, handleClose,
        handleSessionRequestFromBrowser, handleDataFromBrowser,
        handleSshResizeFromBrowser,
        validateRdpSessionRequestPayload, validateRdpSessionResponsePayload,
        validateRdpDataPayload, validateRdpClosePayload in *;
      rewrite He; try reflexivity; rewrite sendIfOpen_run;
      destruct (isOpen st s); reflexivity.
  - intros role ty payload Hin Hp.
    destruct role; cbn [validatedTypes In] in Hin;
      repeat (destruct Hin as [<-|Hin]; [|]); try destruct Hin;
      destruct payload as [[]|]; try destruct Hp; reflexivity.
Qed.

(** A frame that is not JSON, frames without a time stamp, with an empty
    type, with a time stamp that is not finite and with the value [null]
    are answered with [INVALID_MESSAGE]; a registration without
    [deviceName] with a negative acknowledgment; a session request
    without [deviceId] with a typed error; a data message without [data]
    with nothing. *)
Lemma invalid_input_dropped_witness :
  let structure :=
    "Invalid message structure: must have type (string) and timestamp (number)" in
  step 7 (Message 2%nat (SyntaxError "Unexpected token")) afterSessionOpened
  = (tt, afterSessionOpened,
     [Send 2%nat (typedError 7 "INVALID_MESSAGE"
                    "Failed to parse JSON: Unexpected token")])
  /\ step 7 (Message 2%nat (Parsed (JObject [("type", JString "ssh:data")])))
       afterSessionOpened
     = (tt, afterSessionOpened,
        [Send 2%nat (typedError 7 "INVALID_MESSAGE" structure)])
  /\ step 7 (Message 1%nat
               (Parsed (JObject [("type", JString "");
                                 ("timestamp", JNumber (Finite 1))])))
       afterSessionOpened
     = (tt, afterSessionOpened,
        [Send 1%nat (typedError 7 "INVALID_MESSAGE" structure)])
  /\ step 7 (Message 1%nat
               (Parsed (JObject [("type", JString "agent:heartbeat");
                                 ("timestamp", JNumber NonFinite)])))
       afterSessionOpened
     = (tt, afterSessionOpened,
        [Send 1%nat (typedError 7 "INVALID_MESSAGE" structure)])
  /\ step 7 (Message 1%nat (Parsed JNull)) afterSessionOpened
     = (tt, afterSessionOpened,
        [Send 1%nat (typedError 7 "INVALID_MESSAGE" structure)])
  /\ step 7 (Message 1%nat (frame "agent:register" [("deviceId", JString "pi-9")]))
       afterSessionOpened
     = (tt, afterSessionOpened,
        [Send 1%nat
           (wire "agent:register:ack" 7
              [("success", JBool false); ("deviceId", JString "");
               ("error", JString "deviceName must be a non-empty string")])])
  /\ step 7 (Message 2%nat
               (frame "rdp:session:request" [("sessionId", JString "s9")]))
       afterSessionOpened
     = (tt, afterSessionOpened,
        [Send 2%nat (typedError 7 "INVALID_RDP_SESSION_REQUEST"
                       "deviceId must be a non-empty string")])
  /\ step 7 (Message 2%nat (frame "ssh:data" [("sessionId", JString "s1")]))
       afterSessionOpened
     = (tt, afterSessionOpened, []).
Proof.
  pose (c1 := {| readyState := OPEN; connectionType := agent; connectedAt := 0;
                 registeredDeviceId := Some "pi-1"; browserId := "" |}).
  pose (c2 := {| readyState := OPEN; connectionType := browser; connectedAt := 2;
                 registeredDeviceId := None; browserId := "b1" |}).
  assert (H1 : connection (sockets afterSessionOpened) 1%nat = Some c1)
    by reflexivity.
  assert (H2 : connection (sockets afterSessionOpened) 2%nat = Some c2)
    by reflexivity.
  assert (R1 : readyState c1 <> CLOSED) by discriminate.
  assert (R2 : readyState c2 <> CLOSED) by discriminate.
  pose proof (fun data =>
    invalid_input_dropped afterSessionOpened 1%nat c1 7 data H1 R1) as A.
  pose proof (fun data =>
    invalid_input_dropped afterSessionOpened 2%nat c2 7 data H2 R2) as B.
  intros structure.
  split; [|split; [|split; [|split; [|split; [|split; [|split]]]]]].
  - exact (proj1 (B (SyntaxError "Unexpected token")) "Unexpected token" eq_refl).
  - refine (proj1 (proj2 (B (Parsed (JObject [("type", JString "ssh:data")]))))
              (JObject [("type", JString "ssh:data")]) eq_refl _).
    right; right. exact I.
  - refine (proj1 (proj2 (A (Parsed (JObject [("type", JString "");
                                              ("timestamp", JNumber (Finite 1))]))))
              (JObject [("type", JString "");
                        ("timestamp", JNumber (Finite 1))]) eq_refl _).
    right; left. reflexivity.
  - refine (proj1 (proj2 (A (Parsed (JObject [("type", JString "agent:heartbeat");
                                              ("timestamp", JNumber NonFinite)]))))
              (JObject [("type", JString "agent:heartbeat");
                        ("timestamp", JNumber NonFinite)]) eq_refl _).
    right; right. exact I.
  - refine (proj1 (proj2 (A (Parsed JNull))) JNull eq_refl _). left. exact I.
  - refine (proj1 (proj2 (proj2
              (A (frame "agent:register" [("deviceId", JString "pi-9")]))))
              (JObject [("type", JString "agent:register");
                        ("timestamp", JNumber (Finite 1));
                        ("payload", JObject [("deviceId", JString "pi-9")])])
              "agent:register" 1%Z
              "deviceName must be a non-empty string" eq_refl eq_refl _
              eq_refl eq_refl).
    discriminate.
  - refine (proj1 (proj2 (proj2
              (B (frame "rdp:session:request" [("sessionId", JString "s9")]))))
              (JObject [("type", JString "rdp:session:request");
                        ("timestamp", JNumber (Finite 1));
                        ("payload", JObject [("sessionId", JString "s9")])])
              "rdp:session:request" 1%Z
              "deviceId must be a non-empty string" eq_refl eq_refl _
              eq_refl eq_refl).
    discriminate.
  - refine (proj1 (proj2 (proj2
              (B (frame "ssh:data" [("sessionId", JString "s1")]))))
              (JObject [("type", JString "ssh:data");
                        ("timestamp", JNumber (Finite 1));
                        ("payload", JObject [("sessionId", JString "s1")])])
              "ssh:data" 1%Z
              "data must be a string" eq_refl eq_refl _ eq_refl eq_refl).
    discriminate.
Defined.

(** C7 as stated fails: a heartbeat whose payload has no [deviceId], and a
    terminal data message whose [data] is a number, are rejected by their
    validators, and nothing at all is sent back. *)
Lemma invalid_payload_gets_no_error :
  validateAgentHeartbeatPayload (Some (JObject []))
  = invalid "deviceId must be a non-empty string"
  /\ step 7 (Message 1%nat (frame "agent:heartbeat" [])) afterSessionOpened
     = (tt, afterSessionOpened, [])
  /\ validateSshDataPayload
       (Some (JObject [("sessionId", JString "s1"); ("data", JNumber (Finite 0))]))
     = invalid "data must be a string"
  /\ step 7 (Message 2%nat
               (frame "ssh:data" [("sessionId", JString "s1");
                                  ("data", JNumber (Finite 0))]))
       afterSessionOpened
     = (tt, afterSessionOpened, []).
Proof. repeat split. Defined.

(** *** Closing a session *)

Section ProxyRuns.
Variable S : Type.
Variable K : SessionKind S.
Hypothesis laws : KindLaws K.

Lemma found_keyed st sessionId session :
  Inv st -> getIn sessionId (indexes K st) = Some session ->
  sid K session = sessionId.
Proof.
  intros H G. destruct (law_inv_get laws H) as [_ Hk].
  apply Hk. now apply get_In.
Qed.

Lemma handleClose_run st now payload source data session :
  Inv st ->
  validateSshClosePayload payload = valid data ->
  getIn (close_sessionId data) (indexes K st) = Some session ->
  let reason := match close_reason data with
                | Some r => r
                | None => "Session closed"
                end in
  let target := match source with
                | browser => sagentSocket K session
                | agent => sbrowserSocket K session
                end in
  handleClose K now payload source st
  = (tt,
     withIndexes K
       (closeIn (close_sessionId data) (Some reason) (indexes K st)) st,
     if isOpen st target
     then [Send target (closeMessage K now (close_sessionId data) reason)]
     else [])
  /\ getIn (close_sessionId data)
       (indexes K (stateOf (handleClose K now payload source st))) = None.
Proof.
  intros H Hv G reason target.
  assert (E : handleClose K now payload source st
              = (tt,
                 withIndexes K
                   (closeIn (close_sessionId data) (Some reason)
                      (indexes K st)) st,
                 if isOpen st target
                 then [Send target
                         (closeMessage K now (close_sessionId data) reason)]
                 else [])).
  { unfold handleClose. rewrite Hv, bind_gets, G.
    rewrite (found_keyed st _ _ H G).
    unfold close, onIndexes. rewrite bind_modify, sendIfOpen_run.
    fold reason. fold target. now rewrite (isOpen_withIndexes S K laws). }
  split; [exact E|]. rewrite E. unfold stateOf. cbn [fst snd].
  rewrite (law_get_set laws). apply closeIn_closed.
  apply (law_inv_get laws H).
Qed.
End ProxyRuns.

(** C8, as the code has it.  For a session that exists, a close message
    from either side closes it in the session manager; a close
    notification with the given reason, or [Session closed] when none is
    given, goes to the endpoint of the other side and to no one else, and
    it is sent if that endpoint's transport is open and skipped
    otherwise. *)
Theorem close_forwarded_if_open st s c now data message closeData :
  reachable st ->
  connection (sockets st) s = Some c -> readyState c <> CLOSED ->
  parseMessage data = valid message ->
  validateSshClosePayload (payload message) = valid closeData ->
  let sessionId := close_sessionId closeData in
  let reason := match close_reason closeData with
                | Some r => r
                | None => "Session closed"
                end in
  (type message = "ssh:close" ->
   forall session, getSession sessionId (sshIndexes st) = Some session ->
     let target := match connectionType c with
                   | browser => SSHSession.agentSocket session
                   | agent => SSHSession.browserSocket session
                   end in
     traceOf (step now (Message s data) st)
     = (if isOpen st target
        then [Send target (closeMessage SSH now sessionId reason)] else [])
     /\ getSession sessionId (sshIndexes (stateOf (step now (Message s data) st)))
        = None)
  /\ (type message = "rdp:close" ->
      forall session, getRDPSession sessionId (rdpIndexes st) = Some session ->
        let target := match connectionType c with
                      | browser => RDPSession.agentSocket session
                      | agent => RDPSession.browserSocket session
                      end in
        traceOf (step now (Message s data) st)
        = (if isOpen st target
           then [Send target (closeMessage RDP now sessionId reason)] else [])
        /\ getRDPSession sessionId
             (rdpIndexes (stateOf (step now (Message s data) st))) = None).
Proof.
  intros Hreach Hc Hr Hp Hv sessionId reason.
  apply reachable_Inv in Hreach.
  rewrite (step_message st s c now data Hc Hr).
  split; intros Hty session G.
  - destruct (handleClose_run _ SSH SSH_laws st now (payload message)
                (connectionType c) closeData session Hreach Hv G) as [E Hclosed].
    assert (Es : match connectionType c with
                 | agent => onAgentMessage s (connectedAt c) now data st
                 | browser => onBrowserMessage s (browserId c) now data st
                 end = handleClose SSH now (payload message) (connectionType c) st).
    { destruct (connectionType c);
        unfold onAgentMessage, onBrowserMessage; rewrite Hp, Hty; reflexivity. }
    rewrite Es. split; [now rewrite E | exact Hclosed].
  - destruct (handleClose_run _ RDP RDP_laws st now (payload message)
                (connectionType c) closeData session Hreach Hv G) as [E Hclosed].
    assert (Es : match connectionType c with
                 | agent => onAgentMessage s (connectedAt c) now data st
                 | browser => onBrowserMessage s (browserId c) now data st
                 end = handleClose RDP now (payload message) (connectionType c) st).
    { destruct (connectionType c);
        unfold onAgentMessage, onBrowserMessage; rewrite Hp, Hty; reflexivity. }
    rewrite Es. split; [now rewrite E | exact Hclosed].
Qed.

(** Browser 2 closes [s1] without a reason while agent 1 is open: the
    agent gets the notification with the default reason. *)
Lemma close_forwarded_if_open_witness :
  traceOf (step 7 (Message 2%nat (frame "ssh:close" [("sessionId", JString "s1")]))
             afterSessionOpened)
  = [Send 1%nat (closeMessage SSH 7 "s1" "Session closed")]
  /\ getSession "s1"
       (sshIndexes
          (stateOf (step 7 (Message 2%nat
                              (frame "ssh:close" [("sessionId", JString "s1")]))
                      afterSessionOpened))) = None.
Proof.
  pose (c2 := {| readyState := OPEN; connectionType := browser; connectedAt := 2;
                 registeredDeviceId := None; browserId := "b1" |}).
  assert (H2 : connection (sockets afterSessionOpened) 2%nat = Some c2)
    by reflexivity.
  assert (R2 : readyState c2 <> CLOSED) by discriminate.
  pose (session := newSSHSession 3 "pi-1" "s1" 2 1).
  assert (G : getSession "s1" (sshIndexes afterSessionOpened) = Some session)
    by reflexivity.
  exact (proj1 (close_forwarded_if_open afterSessionOpened 2%nat c2 7
                  (frame "ssh:close" [("sessionId", JString "s1")])
                  {| type := "ssh:close"; timestamp := 1;
                     payload := Some (JObject [("sessionId", JString "s1")]) |}
                  {| close_sessionId := "s1"; close_reason := None |}
                  (reachable_run sessionOpened) H2 R2 eq_refl eq_refl)
           eq_refl session G).
Defined.

(** C8 as stated fails when the other side's transport is not open.
    After agent 3 replaced agent 1 for [pi-1], the session [s1] still
    exists with agent endpoint 1, which is closing; the browser's close
    message closes the session and no notification is forwarded. *)
Lemma close_not_forwarded_to_closing_agent :
  reachable afterAgentReplaced
  /\ getSession "s1" (sshIndexes afterAgentReplaced)
     = Some (newSSHSession 3 "pi-1" "s1" 2 1)
  /\ isOpen afterAgentReplaced 1%nat = false
  /\ traceOf (step 7 (Message 2%nat
                        (frame "ssh:close" [("sessionId", JString "s1");
                                            ("reason", JString "bye")]))
                afterAgentReplaced) = []
  /\ getSession "s1"
       (sshIndexes
          (stateOf (step 7 (Message 2%nat
                              (frame "ssh:close" [("sessionId", JString "s1");
                                                  ("reason", JString "bye")]))
                      afterAgentReplaced))) = None.
Proof.
  split; [apply (reachable_run agentReplaced)|]. repeat split.
Defined.

(** *** Cascading cleanup *)

Section ProxyCascade.
Variable S : Type.
Variable K : SessionKind S.
Hypothesis laws : KindLaws K.

Lemma notifications_ext now reason st st' target found :
  (forall s, isOpen st' s = isOpen st s) ->
  notifications K now reason st' target found
  = notifications K now reason st target found.
Proof.
  intros H. unfold notifications.
  induction found as [|x xs IH]; cbn; [reflexivity|]. now rewrite H, IH.
Qed.

Lemma cascade_run target reason now found : forall st,
  forEach found
    (fun session =>
       close K (sid K session) (Some reason) ;;
       sendIfOpen (target session) (closeMessage K now (sid K session) reason))
    st
  = (tt, closeAll K reason found st,
     notifications K now reason st target found).
Proof.
  induction found as [|x xs IH]; intros st; [reflexivity|].
  cbn [forEach closeAll fold_left notifications flat_map].
  set (st1 := withIndexes K
                (closeIn (sid K x) (Some reason) (indexes K st)) st).
  assert (B : (close K (sid K x) (Some reason) ;;
               sendIfOpen (target x) (closeMessage K now (sid K x) reason)) st
              = (tt, st1,
                 if isOpen st (target x)
                 then [Send (target x) (closeMessage K now (sid K x) reason)]
                 else [])).
  { unfold close, onIndexes. rewrite bind_modify, sendIfOpen_run.
    fold st1. unfold st1. now rewrite (isOpen_withIndexes S K laws). }
  rewrite (@run_bind _ _ _ _ st tt st1 _ B), IH. cbn [fst snd stateOf traceOf].
  f_equal. f_equal. apply notifications_ext. intros s.
  apply (isOpen_withIndexes S K laws).
Qed.

Lemma closeAll_Inv reason found : forall st,
  Inv st -> Inv (closeAll K reason found st).
Proof.
  induction found as [|x xs IH]; intros st H; [exact H|].
  cbn [closeAll fold_left]. apply IH.
  destruct (law_inv_get laws H) as [W Hk].
  apply (law_inv_set laws); [assumption | |].
  - now apply closeIn_wellFormed.
  - now apply closeIn_keyed.
Qed.

Lemma closeAll_stays reason id found : forall st,
  getIn id (indexes K st) = None ->
  getIn id (indexes K (closeAll K reason found st)) = None.
Proof.
  induction found as [|x xs IH]; intros st H; [exact H|].
  cbn [closeAll fold_left]. apply IH. rewrite (law_get_set laws).
  now apply closeIn_stays_closed.
Qed.

Lemma closeAll_closed reason session found : forall st,
  Inv st -> In session found ->
  getIn (sid K session) (indexes K (closeAll K reason found st)) = None.
Proof.
  induction found as [|x xs IH]; intros st H Hin; [destruct Hin|].
  cbn [closeAll fold_left].
  destruct (law_inv_get laws H) as [W Hk].
  assert (H1 : Inv (withIndexes K
                      (closeIn (sid K x) (Some reason) (indexes K st)) st)).
  { apply (law_inv_set laws); [assumption | |].
    - now apply closeIn_wellFormed.
    - now apply closeIn_keyed. }
  destruct Hin as [->|Hin].
  - apply closeAll_stays. rewrite (law_get_set laws).
    now apply closeIn_closed.
  - now apply IH.
Qed.

Lemma closeAll_sockets reason found : forall st,
  sockets (closeAll K reason found st) = sockets st.
Proof.
  induction found as [|x xs IH]; intros st; [reflexivity|].
  cbn [closeAll fold_left].
  etransitivity; [apply IH | apply (law_sockets laws)].
Qed.

(** An id found in a bucket belongs to a record that the lookup by
    that bucket's key returns. *)
Lemma bucket_collected (index : Indexes S -> JsMap.t JsSet.t) st key id :
  Inv st ->
  NoDup (JsMap.keys (index (indexes K st))) ->
  (forall x, In x (members (index (indexes K st)))
             -> In x (JsMap.keys (sessions (indexes K st)))) ->
  inBucket (index (indexes K st)) key id ->
  exists ids session,
    JsMap.get (index (indexes K st)) key = Some ids /\
    In session (collect (indexes K st) ids) /\ sid K session = id.
Proof.
  intros H Hnd Hsub (ids & Hin & Hid).
  destruct (law_inv_get laws H) as [W Hk].
  assert (Hkey : In id (JsMap.keys (sessions (indexes K st)))).
  { apply Hsub, members_inBucket. exists key, ids. auto. }
  destruct (JsMap.get (sessions (indexes K st)) id) as [session|] eqn:G.
  2:{ apply get_None in G. contradiction. }
  exists ids, session. split; [now apply In_get|]. split.
  - unfold collect. apply in_flat_map. exists id. split; [assumption|].
    rewrite G. now left.
  - apply Hk. now apply get_In.
Qed.

Lemma browser_bucket_closed st reason browser id :
  Inv st ->
  inBucket (sessionsByBrowser (indexes K st)) browser id ->
  getIn id (indexes K (closeAll K reason
                         (getByBrowser browser (indexes K st)) st)) = None.
Proof.
  intros H Hb. destruct (law_inv_get laws H) as [W Hk].
  destruct (bucket_collected (@sessionsByBrowser S) st browser id H
              (wf_browserKeys W) (fun x => proj1 (wf_browserIds W x)) Hb)
    as (ids & session & G & Hin & <-).
  apply closeAll_closed; [assumption|].
  unfold getByBrowser. now rewrite G.
Qed.

Lemma device_bucket_closed st reason deviceId id :
  Inv st ->
  inBucket (sessionsByDevice (indexes K st)) deviceId id ->
  getIn id (indexes K (closeAll K reason
                         (getByDevice deviceId (indexes K st)) st)) = None.
Proof.
  intros H Hb. destruct (law_inv_get laws H) as [W Hk].
  destruct (bucket_collected (@sessionsByDevice S) st deviceId id H
              (wf_deviceKeys W) (fun x => proj1 (wf_deviceIds W x)) Hb)
    as (ids & session & G & Hin & <-).
  apply closeAll_closed; [assumption|].
  unfold getByDevice. now rewrite G.
Qed.

Lemma closeSessionsForBrowser_run now browser st :
  closeSessionsForBrowser K now browser st
  = (tt,
     closeAll K "Browser disconnected"
       (getByBrowser browser (indexes K st)) st,
     notifications K now "Browser disconnected" st (sagentSocket K)
       (getByBrowser browser (indexes K st))).
Proof.
  unfold closeSessionsForBrowser. rewrite bind_gets. apply cascade_run.
Qed.

Lemma closeSessionsForAgent_run now deviceId st :
  closeSessionsForAgent K now deviceId st
  = (tt,
     closeAll K "Agent disconnected"
       (getByDevice deviceId (indexes K st)) st,
     notifications K now "Agent disconnected" st (sbrowserSocket K)
       (getByDevice deviceId (indexes K st))).
Proof.
  unfold closeSessionsForAgent. rewrite bind_gets. apply cascade_run.
Qed.
End ProxyCascade.

Lemma closeAll_SSH_rdp reason found : forall st,
  rdpIndexes (closeAll SSH reason found st) = rdpIndexes st.
Proof.
  induction found as [|x xs IH]; intros st; [reflexivity|].
  cbn [closeAll fold_left]. etransitivity; [apply IH | reflexivity].
Qed.

Lemma closeAll_RDP_ssh reason found : forall st,
  sshIndexes (closeAll RDP reason found st) = sshIndexes st.
Proof.
  induction found as [|x xs IH]; intros st; [reflexivity|].
  cbn [closeAll fold_left]. etransitivity; [apply IH | reflexivity].
Qed.

Lemma isOpen_sockets st st' s :
  sockets st' = sockets st -> isOpen st' s = isOpen st s.
Proof. unfold isOpen. now intros ->. Qed.

Lemma broadcast_state message st :
  stateOf (broadcastToBrowsers message st) = st.
Proof.
  unfold broadcastToBrowsers. rewrite bind_gets.
  induction (JsMap.values (browserConnections st)) as [|b bs IH];
    [reflexivity|].
  cbn [forEach].
  rewrite (@run_bind _ _ _ _ st tt st _ (sendIfOpen_run _ _ st)).
  exact IH.
Qed.

Lemma onBrowserClose_run now browser st :
  let st1 := closeAll SSH "Browser disconnected"
               (getSessionsByBrowser browser (sshIndexes st)) st in
  let st2 := closeAll RDP "Browser disconnected"
               (getRDPSessionsByBrowser browser (rdpIndexes st)) st1 in
  onBrowserClose now browser st
  = (tt,
     withBrowserConnections (JsMap.delete (browserConnections st2) browser) st2,
     notifications SSH now "Browser disconnected" st SSHSession.agentSocket
       (getSessionsByBrowser browser (sshIndexes st))
     ++ notifications RDP now "Browser disconnected" st RDPSession.agentSocket
          (getRDPSessionsByBrowser browser (rdpIndexes st))).
Proof.
  intros st1 st2. unfold onBrowserClose.
  rewrite (@run_bind _ _ _ _ st tt st1 _
             (closeSessionsForBrowser_run _ SSH SSH_laws now browser st)).
  assert (E2 : closeSessionsForBrowser RDP now browser st1
               = (tt, st2,
                  notifications RDP now "Browser disconnected" st
                    RDPSession.agentSocket
                    (getRDPSessionsByBrowser browser (rdpIndexes st)))).
  { rewrite (closeSessionsForBrowser_run _ RDP RDP_laws).
    assert (Eidx : indexes RDP st1 = rdpIndexes st)
      by apply closeAll_SSH_rdp.
    rewrite Eidx. unfold st2, getRDPSessionsByBrowser. f_equal.
    apply (notifications_ext _ RDP). intros s. apply isOpen_sockets.
    apply (closeAll_sockets _ SSH SSH_laws). }
  rewrite (@run_bind _ _ _ _ st1 tt st2 _ E2).
  cbn [fst snd stateOf traceOf modify]. now rewrite app_nil_r.
Qed.

Lemma onAgentClose_run now deviceId st :
  let st1 := closeAll SSH "Agent disconnected"
               (getSessionsByDevice deviceId (sshIndexes st)) st in
  let st2 := closeAll RDP "Agent disconnected"
               (getRDPSessionsByDevice deviceId (rdpIndexes st)) st1 in
  let st3 := withAgentConnections
               (JsMap.delete (agentConnections st2) deviceId) st2 in
  onAgentClose now (Some deviceId) st
  = (tt, st3,
     notifications SSH now "Agent disconnected" st SSHSession.browserSocket
       (getSessionsByDevice deviceId (sshIndexes st))
     ++ notifications RDP now "Agent disconnected" st RDPSession.browserSocket
          (getRDPSessionsByDevice deviceId (rdpIndexes st))
     ++ traceOf (broadcastToBrowsers
                   (deviceListMessage now (getDeviceList st3)) st3)).
Proof.
  intros st1 st2 st3. unfold onAgentClose.
  rewrite (@run_bind _ _ _ _ st tt st1 _
             (closeSessionsForAgent_run _ SSH SSH_laws now deviceId st)).
  assert (E2 : closeSessionsForAgent RDP now deviceId st1
               = (tt, st2,
                  notifications RDP now "Agent disconnected" st
                    RDPSession.browserSocket
                    (getRDPSessionsByDevice deviceId (rdpIndexes st)))).
  { rewrite (closeSessionsForAgent_run _ RDP RDP_laws).
    assert (Eidx : indexes RDP st1 = rdpIndexes st)
      by apply closeAll_SSH_rdp.
    rewrite Eidx. unfold st2, getRDPSessionsByDevice. f_equal.
    apply (notifications_ext _ RDP). intros s. apply isOpen_sockets.
    apply (closeAll_sockets _ SSH SSH_laws). }
  rewrite (@run_bind _ _ _ _ st1 tt st2 _ E2).
  rewrite bind_modify, bind_gets. fold st3.
  cbn [fst snd stateOf traceOf].
  rewrite (unit_result (broadcastToBrowsers _ st3)) at 1 2.
  cbn [fst snd]. fold (stateOf (broadcastToBrowsers
                                  (deviceListMessage now (getDeviceList st3)) st3)).
  now rewrite broadcast_state.
Qed.

Lemma Inv_markClosed s st : Inv st -> Inv (markClosed s st).
Proof. apply Inv_withSockets. Qed.

(** C6, as the code has it.  When the ['close'] event of a browser's
    transport is handled, every terminal and remote-desktop session indexed
    under that browser's id is closed in the session manager; for each of
    them, in order, a close notification with reason [Browser
    disconnected] goes to the session's agent endpoint if that endpoint's
    transport is open, and is skipped otherwise; nothing else is sent.
    For the ['close'] event of an agent's transport (also the one that
    follows a staleness eviction) the same holds for the sessions indexed
    under the device id the agent registered, with reason [Agent
    disconnected] and the sessions' browser endpoints, followed by the
    broadcast of the device list. *)
Theorem disconnect_cascades st s c now :
  reachable st ->
  connection (sockets st) s = Some c -> readyState c <> CLOSED ->
  let st0 := markClosed s st in
  let r := step now (Closed s) st in
  (connectionType c = browser ->
     traceOf r
     = notifications SSH now "Browser disconnected" st0 SSHSession.agentSocket
         (getSessionsByBrowser (browserId c) (sshIndexes st))
       ++ notifications RDP now "Browser disconnected" st0
            RDPSession.agentSocket
            (getRDPSessionsByBrowser (browserId c) (rdpIndexes st))
     /\ (forall id,
           inBucket (sessionsByBrowser (sshIndexes st)) (browserId c) id ->
           getSession id (sshIndexes (stateOf r)) = None)
     /\ (forall id,
           inBucket (sessionsByBrowser (rdpIndexes st)) (browserId c) id ->
           getRDPSession id (rdpIndexes (stateOf r)) = None))
  /\ (connectionType c = agent ->
      forall deviceId, registeredDeviceId c = Some deviceId ->
        traceOf r
        = notifications SSH now "Agent disconnected" st0
            SSHSession.browserSocket
            (getSessionsByDevice deviceId (sshIndexes st))
          ++ notifications RDP now "Agent disconnected" st0
               RDPSession.browserSocket
               (getRDPSessionsByDevice deviceId (rdpIndexes st))
          ++ traceOf (broadcastToBrowsers
                        (deviceListMessage now (getDeviceList (stateOf r)))
                        (stateOf r))
        /\ (forall id,
              inBucket (sessionsByDevice (sshIndexes st)) deviceId id ->
              getSession id (sshIndexes (stateOf r)) = None)
        /\ (forall id,
              inBucket (sessionsByDevice (rdpIndexes st)) deviceId id ->
              getRDPSession id (rdpIndexes (stateOf r)) = None)).
Proof.
  intros Hreach Hc Hr st0 r. apply reachable_Inv in Hreach.
  assert (H0 : Inv st0) by now apply Inv_markClosed.
  unfold r. rewrite (step_closed st s c now Hc Hr). fold st0.
  split.
  - intros Hb. rewrite Hb, onBrowserClose_run.
    cbn [stateOf traceOf fst snd]. split; [reflexivity|]. split.
    + intros id Hid. cbn [sshIndexes withBrowserConnections].
      rewrite closeAll_RDP_ssh.
      apply (browser_bucket_closed _ SSH SSH_laws st0); assumption.
    + intros id Hid. cbn [rdpIndexes withBrowserConnections].
      set (st1 := closeAll SSH _ _ st0).
      assert (H1 : Inv st1) by now apply (closeAll_Inv _ SSH SSH_laws).
      assert (E : rdpIndexes st1 = rdpIndexes st0)
        by apply closeAll_SSH_rdp.
      change (rdpIndexes st0) with (rdpIndexes st).
      change (rdpIndexes st) with (rdpIndexes st0). rewrite <- E.
      apply (browser_bucket_closed _ RDP RDP_laws st1); [assumption|].
      change (indexes RDP st1) with (rdpIndexes st1). now rewrite E.
  - intros Ha deviceId Hd. rewrite Ha, Hd, onAgentClose_run.
    cbn [stateOf traceOf fst snd]. split; [reflexivity|]. split.
    + intros id Hid. cbn [sshIndexes withAgentConnections].
      rewrite closeAll_RDP_ssh.
      apply (device_bucket_closed _ SSH SSH_laws st0); assumption.
    + intros id Hid. cbn [rdpIndexes withAgentConnections].
      set (st1 := closeAll SSH _ _ st0).
      assert (H1 : Inv st1) by now apply (closeAll_Inv _ SSH SSH_laws).
      assert (E : rdpIndexes st1 = rdpIndexes st0)
        by apply closeAll_SSH_rdp.
      change (rdpIndexes st0) with (rdpIndexes st).
      change (rdpIndexes st) with (rdpIndexes st0). rewrite <- E.
      apply (device_bucket_closed _ RDP RDP_laws st1); [assumption|].
      change (indexes RDP st1) with (rdpIndexes st1). now rewrite E.
Qed.

(** Browser 2 disconnects while agent 1 is open: [s1] is closed and the
    agent is notified. *)
Lemma disconnect_cascades_witness :
  traceOf (step 7 (Closed 2%nat) afterSessionOpened)
  = [Send 1%nat (closeMessage SSH 7 "s1" "Browser disconnected")]
  /\ getSession "s1" (sshIndexes (stateOf (step 7 (Closed 2%nat) afterSessionOpened)))
     = None.
Proof.
  pose (c2 := {| readyState := OPEN; connectionType := browser; connectedAt := 2;
                 registeredDeviceId := None; browserId := "b1" |}).
  assert (H2 : connection (sockets afterSessionOpened) 2%nat = Some c2)
    by reflexivity.
  assert (R2 : readyState c2 <> CLOSED) by discriminate.
  destruct (proj1 (disconnect_cascades afterSessionOpened 2%nat c2 7
                     (reachable_run sessionOpened) H2 R2) eq_refl)
    as (Htrace & Hssh & _).
  split.
  - exact Htrace.
  - apply Hssh. exists ["s1"]. split; now left.
Defined.

(** C6 as stated fails when an endpoint's transport is not open.  After
    agent 3 replaced agent 1 for [pi-1], the session [s1] of browser [b1]
    still has agent endpoint 1, which is closing; when the browser
    disconnects the session is closed and no notification is sent. *)
Lemma disconnect_not_notified_to_closing_agent :
  reachable afterAgentReplaced
  /\ getSessionsByBrowser "b1" (sshIndexes afterAgentReplaced)
     = [newSSHSession 3 "pi-1" "s1" 2 1]
  /\ isOpen afterAgentReplaced 1%nat = false
  /\ traceOf (step 7 (Closed 2%nat) afterAgentReplaced) = []
  /\ getSession "s1"
       (sshIndexes (stateOf (step 7 (Closed 2%nat) afterAgentReplaced))) = None.
Proof.
  split; [apply (reachable_run agentReplaced)|]. repeat split.
Defined.

(** *** Registration *)

Lemma storeConnection_state socket data connectedAt now st :
  agentConnections (stateOf (storeConnection socket data connectedAt now st))
  = JsMap.set (agentConnections st) (reg_deviceId data)
      {| AgentConnectionInfo.socket := socket;
         AgentConnectionInfo.deviceId := reg_deviceId data;
         AgentConnectionInfo.deviceName := reg_deviceName data;
         AgentConnectionInfo.ipAddress := reg_ipAddress data;
         AgentConnectionInfo.capabilities := reg_capabilities data;
         AgentConnectionInfo.connectedAt := connectedAt;
         AgentConnectionInfo.lastHeartbeat := now |}.
Proof.
  unfold storeConnection. rewrite !bind_modify. unfold socketSend.
  rewrite bind_emit, bind_gets.
  unfold stateOf at 1. cbn [fst snd]. now rewrite broadcast_state.
Qed.

Lemma replaceExisting_run deviceId existing st :
  JsMap.get (agentConnections st) deviceId = Some existing ->
  traceOf (replaceExisting deviceId st)
  = [Close (AgentConnectionInfo.socket existing) 1000 "Replaced by new connection"]
  /\ agentConnections (stateOf (replaceExisting deviceId st))
     = agentConnections st.
Proof.
  intros G. unfold replaceExisting. rewrite bind_gets, G.
  unfold socketClose. rewrite bind_emit. now split.
Qed.

Lemma handleAgentRegister_run socket payload connectedAt now data st :
  validateAgentRegisterPayload payload = valid data ->
  handleAgentRegister socket payload connectedAt now st
  = (tt,
     stateOf (storeConnection socket data connectedAt now
                (stateOf (replaceExisting (reg_deviceId data) st))),
     traceOf (replaceExisting (reg_deviceId data) st)
     ++ traceOf (storeConnection socket data connectedAt now
                   (stateOf (replaceExisting (reg_deviceId data) st)))).
Proof.
  intros Hv. unfold handleAgentRegister. rewrite Hv.
  rewrite (@run_bind _ _ _ _ st tt _ _
             (unit_result (replaceExisting (reg_deviceId data) st))).
  now destruct (storeConnection socket data connectedAt now _) as [[[] ?] ?].
Qed.

(** C4.  When a valid registration names a device id that is present,
    the first socket call of the handler is the close of the prior
    transport, made while the registry still holds the prior connection;
    only then is the new connection stored, after which the lookup of the
    device id gives the new socket.  And in every state the process can
    reach, whatever events came before (the late ['close'] event of a
    replaced transport included), the registry holds at most one
    connection for a device id. *)
Theorem replaced_agent_closed_first :
  (forall st socket payload connectedAt now data existing,
      validateAgentRegisterPayload payload = valid data ->
      JsMap.get (agentConnections st) (reg_deviceId data) = Some existing ->
      let old := AgentConnectionInfo.socket existing in
      let closing := replaceExisting (reg_deviceId data) st in
      let r := handleAgentRegister socket payload connectedAt now st in
      traceOf closing = [Close old 1000 "Replaced by new connection"]
      /\ getAgentSocket (stateOf closing) (reg_deviceId data) = Some old
      /\ traceOf r
         = Close old 1000 "Replaced by new connection"
           :: traceOf (storeConnection socket data connectedAt now
                         (stateOf closing))
      /\ getAgentSocket (stateOf r) (reg_deviceId data) = Some socket)
  /\ (forall events deviceId info1 info2,
        let st := fst (run events initial) in
        In (deviceId, info1) (agentConnections st) ->
        In (deviceId, info2) (agentConnections st) ->
        info1 = info2).
Proof.
  split.
  - intros st socket payload connectedAt now data existing Hv G old closing r.
    destruct (replaceExisting_run _ _ _ G) as [Ht Hs].
    unfold r. rewrite (handleAgentRegister_run _ _ _ _ _ _ Hv).
    fold closing. cbn [traceOf stateOf fst snd]. split; [exact Ht|]. split.
    + unfold getAgentSocket. fold (stateOf closing). unfold closing.
      now rewrite Hs, G.
    + split.
      * fold (traceOf closing). unfold closing. now rewrite Ht.
      * unfold getAgentSocket.
        fold (stateOf (storeConnection socket data connectedAt now
                         (stateOf closing))).
        now rewrite storeConnection_state, get_set_same.
  - intros events deviceId info1 info2 st H1 H2.
    pose proof (reachable_Inv (reachable_run events)) as [Hnd _ _ _ _].
    apply (In_get _ _ _ _ Hnd) in H1, H2. congruence.
Qed.

(** Agent 3 registers [pi-1], which agent 1 holds: socket 1 is closed
    first, then 3 is acknowledged and the browser is told; afterwards
    [pi-1] resolves to socket 3, and to nothing else. *)
Lemma replaced_agent_closed_first_witness :
  let data := {| reg_deviceId := "pi-1"; reg_deviceName := "Pi";
                 reg_ipAddress := "10.0.0.1";
                 reg_capabilities := {| ssh := true; rdp := Some true |} |} in
  let r := handleAgentRegister 3%nat (Some (JObject (registerFields "pi-1")))
             4 5 afterSecondAgentConnected in
  getAgentSocket afterSecondAgentConnected "pi-1" = Some 1%nat
  /\ traceOf r
     = Close 1%nat 1000 "Replaced by new connection"
       :: traceOf (storeConnection 3%nat data 4 5
                     (stateOf (replaceExisting "pi-1" afterSecondAgentConnected)))
  /\ getAgentSocket (stateOf r) "pi-1" = Some 3%nat
  /\ (forall info,
        In ("pi-1", info) (agentConnections afterAgentReplaced) ->
        AgentConnectionInfo.socket info = 3%nat).
Proof.
  intros data r.
  pose (existing :=
          {| AgentConnectionInfo.socket := 1%nat;
             AgentConnectionInfo.deviceId := "pi-1";
             AgentConnectionInfo.deviceName := "Pi";
             AgentConnectionInfo.ipAddress := "10.0.0.1";
             AgentConnectionInfo.capabilities := {| ssh := true; rdp := Some true |};
             AgentConnectionInfo.connectedAt := 0;
             AgentConnectionInfo.lastHeartbeat := 1 |}).
  pose (replacement :=
          {| AgentConnectionInfo.socket := 3%nat;
             AgentConnectionInfo.deviceId := "pi-1";
             AgentConnectionInfo.deviceName := "Pi";
             AgentConnectionInfo.ipAddress := "10.0.0.1";
             AgentConnectionInfo.capabilities := {| ssh := true; rdp := Some true |};
             AgentConnectionInfo.connectedAt := 4;
             AgentConnectionInfo.lastHeartbeat := 5 |}).
  destruct replaced_agent_closed_first as [First Unique].
  destruct (First afterSecondAgentConnected 3%nat
              (Some (JObject (registerFields "pi-1"))) 4%Z 5%Z data existing
              eq_refl eq_refl) as (_ & _ & Htrace & Hnew).
  split; [reflexivity|]. split; [exact Htrace|]. split; [exact Hnew|].
  intros info Hin.
  assert (Hrep : In ("pi-1", replacement) (agentConnections afterAgentReplaced))
    by now left.
  now rewrite (Unique agentReplaced "pi-1" info replacement Hin Hrep).
Defined.

(** What the late ['close'] event of the replaced transport does: the
    handler of socket 1 still holds [pi-1] in [registeredDeviceId] and
    deletes that key, so the registry forgets agent 3 as well. *)
Lemma late_close_of_replaced_agent :
  getAgentSocket afterAgentReplaced "pi-1" = Some 3%nat
  /\ agentConnections (stateOf (step 7 (Closed 1%nat) afterAgentReplaced)) = [].
Proof. split; reflexivity. Qed.

(** *** Presence *)

Lemma getDeviceList_online st item :
  In item (getDeviceList st) -> item_status item = online.
Proof.
  unfold getDeviceList. rewrite in_map_iff.
  intros ([deviceId info] & <- & _). reflexivity.
Qed.

Lemma getAllDevices_status now st device :
  In device (getAllDevices now st) ->
  (dev_status device = offline
   <-> (now - dev_lastSeen device > STALE_THRESHOLD_MS)%Z).
Proof.
  unfold getAllDevices. rewrite in_map_iff. intros (info & <- & _).
  cbn [deviceOf dev_status dev_lastSeen]. unfold isStale.
  destruct (Z.ltb_spec STALE_THRESHOLD_MS
              (now - AgentConnectionInfo.lastHeartbeat info)) as [H|H].
  - split; [intros _; lia | reflexivity].
  - split; [discriminate | intros; lia].
Qed.

Lemma getOnlineDevices_fresh now st device :
  In device (getOnlineDevices now st) ->
  dev_status device = online
  /\ (now - dev_lastSeen device <= STALE_THRESHOLD_MS)%Z.
Proof.
  unfold getOnlineDevices. rewrite in_map_iff.
  intros (info & <- & Hin). apply filter_In in Hin. destruct Hin as [_ Hf].
  apply negb_true_iff in Hf. cbn [deviceOf dev_status dev_lastSeen].
  rewrite Hf. split; [reflexivity|]. unfold isStale in Hf.
  now apply Z.ltb_ge in Hf.
Qed.

Lemma closeLoop_run stale : forall st,
  forEach stale
    (fun entry : string * AgentConnectionInfo.t =>
       socketClose (AgentConnectionInfo.socket (snd entry)) 1000
         "Stale connection") st
  = (tt,
     stateOf (forEach stale
                (fun entry : string * AgentConnectionInfo.t =>
                   socketClose (AgentConnectionInfo.socket (snd entry)) 1000
                     "Stale connection") st),
     map (fun entry : string * AgentConnectionInfo.t =>
            Close (AgentConnectionInfo.socket (snd entry)) 1000
              "Stale connection") stale)
  /\ agentConnections
       (stateOf (forEach stale
                   (fun entry : string * AgentConnectionInfo.t =>
                      socketClose (AgentConnectionInfo.socket (snd entry)) 1000
                        "Stale connection") st))
     = agentConnections st.
Proof.
  induction stale as [|x xs IH]; intros st; [now split|].
  cbn [forEach map].
  set (st1 := withSockets
                (updateConnection (sockets st)
                   (AgentConnectionInfo.socket (snd x))
                   (fun c => match readyState c with
                             | OPEN => withReadyState CLOSING c
                             | _ => c
                             end)) st).
  assert (B : socketClose (AgentConnectionInfo.socket (snd x)) 1000
                "Stale connection" st
              = (tt, st1,
                 [Close (AgentConnectionInfo.socket (snd x)) 1000
                    "Stale connection"])).
  { unfold socketClose. now rewrite bind_emit. }
  rewrite (@run_bind _ _ _ _ st tt st1 _ B).
  destruct (IH st1) as [E1 E2]. rewrite E1.
  cbn [fst snd stateOf traceOf app]. split; [reflexivity|].
  fold (stateOf (forEach xs
                   (fun entry : string * AgentConnectionInfo.t =>
                      socketClose (AgentConnectionInfo.socket (snd entry)) 1000
                        "Stale connection") st1)).
  now rewrite E2.
Qed.

Lemma deleteLoop_run stale : forall st,
  forEach stale
    (fun entry : string * AgentConnectionInfo.t =>
       modify (fun st =>
         withAgentConnections
           (JsMap.delete (agentConnections st) (fst entry)) st)) st
  = (tt,
     fold_left (fun st (entry : string * AgentConnectionInfo.t) =>
                  withAgentConnections
                    (JsMap.delete (agentConnections st) (fst entry)) st)
       stale st,
     []).
Proof.
  induction stale as [|x xs IH]; intros st; [reflexivity|].
  cbn [forEach fold_left]. rewrite bind_modify. apply IH.
Qed.

Lemma deleteAll_absent deviceId stale : forall st,
  JsMap.get (agentConnections st) deviceId = None ->
  JsMap.get
    (agentConnections
       (fold_left (fun st (entry : string * AgentConnectionInfo.t) =>
                     withAgentConnections
                       (JsMap.delete (agentConnections st) (fst entry)) st)
          stale st)) deviceId = None.
Proof.
  induction stale as [|x xs IH]; intros st H; [exact H|].
  cbn [fold_left]. apply IH. cbn [agentConnections withAgentConnections].
  apply get_None. intros Hin. apply keys_delete_incl in Hin.
  now apply get_None in H.
Qed.

Lemma deleteAll_deleted deviceId stale : forall st,
  NoDup (JsMap.keys (agentConnections st)) ->
  In deviceId (map fst stale) ->
  JsMap.get
    (agentConnections
       (fold_left (fun st (entry : string * AgentConnectionInfo.t) =>
                     withAgentConnections
                       (JsMap.delete (agentConnections st) (fst entry)) st)
          stale st)) deviceId = None.
Proof.
  induction stale as [|x xs IH]; intros st Hnd Hin; [destruct Hin|].
  cbn [fold_left]. destruct Hin as [<-|Hin].
  - apply deleteAll_absent. cbn [agentConnections withAgentConnections].
    now apply get_delete_same.
  - apply IH; [|assumption]. cbn [agentConnections withAgentConnections].
    now apply NoDup_keys_delete.
Qed.

(** The sweep, for every agent it finds stale: its transport is closed
    with reason [Stale connection] and it is gone from the registry. *)
Lemma cleanup_evicts_stale now st deviceId info :
  NoDup (JsMap.keys (agentConnections st)) ->
  In (deviceId, info) (agentConnections st) -> isStale now info = true ->
  In (Close (AgentConnectionInfo.socket info) 1000 "Stale connection")
     (traceOf (cleanupStaleConnections now st))
  /\ JsMap.get (agentConnections (stateOf (cleanupStaleConnections now st)))
       deviceId = None.
Proof.
  intros Hnd Hin Hstale.
  assert (Hs : In (deviceId, info) (staleEntries now st)).
  { unfold staleEntries. apply filter_In. now split. }
  unfold cleanupStaleConnections. rewrite bind_gets.
  destruct (closeLoop_run (staleEntries now st) st) as [E1 E2].
  rewrite (@run_bind _ _ _ _ st tt _ _ E1), deleteLoop_run.
  cbn [fst snd stateOf traceOf]. rewrite app_nil_r. split.
  - apply in_map_iff. now exists (deviceId, info).
  - apply deleteAll_deleted.
    + fold (stateOf (forEach (staleEntries now st)
                       (fun entry : string * AgentConnectionInfo.t =>
                          socketClose (AgentConnectionInfo.socket (snd entry))
                            1000 "Stale connection") st)).
      now rewrite E2.
    + apply in_map_iff. now exists (deviceId, info).
Qed.

(** C5 at its failing input.  Agent 1 last gave a sign of life at time 1;
    at time 100000 it is stale, and [getAllDevices] reports it offline,
    but [getDeviceList], which answers [devices:list:request], reports it
    online. *)
Theorem stale_agent_listed_online :
  let now := 100000%Z in
  let st := afterSessionOpened in
  map (fun info => (now - AgentConnectionInfo.lastHeartbeat info)%Z)
    (JsMap.values (agentConnections st)) = [99999%Z]
  /\ (99999 > STALE_THRESHOLD_MS)%Z
  /\ map dev_status (getAllDevices now st) = [offline]
  /\ map item_status (getDeviceList st) = [online]
  /\ step now (Message 2%nat (frame "devices:list:request" [])) st
     = (tt, st,
        [Send 2%nat
           (deviceListMessage now
              [{| item_id := "pi-1"; item_name := "Pi";
                  item_ipAddress := "10.0.0.1"; item_status := online;
                  item_capabilities := {| ssh := true; rdp := Some true |} |}])]).
Proof. repeat split. Qed.

End ServerProofs.

(* ===================================================================== *)
(** ** More on the framer and the tunnel                                  *)
(* ===================================================================== *)

Module FramerMoreProofs.
Import Framer FramerMore FramerProofs.

Lemma feed_run buffer data : feed buffer data = run (buffer ++ data).
Proof. reflexivity. Qed.

Lemma feed_stuck buffer data : tryParseOne (fst (feed buffer data)) = None.
Proof.
  rewrite feed_run.
  destruct (run_conserves (buffer ++ data)) as (texts & _ & _ & H). exact H.
Qed.

Lemma feed_nothing buffer :
  tryParseOne buffer = None -> feed buffer [] = (buffer, []).
Proof.
  intros H. rewrite feed_run, app_nil_r. now apply run_None.
Qed.

Lemma feedAll_feed fragments : forall buffer,
  tryParseOne buffer = None ->
  feedAll buffer fragments = feed buffer (concat fragments).
Proof.
  induction fragments as [|f fs IH]; intros buffer H; cbn [feedAll concat].
  - symmetry. now apply feed_nothing.
  - rewrite feed_app.
    pose proof (feed_stuck buffer f) as Hs.
    destruct (feed buffer f) as [b1 o1]. cbn [fst] in Hs.
    now rewrite (IH b1 Hs).
Qed.

Lemma parseInt_leading_zero ds : parseInt (48%N :: ds) = parseInt ds.
Proof. reflexivity. Qed.

Lemma lengthPrefix_leading_zero ds v :
  lengthPrefix ds v -> lengthPrefix (48%N :: ds) v.
Proof.
  intros (Hne & Hd & Hp). repeat split.
  - discriminate.
  - cbn [forallb]. now rewrite Hd.
  - now rewrite parseInt_leading_zero.
Qed.

Lemma not_digit_stuck c rest :
  isDigit c = false -> tryParseOne (c :: rest) = None.
Proof.
  intros H. unfold tryParseOne. cbn [length tryParseElems readLength].
  now rewrite H.
Qed.

(** X1. Encoding then decoding gives the elements back: the text
    [buildInstruction] makes of a non-empty list of elements, whatever
    the elements contain and whatever follows it in the buffer, is parsed
    by [tryParseOne] into exactly these elements, consuming exactly that
    text; fed to a fresh parser it is emitted as one instruction and
    nothing is left. *)
Theorem build_then_parse els rest :
  els <> [] ->
  tryParseOne (buildInstruction els ++ rest)
  = Some (els, length (buildInstruction els))
  /\ feed [] (buildInstruction els) = ([], asInstruction els).
Proof.
  intros Hne. pose proof (buildInstruction_text els Hne) as Ht. split.
  - apply tryParseOne_Some. now exists (buildInstruction els), rest.
  - pose proof (run_Some els (buildInstruction els) [] Ht) as R.
    rewrite run_nil, !app_nil_r in R. exact R.
Qed.

Lemma build_then_parse_witness :
  let els := [units "key"; units "1;2,3."; []] in
  els <> [] /\
  tryParseOne (buildInstruction els ++ units "4.sy")
  = Some (els, length (units "3.key,6.1;2,3.,0.;")) /\
  feed [] (buildInstruction els) = ([], [(units "key", [units "1;2,3."; []])]).
Proof.
  intros els.
  pose proof (build_then_parse els (units "4.sy")) as H.
  split; [discriminate|]. apply H. discriminate.
Defined.

(** X2. What [tryParseOne] returns is never an empty element list, and
    the count of consumed units is at least three and at most the length
    of the buffer: the loop of [feed] shortens the buffer at every
    instruction it emits, and its guard [elements.length > 0] never
    fails. *)
Theorem parsed_instruction_bounds buffer els consumed :
  tryParseOne buffer = Some (els, consumed) ->
  els <> [] /\ 3 <= consumed <= length buffer
  /\ length (skipn consumed buffer) < length buffer
  /\ tryParseOne (firstn consumed buffer) = Some (els, consumed).
Proof.
  intros H. apply tryParseOne_Some in H.
  destruct H as (txt & tail & Ht & -> & ->).
  destruct (elementsText_nonempty els txt Ht) as [Hne Hlen].
  rewrite length_app, length_skipn, length_app.
  split; [assumption|]. split; [lia|]. split; [lia|].
  rewrite firstn_app, Nat.sub_diag, firstn_all, firstn_O, app_nil_r.
  apply tryParseOne_Some. exists txt, []. now rewrite app_nil_r.
Qed.

Lemma parsed_instruction_bounds_witness :
  let buffer := units "4.sync,2.ab;6.sel" in
  tryParseOne buffer = Some ([units "sync"; units "ab"], 12) /\
  3 <= 12 <= length buffer /\
  tryParseOne (firstn 12 buffer) = Some ([units "sync"; units "ab"], 12).
Proof.
  intros buffer.
  assert (E : tryParseOne buffer = Some ([units "sync"; units "ab"], 12))
    by reflexivity.
  destruct (parsed_instruction_bounds buffer _ _ E) as (_ & Hb & _ & Hf).
  repeat split; try apply Hb; assumption.
Defined.

(** X3. However a stream is cut into fragments, with cuts at any
    position, empty fragments and text that is no instruction at all
    included, feeding the fragments one after the other to a parser whose
    buffer holds no complete instruction (a fresh parser, or one left by
    an earlier [feed]) leaves the same buffer and emits the same
    instructions in the same order as feeding the whole stream at once. *)
Theorem feed_any_fragmentation buffer fragments :
  tryParseOne buffer = None ->
  feedAll buffer fragments = feed buffer (concat fragments).
Proof. intros H. now apply feedAll_feed. Qed.

Lemma feed_any_fragmentation_witness :
  tryParseOne (units "4.sy") = None /\
  feedAll (units "4.sy") [units "nc"; []; units ";3.a"; units "bc,1"; units ".x;9"]
  = feed (units "4.sy") (units "nc;3.abc,1.x;9") /\
  feed (units "4.sy") (units "nc;3.abc,1.x;9")
  = (units "9", [(units "sync", []); (units "abc", [units "x"])]).
Proof.
  split; [reflexivity|]. split; [|reflexivity].
  apply (feed_any_fragmentation (units "4.sy")
           [units "nc"; []; units ";3.a"; units "bc,1"; units ".x;9"]).
  reflexivity.
Defined.

(** X4. [feed] extracts all it can: the buffer it leaves never starts
    with a complete instruction, so feeding the empty string next emits
    nothing and leaves the buffer as it is. *)
Theorem feed_leaves_no_instruction buffer data :
  tryParseOne (fst (feed buffer data)) = None
  /\ feed (fst (feed buffer data)) [] = (fst (feed buffer data), []).
Proof.
  split; [apply feed_stuck|]. apply feed_nothing, feed_stuck.
Qed.

(** X5. Length prefixes are read with [parseInt], which accepts leading
    zeros: a zero put in front of a buffer that starts with a complete
    instruction gives the same elements, with one more unit consumed. *)
Theorem leading_zero_accepted buffer els consumed :
  tryParseOne buffer = Some (els, consumed) ->
  tryParseOne (48%N :: buffer) = Some (els, S consumed).
Proof.
  intros H. apply tryParseOne_Some in H.
  destruct H as (txt & tail & Ht & -> & ->).
  apply tryParseOne_Some. exists (48%N :: txt), tail.
  split; [|split; reflexivity].
  inversion Ht as [ds v Hp | ds v els' txt' Hp Ht']; subst.
  - apply (@ET_last (48%N :: ds) v). now apply lengthPrefix_leading_zero.
  - apply (@ET_more (48%N :: ds) v els' txt');
      [now apply lengthPrefix_leading_zero | assumption].
Qed.

Lemma leading_zero_accepted_witness :
  tryParseOne (units "4.sync;") = Some ([units "sync"], 7) /\
  tryParseOne (units "04.sync;") = Some ([units "sync"], 8).
Proof.
  split; [reflexivity|].
  apply (leading_zero_accepted (units "4.sync;")). reflexivity.
Defined.

(** X6. A buffer whose first unit is not a digit blocks the parser for
    good: whatever is fed later, nothing is emitted and the data is only
    appended.  The text [buildInstruction] makes of an empty element list,
    [";"], is such a buffer. *)
Theorem non_digit_start_blocks c buffer data :
  isDigit c = false ->
  feed (c :: buffer) data = (c :: buffer ++ data, []).
Proof.
  intros H. rewrite feed_run. cbn [app]. apply run_None. now apply not_digit_stuck.
Qed.

Lemma non_digit_start_blocks_witness :
  feed (buildInstruction [] ++ units "4.sy") (units "nc;")
  = (units ";4.sync;", []).
Proof.
  apply (non_digit_start_blocks SEMI (units "4.sy") (units "nc;")).
  reflexivity.
Defined.

End FramerMoreProofs.

Module TunnelProofs.
Import Framer FramerMore FramerProofs FramerMoreProofs Tunnel.

Lemma sameString_eq a : forall b, sameString a b = true <-> a = b.
Proof.
  induction a as [|x a IH]; intros [|y b]; cbn [sameString];
    try (split; [discriminate | discriminate]); try tauto.
  rewrite andb_true_iff, N.eqb_eq, IH. split.
  - now intros [-> ->].
  - intros E. now inversion E.
Qed.

Lemma sameString_refl a : sameString a a = true.
Proof. now apply sameString_eq. Qed.

Lemma dispatch_other setup t i :
  pending t && isArgs i = false -> dispatch setup t i = (t, original setup i).
Proof.
  unfold pending, isArgs, dispatch. destruct (oninstruction t); [|reflexivity].
  now intros ->.
Qed.

Lemma dispatch_args setup t i :
  pending t = true -> isArgs i = true ->
  dispatch setup t i
  = (opened t, SendData (handshakeData (params setup) (snd i))
               :: onstatechange setup T_OPEN).
Proof.
  unfold pending, isArgs, dispatch.
  destruct (oninstruction t); [|discriminate]. now intros -> ->.
Qed.

Lemma dispatchAll_others setup instrs : forall t,
  (pending t = false \/ forallb (fun i => negb (isArgs i)) instrs = true) ->
  dispatchAll setup t instrs = (t, flat_map (original setup) instrs).
Proof.
  induction instrs as [|i instrs IH]; intros t H; [reflexivity|].
  cbn [dispatchAll flat_map]. rewrite dispatch_other.
  - rewrite IH; [reflexivity|]. destruct H as [H|H]; [now left|right].
    cbn [forallb] in H. now apply andb_true_iff in H.
  - destruct H as [->|H]; [reflexivity|].
    cbn [forallb] in H. apply andb_true_iff in H.
    destruct H as [H _]. apply negb_true_iff in H. rewrite H.
    apply andb_false_r.
Qed.

Lemma dispatchAll_app setup a : forall t b,
  dispatchAll setup t (a ++ b) =
  let (t1, o1) := dispatchAll setup t a in
  let (t2, o2) := dispatchAll setup t1 b in (t2, o1 ++ o2).
Proof.
  induction a as [|i a IH]; intros t b; simpl.
  - now destruct (dispatchAll setup t b).
  - destruct (dispatch setup t i) as [t1 o1]. rewrite IH.
    destruct (dispatchAll setup t1 a) as [t2 o2].
    destruct (dispatchAll setup t2 b) as [t3 o3].
    now rewrite app_assoc.
Qed.

Lemma dispatch_withBuffer setup b t i :
  dispatch setup (withBuffer b t) i =
  (withBuffer b (fst (dispatch setup t i)), snd (dispatch setup t i)).
Proof.
  unfold dispatch. cbn [withBuffer oninstruction handshakeComplete].
  destruct (oninstruction t); [|reflexivity].
  destruct (negb (handshakeComplete t) && _); reflexivity.
Qed.

Lemma dispatchAll_withBuffer setup b instrs : forall t,
  dispatchAll setup (withBuffer b t) instrs =
  (withBuffer b (fst (dispatchAll setup t instrs)),
   snd (dispatchAll setup t instrs)).
Proof.
  induction instrs as [|i instrs IH]; intros t; [reflexivity|].
  cbn [dispatchAll]. rewrite dispatch_withBuffer.
  destruct (dispatch setup t i) as [t1 o1]. cbn [fst snd].
  rewrite IH. now destruct (dispatchAll setup t1 instrs).
Qed.

Lemma dispatchAll_buffer setup instrs : forall t,
  buffer (fst (dispatchAll setup t instrs)) = buffer t.
Proof.
  induction instrs as [|i instrs IH]; intros t; [reflexivity|].
  cbn [dispatchAll].
  assert (E : buffer (fst (dispatch setup t i)) = buffer t).
  { unfold dispatch. destruct (oninstruction t); [|reflexivity].
    now destruct (negb (handshakeComplete t) && _). }
  destruct (dispatch setup t i) as [t1 o1]. cbn [fst] in E.
  specialize (IH t1). destruct (dispatchAll setup t1 instrs). cbn [fst] in *.
  congruence.
Qed.

Lemma withBuffer_withBuffer b b' t :
  withBuffer b (withBuffer b' t) = withBuffer b t.
Proof. reflexivity. Qed.

Lemma withBuffer_same t : withBuffer (buffer t) t = t.
Proof. now destruct t. Qed.

Lemma onRdpData_feed setup t data :
  tryParseOne (buffer t) = None ->
  onRdpData setup t (Some (sessionId setup)) (Some data) =
  let (buffer', emitted) := feed (buffer t) data in
  dispatchAll setup (withBuffer buffer' t) emitted.
Proof.
  intros H. unfold onRdpData. rewrite sameString_refl. cbn [negb].
  destruct data as [|c d]; [|reflexivity].
  rewrite (feed_nothing _ H). cbn [dispatchAll]. now rewrite withBuffer_same.
Qed.

(** Receiving fragments is feeding their concatenation and dispatching
    what comes out. *)
Lemma receiveAll_feed setup fragments : forall t,
  tryParseOne (buffer t) = None ->
  receiveAll setup t fragments =
  let (buffer', emitted) := feed (buffer t) (concat fragments) in
  dispatchAll setup (withBuffer buffer' t) emitted.
Proof.
  induction fragments as [|f fs IH]; intros t H; cbn [receiveAll concat].
  - rewrite (feed_nothing _ H). cbn [dispatchAll]. now rewrite withBuffer_same.
  - rewrite (onRdpData_feed setup t f H), feed_app.
    pose proof (feed_stuck (buffer t) f) as Hs.
    destruct (feed (buffer t) f) as [b1 e1]. cbn [fst] in Hs.
    rewrite dispatchAll_withBuffer.
    pose proof (dispatchAll_buffer setup e1 t) as Hb.
    destruct (dispatchAll setup t e1) as [t1 o1] eqn:E1. cbn [fst snd] in *.
    rewrite IH by (cbn [withBuffer buffer]; exact Hs).
    cbn [withBuffer buffer].
    destruct (feed b1 (concat fs)) as [b2 e2].
    rewrite dispatchAll_app.
    rewrite (dispatchAll_withBuffer setup b2 e1 t), E1. cbn [fst snd].
    reflexivity.
Qed.

Lemma handshake_texts params args :
  Forall2 elementsText (handshakeInstructions params args)
    (map buildInstruction (handshakeInstructions params args)).
Proof.
  unfold handshakeInstructions.
  repeat (apply Forall2_cons; [apply buildInstruction_text; discriminate|]).
  apply Forall2_nil.
Qed.

Lemma startsWith_prefix prefix : forall s,
  startsWith s prefix = true <-> exists rest, s = prefix ++ rest.
Proof.
  induction prefix as [|p prefix IH]; intros s.
  - split; [intros _; now exists s | now destruct s].
  - destruct s as [|c s]; cbn [startsWith].
    + split; [discriminate | intros [rest E]; discriminate E].
    + rewrite andb_true_iff, N.eqb_eq, IH. split.
      * intros [-> [rest ->]]. now exists rest.
      * intros [rest E]. inversion E. split; [reflexivity | now exists rest].
Qed.

(** X7. The handshake the tunnel sends in answer to [args] is five
    complete instructions: decoded by the framer it reads [size] with the
    width, height and dpi of the connection parameters (1024, 768 and 96
    where a parameter is absent or empty), [audio], [video], [image] with
    [image/png] and [image/jpeg], and [connect] with one value per
    requested argument name, in the order requested: the name itself
    where it starts with [VERSION_], else the parameter of that name, or
    the empty string where there is none. *)
Theorem handshake_decodes params args :
  exists values,
    feed [] (handshakeData params args)
    = ([], [ (units "size",
              [ match params (units "width") with
                | None | Some [] => units "1024" | Some v => v end;
                match params (units "height") with
                | None | Some [] => units "768" | Some v => v end;
                match params (units "dpi") with
                | None | Some [] => units "96" | Some v => v end ]);
             (units "audio", []);
             (units "video", []);
             (units "image", [units "image/png"; units "image/jpeg"]);
             (units "connect", values) ])
    /\ length values = length args
    /\ forall n name, nth_error args n = Some name ->
         ((exists rest, name = units "VERSION_" ++ rest) ->
          nth_error values n = Some name)
         /\ ((forall rest, name <> units "VERSION_" ++ rest) ->
             nth_error values n
             = Some match params name with Some v => v | None => [] end).
Proof.
  exists (connectArgs params args). split; [|split; [apply length_map|]].
  - pose proof (run_stream _ _ (handshake_texts params args) []) as R.
    rewrite run_nil, !app_nil_r in R. etransitivity; [exact R|].
    unfold handshakeInstructions, getOr.
    now destruct (params (units "width")) as [[|]|],
      (params (units "height")) as [[|]|], (params (units "dpi")) as [[|]|].
  - intros n name Hn. unfold connectArgs. rewrite nth_error_map, Hn.
    cbn [option_map]. split.
    + intros H. apply startsWith_prefix in H. now rewrite H.
    + intros H. destruct (startsWith name (units "VERSION_")) eqn:E.
      * apply startsWith_prefix in E. destruct E as [rest E].
        now destruct (H rest).
      * unfold getOr. now destruct (params name) as [[|]|].
Qed.

(** With the parameters [hostname=pc] and [width=1280], and guacd asking
    for [VERSION_1_5_0], [hostname] and [port]: the handshake decodes to
    the size 1280 by 768 at 96 dpi and to [connect] with the version
    name, [pc] and the empty string. *)
Lemma handshake_decodes_witness :
  feed []
    (handshakeData
       (fun name =>
          if sameString name (units "hostname") then Some (units "pc")
          else if sameString name (units "width") then Some (units "1280")
          else None)
       [units "VERSION_1_5_0"; units "hostname"; units "port"])
  = ([], [ (units "size", [units "1280"; units "768"; units "96"]);
           (units "audio", []);
           (units "video", []);
           (units "image", [units "image/png"; units "image/jpeg"]);
           (units "connect", [units "VERSION_1_5_0"; units "pc"; []]) ]).
Proof.
  destruct (handshake_decodes
              (fun name =>
                 if sameString name (units "hostname") then Some (units "pc")
                 else if sameString name (units "width") then Some (units "1280")
                 else None)
              [units "VERSION_1_5_0"; units "hostname"; units "port"])
    as (values & F & L & V).
  rewrite F.
  pose proof (proj1 (V 0%nat _ eq_refl)
                (ex_intro _ (units "1_5_0") eq_refl)) as V0.
  pose proof (proj2 (V 1%nat _ eq_refl)
                (fun rest E => ltac:(discriminate E))) as V1.
  pose proof (proj2 (V 2%nat _ eq_refl)
                (fun rest E => ltac:(discriminate E))) as V2.
  destruct values as [|v0 [|v1 [|v2 [|]]]]; try discriminate L.
  cbn in V0, V1, V2. injection V0 as ->. injection V1 as ->. injection V2 as ->.
  reflexivity.
Defined.

(** X8. From [connect] on, whatever the fragmentation of the [rdp:data]
    messages of the session: as long as no [args] instruction has
    arrived, every instruction is passed to the client's handler; the
    first [args] is not passed on but answered with exactly one handshake
    and the tunnel opens; every instruction after it, a later [args]
    included, is passed on and no second handshake is sent. *)
Theorem handshake_sent_once setup before fragments :
  let start := fst (connect setup before) in
  let emitted := snd (feed [] (concat fragments)) in
  (forallb (fun i => negb (sameString (fst i) (units "args"))) emitted = true ->
   receiveAll setup start fragments
   = (withBuffer (fst (feed [] (concat fragments))) start,
      flat_map (original setup) emitted))
  /\ (forall pre args post,
        emitted = pre ++ (units "args", args) :: post ->
        forallb (fun i => negb (sameString (fst i) (units "args"))) pre = true ->
        receiveAll setup start fragments
        = ({| buffer := fst (feed [] (concat fragments));
              handshakeComplete := true; oninstruction := Original;
              state := T_OPEN |},
           flat_map (original setup) pre
           ++ SendData (handshakeData (params setup) args)
              :: onstatechange setup T_OPEN
           ++ flat_map (original setup) post)).
Proof.
  intros start emitted.
  assert (R : receiveAll setup start fragments =
              dispatchAll setup
                (withBuffer (fst (feed [] (concat fragments))) start) emitted).
  { rewrite receiveAll_feed by reflexivity. subst emitted. cbn [start buffer connect fst].
    now destruct (feed [] (concat fragments)). }
  split.
  - intros H. rewrite R. apply dispatchAll_others. now right.
  - intros pre args post E Hpre. rewrite R, E, dispatchAll_app.
    rewrite dispatchAll_others by now right.
    cbn [dispatchAll]. rewrite dispatch_args by reflexivity.
    rewrite dispatchAll_others by now left.
    reflexivity.
Qed.

Lemma handshake_sent_once_witness :
  let setup := {| sessionId := units "s1";
                  params := fun name =>
                    if sameString name (units "hostname")
                    then Some (units "pc") else None;
                  hasOriginal := true; hasStateListener := true |} in
  receiveAll setup (fst (connect setup T_CONNECTING))
    [units "4.sync;4.ar"; units "gs,13.VERSION_1_5_0,8.hostname,4.port;4.a";
     units "rgs;3.x"]
  = ({| buffer := units "3.x"; handshakeComplete := true;
        oninstruction := Original; state := T_OPEN |},
     [Deliver (units "sync") [];
      SendData (units
        "4.size,4.1024,3.768,2.96;5.audio;5.video;5.image,9.image/png,10.image/jpeg;7.connect,13.VERSION_1_5_0,2.pc,0.;");
      StateChange T_OPEN;
      Deliver (units "args") []]).
Proof.
  intros setup.
  pose proof (handshake_sent_once setup T_CONNECTING
    [units "4.sync;4.ar"; units "gs,13.VERSION_1_5_0,8.hostname,4.port;4.a";
     units "rgs;3.x"]) as H.
  destruct H as [_ H].
  specialize (H [(units "sync", [])]
                [units "VERSION_1_5_0"; units "hostname"; units "port"]
                [(units "args", [])] eq_refl eq_refl).
  exact H.
Defined.

End TunnelProofs.

(* ===================================================================== *)
(** ** More on the session manager                                        *)
(* ===================================================================== *)

Module SessionManagerMoreProofs.
Import SessionManager SessionManagerMore.
Import JsMapFacts JsSetFacts ListFacts SessionManagerProofs.

Section MapFacts.
Variable V : Type.
Implicit Types m : JsMap.t V.

Lemma get_middle m1 k (v : V) m2 :
  ~ In k (JsMap.keys m1) -> JsMap.get (m1 ++ (k, v) :: m2) k = Some v.
Proof.
  induction m1 as [|[k' v'] m1 IH]; simpl; intros H.
  - now rewrite String.eqb_refl.
  - destruct (String.eqb_spec k' k) as [->|_]; [tauto|]. apply IH. tauto.
Qed.

Lemma delete_set_fresh m k (v : V) :
  ~ In k (JsMap.keys m) -> JsMap.delete (JsMap.set m k v) k = m.
Proof.
  intros H. rewrite set_absent by assumption.
  rewrite (delete_present V m [] k v H). apply app_nil_r.
Qed.

Lemma In_delete_other m k k' (v : V) :
  In (k', v) m -> k' <> k -> In (k', v) (JsMap.delete m k).
Proof.
  induction m as [|[k0 v0] m IH]; cbn [JsMap.delete In]; [tauto|].
  intros [E|H] Hne.
  - inversion E; subst. destruct (String.eqb_spec k' k); [tauto|]. now left.
  - destruct (String.eqb_spec k0 k); [assumption|]. right. now apply IH.
Qed.

Lemma In_keys m k (v : V) : In (k, v) m -> In k (JsMap.keys m).
Proof. intros H. apply (in_map fst) in H. exact H. Qed.

Lemma keys_get m k : In k (JsMap.keys m) -> exists v, JsMap.get m k = Some v.
Proof.
  intros H. destruct (JsMap.get m k) as [v|] eqn:E; [now exists v|].
  apply get_None in E. tauto.
Qed.
End MapFacts.

Lemma delete_add_fresh s x :
  ~ In x s -> JsSet.delete (JsSet.add s x) x = s.
Proof.
  intros H. rewrite add_absent by assumption.
  induction s as [|y s IH]; simpl.
  - now rewrite String.eqb_refl.
  - cbn [In] in H. destruct (String.eqb_spec y x) as [->|_]; [tauto|].
    f_equal. apply IH. tauto.
Qed.

Lemma add_mem s x y : In y (JsSet.add s x) <-> In y s \/ y = x.
Proof.
  unfold JsSet.add. destruct (JsSet.has s x) eqn:E.
  - apply mem_has in E. split; [tauto|]. intros [H| ->]; assumption.
  - rewrite in_app_iff. cbn [In]. intuition congruence.
Qed.

Lemma bucket_NoDup index key ids :
  NoDup (members index) -> In (key, ids) index -> NoDup ids.
Proof.
  induction index as [|[k i] index IH]; cbn [In]; [tauto|].
  rewrite members_cons. intros H. apply NoDup_app_iff in H.
  destruct H as (H1 & H2 & _). intros [E|E].
  - now inversion E; subst.
  - now apply IH.
Qed.

Lemma bucket_members index key ids id :
  In (key, ids) index -> In id ids -> In id (members index).
Proof.
  intros H1 H2. apply members_inBucket. exists key, ids. now split.
Qed.

(** *** Buckets are deleted when they empty *)

Lemma addToIndex_entries index key id k ids' :
  In (k, ids') (addToIndex index key id) ->
  In (k, ids') index
  \/ (k = key /\ ids' = [id] /\ ~ In key (JsMap.keys index))
  \/ (k = key /\ exists ids, In (key, ids) index /\ ids' = JsSet.add ids id).
Proof.
  destruct (addToIndex_cases index key id)
    as [[Hn ->]|(m1 & m2 & ids & -> & Hn & ->)]; rewrite !in_app_iff; cbn [In].
  - intros [H|[E|[]]]; [now left|]. inversion E; subst. right; left.
    now repeat split.
  - intros [H|[E|H]]; [left; tauto| |left; tauto].
    inversion E; subst. right; right. split; [reflexivity|].
    exists ids. split; [|reflexivity]. apply in_app_iff. right. now left.
Qed.

Lemma add_nonempty s x : JsSet.add s x <> [].
Proof.
  unfold JsSet.add. destruct (JsSet.has s x) eqn:E.
  - apply mem_has in E. now destruct s.
  - now destruct s.
Qed.

Lemma addToIndex_tidy index key id :
  noEmptyBuckets index -> noEmptyBuckets (addToIndex index key id).
Proof.
  intros H k ids' Hin. apply addToIndex_entries in Hin.
  destruct Hin as [Hin|[(_ & -> & _)|(_ & ids & _ & ->)]].
  - now apply (H k).
  - discriminate.
  - apply add_nonempty.
Qed.

Lemma removeFromIndex_entries index id k ids' :
  In (k, ids') (removeFromIndex index id) ->
  In (k, ids') index
  \/ (ids' <> [] /\ exists ids, In (k, ids) index /\ ids' = JsSet.delete ids id).
Proof.
  induction index as [|[key ids] index IH]; cbn [removeFromIndex In]; [tauto|].
  destruct (JsSet.has ids id).
  - destruct (JsSet.size (JsSet.delete ids id) =? 0) eqn:E.
    + intros H. left. now right.
    + cbn [In]. intros [H|H].
      * inversion H; subst. right. split.
        -- apply Nat.eqb_neq in E. unfold JsSet.size in E.
           intros E'. now rewrite E' in E.
        -- exists ids. split; [now left|reflexivity].
      * destruct (IH H) as [H'|(Hne & ids0 & H1 & H2)]; [left; now right|].
        right. split; [assumption|]. exists ids0. split; [now right|assumption].
  - cbn [In]. intros [H|H]; [left; now left|].
    destruct (IH H) as [H'|(Hne & ids0 & H1 & H2)]; [left; now right|].
    right. split; [assumption|]. exists ids0. split; [now right|assumption].
Qed.

Lemma removeFromIndex_tidy index id :
  noEmptyBuckets index -> noEmptyBuckets (removeFromIndex index id).
Proof.
  intros H k ids' Hin. apply removeFromIndex_entries in Hin.
  destruct Hin as [Hin|[Hne _]]; [now apply (H k)|assumption].
Qed.

Lemma removeFromIndex_absent index id :
  ~ In id (members index) -> removeFromIndex index id = index.
Proof.
  induction index as [|[key ids] index IH]; [reflexivity|].
  rewrite members_cons, in_app_iff. intros H. cbn [removeFromIndex].
  assert (E : JsSet.has ids id = false) by (apply mem_has_false; tauto).
  rewrite E. f_equal. apply IH. tauto.
Qed.

Lemma removeFromIndex_app index1 index2 id :
  ~ In id (members index1) ->
  removeFromIndex (index1 ++ index2) id = index1 ++ removeFromIndex index2 id.
Proof.
  induction index1 as [|[key ids] index1 IH]; [reflexivity|].
  rewrite members_cons, in_app_iff. intros H.
  rewrite <- !app_comm_cons. cbn [removeFromIndex].
  assert (E : JsSet.has ids id = false) by (apply mem_has_false; tauto).
  rewrite E. f_equal. apply IH. tauto.
Qed.

Lemma removeFromIndex_addToIndex index key id :
  noEmptyBuckets index -> ~ In id (members index) ->
  removeFromIndex (addToIndex index key id) id = index.
Proof.
  intros Ht Hn.
  destruct (addToIndex_cases index key id)
    as [[Hk ->]|(m1 & m2 & ids & E & Hk & ->)].
  - rewrite removeFromIndex_app by assumption.
    cbn. rewrite String.eqb_refl. cbn. apply app_nil_r.
  - subst index. rewrite members_app, members_cons, !in_app_iff in Hn.
    rewrite removeFromIndex_app by tauto.
    cbn [removeFromIndex].
    assert (E1 : JsSet.has (JsSet.add ids id) id = true).
    { apply mem_has, add_mem. now right. }
    rewrite E1, delete_add_fresh by tauto.
    assert (E2 : (JsSet.size ids =? 0) = false).
    { apply Nat.eqb_neq. unfold JsSet.size.
      assert (ids <> []) as Hne.
      { apply (Ht key). apply in_app_iff. right. now left. }
      destruct ids; [congruence|discriminate]. }
    rewrite E2, removeFromIndex_absent by tauto. reflexivity.
Qed.

(** *** Lookup in an index after a removal *)

Lemma get_removeFromIndex index id key :
  NoDup (JsMap.keys index) -> NoDup (members index) ->
  JsMap.get (removeFromIndex index id) key =
  match JsMap.get index key with
  | None => None
  | Some ids =>
      if JsSet.has ids id
      then if JsSet.size (JsSet.delete ids id) =? 0 then None
           else Some (JsSet.delete ids id)
      else Some ids
  end.
Proof.
  induction index as [|[k ids] index IH]; [reflexivity|].
  cbn [JsMap.keys map fst]. rewrite members_cons.
  intros Hk Hm. inversion Hk as [|? ? Hk1 Hk2]; subst.
  apply NoDup_app_iff in Hm. destruct Hm as (Hm1 & Hm2 & Hm3).
  specialize (IH Hk2 Hm2).
  cbn [removeFromIndex JsMap.get].
  destruct (JsSet.has ids id) eqn:Eh.
  - destruct (JsSet.size (JsSet.delete ids id) =? 0) eqn:Es.
    + destruct (String.eqb_spec k key) as [->|Hne].
      * rewrite Eh, Es. now apply get_None.
      * destruct (JsMap.get index key) as [ids2|] eqn:Eg; [|reflexivity].
        assert (Eh2 : JsSet.has ids2 id = false).
        { apply mem_has_false. intros Hin. apply mem_has in Eh.
          apply (Hm3 id Eh). apply get_In in Eg.
          now apply (bucket_members index key ids2). }
        now rewrite Eh2.
    + cbn [JsMap.get]. destruct (String.eqb_spec k key) as [->|Hne].
      * now rewrite Eh, Es.
      * exact IH.
  - cbn [JsMap.get]. destruct (String.eqb_spec k key) as [->|Hne].
    + now rewrite Eh.
    + exact IH.
Qed.

Lemma filter_all (A : Type) (f : A -> bool) l :
  (forall x, In x l -> f x = true) -> filter f l = l.
Proof.
  induction l as [|a l IH]; [reflexivity|]. intros H. cbn [filter].
  rewrite (H a) by now left. f_equal. apply IH. intros x Hx. apply H. now right.
Qed.

Section Lookups.
Variable S : Type.
Variable sid : S -> string.
Implicit Types idx : Indexes S.

Lemma In_collect idx ids s :
  In s (collect idx ids) <->
  exists id, In id ids /\ JsMap.get (sessions idx) id = Some s.
Proof.
  unfold collect. rewrite in_flat_map. split.
  - intros (id & H1 & H2). exists id. split; [assumption|].
    destruct (JsMap.get (sessions idx) id) as [s'|]; [|destruct H2].
    destruct H2 as [->|[]]. reflexivity.
  - intros (id & H1 & H2). exists id. split; [assumption|].
    rewrite H2. now left.
Qed.

Lemma collect_cons idx id ids :
  collect idx (id :: ids) =
  match JsMap.get (sessions idx) id with
  | Some s => s :: collect idx ids
  | None => collect idx ids
  end.
Proof.
  unfold collect. cbn [flat_map].
  now destruct (JsMap.get (sessions idx) id).
Qed.

Lemma keyed_get idx id s :
  keyedById sid idx -> JsMap.get (sessions idx) id = Some s -> sid s = id.
Proof. intros Hk H. apply get_In in H. now apply Hk. Qed.

Lemma otherThan_true id s : otherThan sid id s = true <-> sid s <> id.
Proof.
  unfold otherThan. rewrite negb_true_iff.
  destruct (String.eqb_spec (sid s) id); split; congruence.
Qed.

Lemma collect_delete_absent idx idx' id ids :
  keyedById sid idx ->
  sessions idx' = JsMap.delete (sessions idx) id ->
  ~ In id ids ->
  collect idx' ids = filter (otherThan sid id) (collect idx ids).
Proof.
  intros Hk Hs. induction ids as [|x ids IH]; [reflexivity|].
  cbn [In]. intros Hn. rewrite !collect_cons, Hs.
  rewrite get_delete_other by (intros ->; tauto).
  destruct (JsMap.get (sessions idx) x) as [s|] eqn:E.
  - cbn [filter].
    assert (Ho : otherThan sid id s = true).
    { apply otherThan_true. rewrite (keyed_get idx x s Hk E). tauto. }
    rewrite Ho. f_equal. apply IH. tauto.
  - apply IH. tauto.
Qed.

Lemma collect_delete idx idx' id ids :
  keyedById sid idx -> NoDup ids ->
  sessions idx' = JsMap.delete (sessions idx) id ->
  collect idx' (JsSet.delete ids id)
  = filter (otherThan sid id) (collect idx ids).
Proof.
  intros Hk Hnd Hs. induction ids as [|x ids IH]; [reflexivity|].
  inversion Hnd as [|? ? Hx Hnd']; subst.
  cbn [JsSet.delete]. destruct (String.eqb_spec x id) as [->|Hne].
  - rewrite (collect_cons idx).
    rewrite (collect_delete_absent idx idx' id ids Hk Hs Hx).
    destruct (JsMap.get (sessions idx) id) as [s|] eqn:E; [|reflexivity].
    cbn [filter].
    assert (Ho : otherThan sid id s = false).
    { unfold otherThan. rewrite (keyed_get idx id s Hk E).
      now rewrite String.eqb_refl. }
    now rewrite Ho.
  - rewrite !collect_cons, Hs, get_delete_other by assumption.
    destruct (JsMap.get (sessions idx) x) as [s|] eqn:E.
    + cbn [filter].
      assert (Ho : otherThan sid id s = true).
      { apply otherThan_true. now rewrite (keyed_get idx x s Hk E). }
      rewrite Ho. f_equal. now apply IH.
    + now apply IH.
Qed.

Lemma collect_closeIn index idx id reason key :
  wellFormed idx -> keyedById sid idx ->
  NoDup (JsMap.keys index) -> NoDup (members index) ->
  (forall x, In x (members index) -> In x (JsMap.keys (sessions idx))) ->
  JsMap.get (sessions idx) id <> None ->
  match JsMap.get (removeFromIndex index id) key with
  | None => []
  | Some ids => collect (closeIn id reason idx) ids
  end
  = filter (otherThan sid id)
      match JsMap.get index key with
      | None => []
      | Some ids => collect idx ids
      end.
Proof.
  intros Hwf Hk Hnk Hnm Hsub Hsome.
  assert (Hs : sessions (closeIn id reason idx)
               = JsMap.delete (sessions idx) id).
  { unfold closeIn. now destruct (JsMap.get (sessions idx) id). }
  rewrite get_removeFromIndex by assumption.
  destruct (JsMap.get index key) as [ids|] eqn:Eg; [|reflexivity].
  assert (Hnd : NoDup ids).
  { apply get_In in Eg. now apply (bucket_NoDup index key). }
  destruct (JsSet.has ids id) eqn:Eh.
  - pose proof (collect_delete idx (closeIn id reason idx) id ids Hk Hnd Hs) as C.
    destruct (JsSet.size (JsSet.delete ids id) =? 0) eqn:Es; [|exact C].
    apply Nat.eqb_eq in Es. unfold JsSet.size in Es.
    apply length_zero_iff_nil in Es. now rewrite Es in C.
  - apply (collect_delete_absent idx (closeIn id reason idx) id ids Hk Hs).
    now apply mem_has_false.
Qed.

Lemma filter_closeIn_unknown idx id l :
  keyedById sid idx -> JsMap.get (sessions idx) id = None ->
  (forall s, In s l -> exists x, JsMap.get (sessions idx) x = Some s) ->
  filter (otherThan sid id) l = l.
Proof.
  intros Hk Hn H. apply filter_all. intros s Hs.
  destruct (H s Hs) as (x & Hx). apply otherThan_true.
  rewrite (keyed_get idx x s Hk Hx). congruence.
Qed.

Lemma getByBrowser_closeIn idx id reason browserId :
  wellFormed idx -> keyedById sid idx ->
  getByBrowser browserId (closeIn id reason idx)
  = filter (otherThan sid id) (getByBrowser browserId idx).
Proof.
  intros Hwf Hk. destruct (JsMap.get (sessions idx) id) as [s0|] eqn:E.
  - unfold getByBrowser at 1.
    replace (sessionsByBrowser (closeIn id reason idx))
      with (removeFromIndex (sessionsByBrowser idx) id)
      by (unfold closeIn; now rewrite E).
    apply collect_closeIn;
      [assumption | assumption | apply Hwf | apply Hwf
      | intros x; apply (wf_browserIds Hwf) | congruence].
  - assert (Ec : closeIn id reason idx = idx) by (unfold closeIn; now rewrite E).
    rewrite Ec. symmetry. apply (filter_closeIn_unknown idx id _ Hk E).
    intros s. unfold getByBrowser.
    destruct (JsMap.get (sessionsByBrowser idx) browserId); [|intros []].
    intros H. apply In_collect in H. destruct H as (x & _ & H). now exists x.
Qed.

Lemma getByDevice_closeIn idx id reason deviceId :
  wellFormed idx -> keyedById sid idx ->
  getByDevice deviceId (closeIn id reason idx)
  = filter (otherThan sid id) (getByDevice deviceId idx).
Proof.
  intros Hwf Hk. destruct (JsMap.get (sessions idx) id) as [s0|] eqn:E.
  - unfold getByDevice at 1.
    replace (sessionsByDevice (closeIn id reason idx))
      with (removeFromIndex (sessionsByDevice idx) id)
      by (unfold closeIn; now rewrite E).
    apply collect_closeIn;
      [assumption | assumption | apply Hwf | apply Hwf
      | intros x; apply (wf_deviceIds Hwf) | congruence].
  - assert (Ec : closeIn id reason idx = idx) by (unfold closeIn; now rewrite E).
    rewrite Ec. symmetry. apply (filter_closeIn_unknown idx id _ Hk E).
    intros s. unfold getByDevice.
    destruct (JsMap.get (sessionsByDevice idx) deviceId); [|intros []].
    intros H. apply In_collect in H. destruct H as (x & _ & H). now exists x.
Qed.

Lemma getIn_closeIn idx id reason id' :
  wellFormed idx ->
  getIn id' (closeIn id reason idx)
  = if String.eqb id' id then None else getIn id' idx.
Proof.
  intros Hwf. destruct (String.eqb_spec id' id) as [->|Hne].
  - now apply closeIn_closed.
  - unfold getIn, closeIn.
    destruct (JsMap.get (sessions idx) id); [|reflexivity].
    cbn [sessions]. now apply get_delete_other.
Qed.

Lemma closeIn_twice idx id reason reason' :
  wellFormed idx ->
  closeIn id reason' (closeIn id reason idx) = closeIn id reason idx.
Proof.
  intros Hwf. pose proof (closeIn_closed S id reason idx Hwf) as H.
  unfold getIn in H. unfold closeIn at 1. now rewrite H.
Qed.

(** *** Creation *)

Lemma createIn_inr mk bl al uuid deviceId browserId sessionId idx s idx' :
  createIn mk bl al uuid deviceId browserId sessionId idx = inr (s, idx') ->
  exists browserLookup agentLookup browserSocket agentSocket,
    bl = Some browserLookup /\ al = Some agentLookup /\
    browserLookup browserId = Some browserSocket /\
    agentLookup deviceId = Some agentSocket /\
    let id := match sessionId with Some i => i | None => uuid end in
    JsMap.has (sessions idx) id = false /\
    s = mk id browserSocket agentSocket /\
    idx' = {| sessions := JsMap.set (sessions idx) id s;
              sessionsByBrowser := addToIndex (sessionsByBrowser idx) browserId id;
              sessionsByDevice := addToIndex (sessionsByDevice idx) deviceId id |}.
Proof.
  unfold createIn. destruct bl as [bl|]; [|discriminate].
  destruct al as [al|]; [|discriminate].
  destruct (bl browserId) as [b|] eqn:Eb; [|discriminate].
  destruct (al deviceId) as [a|] eqn:Ea; [|discriminate].
  destruct (JsMap.has _ _) eqn:Eh; [discriminate|].
  intros E. inversion E; subst. exists bl, al, b, a. now repeat split.
Qed.

Lemma get_addToIndex index key id :
  exists ids, JsMap.get (addToIndex index key id) key = Some ids /\ In id ids.
Proof.
  destruct (addToIndex_cases index key id)
    as [[Hk ->]|(m1 & m2 & ids & E & Hk & ->)].
  - exists (JsSet.add JsSet.empty id). split; [now apply get_middle|].
    apply add_mem. now right.
  - exists (JsSet.add ids id). split; [now apply get_middle|].
    apply add_mem. now right.
Qed.

Lemma createIn_found mk bl al uuid deviceId browserId sessionId idx s idx' :
  createIn mk bl al uuid deviceId browserId sessionId idx = inr (s, idx') ->
  let id := match sessionId with Some i => i | None => uuid end in
  getIn id idx' = Some s
  /\ In s (getByBrowser browserId idx')
  /\ In s (getByDevice deviceId idx')
  /\ exists browserLookup agentLookup browserSocket agentSocket,
       bl = Some browserLookup /\ al = Some agentLookup /\
       browserLookup browserId = Some browserSocket /\
       agentLookup deviceId = Some agentSocket /\
       s = mk id browserSocket agentSocket.
Proof.
  intros H. cbv zeta. apply createIn_inr in H.
  destruct H as (bl' & al' & b & a & -> & -> & Hb & Ha & Hf & Hs & ->).
  set (id := match sessionId with Some i => i | None => uuid end) in *.
  assert (G : JsMap.get (JsMap.set (sessions idx) id s) id = Some s)
    by apply get_set_same.
  split; [exact G|]. split; [|split].
  - unfold getByBrowser. cbn [sessionsByBrowser].
    destruct (get_addToIndex (sessionsByBrowser idx) browserId id)
      as (ids & -> & Hin).
    apply In_collect. exists id. now split.
  - unfold getByDevice. cbn [sessionsByDevice].
    destruct (get_addToIndex (sessionsByDevice idx) deviceId id)
      as (ids & -> & Hin).
    apply In_collect. exists id. now split.
  - exists bl', al', b, a. now repeat split.
Qed.

Lemma createIn_closeIn mk bl al uuid deviceId browserId sessionId idx s idx'
      reason :
  (forall id b a, sid (mk id b a) = id) ->
  wellFormed idx -> tidy idx ->
  createIn mk bl al uuid deviceId browserId sessionId idx = inr (s, idx') ->
  closeIn (sid s) reason idx' = idx.
Proof.
  intros Hmk Hwf [Htb Htd] H. apply createIn_inr in H.
  destruct H as (bl' & al' & b & a & -> & -> & Hb & Ha & Hf & Hs & ->).
  set (id := match sessionId with Some i => i | None => uuid end) in *.
  assert (Hid : sid s = id) by (rewrite Hs; apply Hmk).
  rewrite Hid. apply has_false in Hf.
  unfold closeIn. cbn [sessions sessionsByBrowser sessionsByDevice].
  rewrite get_set_same, delete_set_fresh by assumption.
  rewrite !removeFromIndex_addToIndex; try assumption.
  - now destruct idx.
  - intros Hin. apply Hf. now apply (wf_deviceIds Hwf).
  - intros Hin. apply Hf. now apply (wf_browserIds Hwf).
Qed.

Lemma createIn_tidy mk bl al uuid deviceId browserId sessionId idx s idx' :
  tidy idx ->
  createIn mk bl al uuid deviceId browserId sessionId idx = inr (s, idx') ->
  tidy idx'.
Proof.
  intros [Hb Hd] H. apply createIn_inr in H.
  destruct H as (bl' & al' & b & a & -> & -> & _ & _ & _ & _ & ->).
  split; cbn [sessionsByBrowser sessionsByDevice]; now apply addToIndex_tidy.
Qed.

Lemma closeIn_tidy id reason idx : tidy idx -> tidy (closeIn id reason idx).
Proof.
  intros [Hb Hd]. unfold closeIn.
  destruct (JsMap.get (sessions idx) id); [|now split].
  split; cbn [sessionsByBrowser sessionsByDevice]; now apply removeFromIndex_tidy.
Qed.

(** *** Sessions are filed under their own device *)

Variable deviceOf : S -> string.

Lemma createIn_filed mk bl al uuid deviceId browserId sessionId idx s idx' :
  (forall id b a, deviceOf (mk id b a) = deviceId) ->
  filedByDevice deviceOf idx ->
  createIn mk bl al uuid deviceId browserId sessionId idx = inr (s, idx') ->
  filedByDevice deviceOf idx'.
Proof.
  intros Hmk Hf H. apply createIn_inr in H.
  destruct H as (bl' & al' & b & a & -> & -> & _ & _ & Hfresh & Hs & ->).
  set (id := match sessionId with Some i => i | None => uuid end) in *.
  apply has_false in Hfresh.
  intros d ids' x Hin Hx. cbn [sessions sessionsByDevice] in *.
  rewrite set_absent by assumption.
  assert (Old : forall ids, In (d, ids) (sessionsByDevice idx) -> In x ids ->
                exists session, In (x, session) (sessions idx ++ [(id, s)])
                                /\ deviceOf session = d).
  { intros ids H1 H2. destruct (Hf d ids x H1 H2) as (s' & H3 & H4).
    exists s'. split; [|assumption]. apply in_app_iff. now left. }
  assert (New : d = deviceId -> x = id ->
                exists session, In (x, session) (sessions idx ++ [(id, s)])
                                /\ deviceOf session = d).
  { intros -> ->. exists s. split; [apply in_app_iff; right; now left|].
    rewrite Hs. apply Hmk. }
  apply addToIndex_entries in Hin.
  destruct Hin as [Hin|[(-> & -> & _)|(-> & ids & Hin & ->)]].
  - now apply (Old ids').
  - destruct Hx as [<-|[]]. now apply New.
  - apply add_mem in Hx. destruct Hx as [Hx| ->].
    + now apply (Old ids).
    + now apply New.
Qed.

Lemma closeIn_filed id reason idx :
  wellFormed idx -> filedByDevice deviceOf idx ->
  filedByDevice deviceOf (closeIn id reason idx).
Proof.
  intros Hwf Hf. unfold closeIn.
  destruct (JsMap.get (sessions idx) id); [|assumption].
  intros d ids' x Hin Hx. cbn [sessions sessionsByDevice] in *.
  assert (Hne : x <> id).
  { pose proof (removeFromIndex_members (sessionsByDevice idx) id
                  (wf_deviceMembers Hwf)) as [_ Hm].
    apply (Hm x). now apply (bucket_members _ d ids'). }
  assert (Hold : exists ids, In (d, ids) (sessionsByDevice idx) /\ In x ids).
  { apply removeFromIndex_entries in Hin.
    destruct Hin as [Hin|(_ & ids & Hin & ->)]; [now exists ids'|].
    exists ids. split; [assumption|].
    apply (mem_delete ids id x); [|assumption].
    apply (bucket_NoDup (sessionsByDevice idx) d); [apply Hwf|assumption]. }
  destruct Hold as (ids & H1 & H2).
  destruct (Hf d ids x H1 H2) as (s' & H3 & H4).
  exists s'. split; [|assumption]. now apply In_delete_other.
Qed.

Lemma getByDevice_iff idx deviceId s :
  wellFormed idx -> keyedById sid idx -> filedByDevice deviceOf idx ->
  (In s (getByDevice deviceId idx) <->
   getIn (sid s) idx = Some s /\ deviceOf s = deviceId).
Proof.
  intros Hwf Hk Hf. unfold getByDevice, getIn. split.
  - destruct (JsMap.get (sessionsByDevice idx) deviceId) as [ids|] eqn:E;
      [|intros []].
    intros H. apply In_collect in H. destruct H as (x & Hx & Hg).
    pose proof (keyed_get idx x s Hk Hg) as Hid. rewrite Hid.
    split; [assumption|].
    apply get_In in E. destruct (Hf deviceId ids x E Hx) as (s' & H1 & H2).
    apply (In_get _ _ _ _ (wf_sessions Hwf)) in H1. congruence.
  - intros [Hg Hd].
    assert (Hin : In (sid s) (members (sessionsByDevice idx))).
    { apply (wf_deviceIds Hwf). now apply get_In_keys in Hg. }
    apply members_inBucket in Hin. destruct Hin as (d & ids & H1 & H2).
    destruct (Hf d ids (sid s) H1 H2) as (s' & H3 & H4).
    apply (In_get _ _ _ _ (wf_sessions Hwf)) in H3.
    assert (Ed : d = deviceId) by congruence. rewrite Ed in H1.
    apply (In_get _ _ _ _ (wf_deviceKeys Hwf)) in H1. rewrite H1.
    apply In_collect. exists (sid s). now split.
Qed.

Lemma key_has_session index idx key :
  NoDup (JsMap.keys index) -> noEmptyBuckets index ->
  (forall x, In x (members index) -> In x (JsMap.keys (sessions idx))) ->
  In key (JsMap.keys index) ->
  match JsMap.get index key with
  | None => []
  | Some ids => collect idx ids
  end <> [].
Proof.
  intros Hnk Ht Hsub Hin. apply keys_get in Hin. destruct Hin as (ids & Hg).
  rewrite Hg. pose proof (get_In _ _ _ _ Hg) as Hi.
  pose proof (Ht key ids Hi) as Hne. destruct ids as [|x ids]; [congruence|].
  assert (Hx : In x (JsMap.keys (sessions idx))).
  { apply Hsub. apply (bucket_members index key (x :: ids)); [assumption|].
    now left. }
  apply keys_get in Hx. destruct Hx as (s & Hs).
  rewrite collect_cons, Hs. discriminate.
Qed.

End Lookups.

(** *** After any sequence of calls *)

Lemma sound_empty (S : Type) (sid deviceOf : S -> string) :
  sound sid deviceOf (noSessions S).
Proof.
  split; [apply wellFormed_empty|]. split; [|split].
  - split; intros k ids [].
  - intros id s [].
  - intros d ids id [].
Qed.

Lemma createIn_sound (S : Type) (sid deviceOf : S -> string)
      mk bl al uuid deviceId browserId sessionId idx s idx' :
  (forall id b a, sid (mk id b a) = id) ->
  (forall id b a, deviceOf (mk id b a) = deviceId) ->
  sound sid deviceOf idx ->
  createIn mk bl al uuid deviceId browserId sessionId idx = inr (s, idx') ->
  sound sid deviceOf idx'.
Proof.
  intros H1 H2 (Hwf & Ht & Hk & Hf) E. split; [|split; [|split]].
  - eapply createIn_wellFormed; eauto.
  - eapply createIn_tidy; eauto.
  - eapply createIn_keyed; eauto.
  - eapply createIn_filed; eauto.
Qed.

Lemma closeIn_sound (S : Type) (sid deviceOf : S -> string) id reason idx :
  sound sid deviceOf idx -> sound sid deviceOf (closeIn id reason idx).
Proof.
  intros (Hwf & Ht & Hk & Hf). split; [|split; [|split]].
  - now apply closeIn_wellFormed.
  - now apply closeIn_tidy.
  - now apply closeIn_keyed.
  - now apply closeIn_filed.
Qed.

Lemma call_sound m c : soundManager m -> soundManager (call m c).
Proof.
  intros [Hs Hr]. destruct c; cbn [call].
  - unfold createSession.
    destruct (createIn _ _ _ _ _ _ _ _) as [e|[s idx]] eqn:E; [now split|].
    split; [|assumption].
    eapply (createIn_sound _ SSHSession.id SSHSession.deviceId);
      [| | exact Hs | exact E]; intros; reflexivity.
  - split; [|assumption]. now apply closeIn_sound.
  - unfold createRDPSession.
    destruct (createIn _ _ _ _ _ _ _ _) as [e|[s idx]] eqn:E; [now split|].
    split; [assumption|].
    eapply (createIn_sound _ RDPSession.id RDPSession.deviceId);
      [| | exact Hr | exact E]; intros; reflexivity.
  - split; [assumption|]. now apply closeIn_sound.
Qed.

Lemma calls_sound cs : soundManager (calls cs).
Proof.
  unfold calls.
  assert (G : forall m, soundManager m -> soundManager (fold_left call cs m)).
  { induction cs as [|c cs IH]; intros m Hm; [assumption|].
    cbn [fold_left]. apply IH. now apply call_sound. }
  apply G. split; apply sound_empty.
Qed.

Local Open Scope string_scope.
Local Open Scope list_scope.

(** X9. A session that [createSession] or [createRDPSession] returns is
    the record built from the two sockets the lookups gave, in state
    [connecting]; right after the call it is what [getSession] returns
    for its id, and it is among the sessions listed for its browser and
    among those listed for its device. *)
Theorem created_session_is_found
    (bl al : option SocketLookup) (now : Z) (uuid deviceId browserId : string)
    (sessionId : option string) :
  let id := match sessionId with Some i => i | None => uuid end in
  (forall idx s idx',
      createSession bl al now uuid deviceId browserId sessionId idx
      = inr (s, idx') ->
      getSession id idx' = Some s
      /\ In s (getSessionsByBrowser browserId idx')
      /\ In s (getSessionsByDevice deviceId idx')
      /\ exists browserLookup agentLookup browserSocket agentSocket,
           bl = Some browserLookup /\ al = Some agentLookup /\
           browserLookup browserId = Some browserSocket /\
           agentLookup deviceId = Some agentSocket /\
           s = newSSHSession now deviceId id browserSocket agentSocket)
  /\ (forall idx s idx',
      createRDPSession bl al now uuid deviceId browserId sessionId idx
      = inr (s, idx') ->
      getRDPSession id idx' = Some s
      /\ In s (getRDPSessionsByBrowser browserId idx')
      /\ In s (getRDPSessionsByDevice deviceId idx')
      /\ exists browserLookup agentLookup browserSocket agentSocket,
           bl = Some browserLookup /\ al = Some agentLookup /\
           browserLookup browserId = Some browserSocket /\
           agentLookup deviceId = Some agentSocket /\
           s = newRDPSession now deviceId id browserSocket agentSocket).
Proof.
  intros id. split; intros idx s idx' H.
  - exact (createIn_found _ _ _ _ _ _ _ _ _ _ _ H).
  - exact (createIn_found _ _ _ _ _ _ _ _ _ _ _ H).
Qed.

Lemma created_session_is_found_witness :
  let browsers := Some (fun b : string => if String.eqb b "b1" then Some 7 else None) in
  let agents := Some (fun d : string => if String.eqb d "pi-1" then Some 3 else None) in
  let idx := forSSH (calls [CreateSSH browsers agents 0 "u0" "pi-1" "b1" (Some "s0")]) in
  exists idx',
    createSession browsers agents 5 "u1" "pi-1" "b1" None idx
    = inr (newSSHSession 5 "pi-1" "u1" 7 3, idx')
    /\ getSession "u1" idx' = Some (newSSHSession 5 "pi-1" "u1" 7 3)
    /\ In (newSSHSession 5 "pi-1" "u1" 7 3) (getSessionsByBrowser "b1" idx')
    /\ In (newSSHSession 5 "pi-1" "u1" 7 3) (getSessionsByDevice "pi-1" idx').
Proof.
  intros browsers agents idx.
  destruct (createSession browsers agents 5 "u1" "pi-1" "b1" None idx)
    as [e|[s idx']] eqn:E; [discriminate E|].
  assert (Es : s = newSSHSession 5 "pi-1" "u1" 7 3)
    by (vm_compute in E; now inversion E).
  exists idx'. rewrite <- Es. split; [reflexivity|].
  destruct (created_session_is_found browsers agents 5 "u1" "pi-1" "b1" None)
    as [H _].
  destruct (H idx s idx' E) as (H1 & H2 & H3 & _). now repeat split.
Defined.

(** X10. Closing is idempotent: after any sequence of calls, closing a
    session that has just been closed changes nothing, whatever the
    reasons given, and the id is then unknown to [getSession]. *)
Theorem close_is_idempotent (cs : list Call) (id : string)
    (reason reason' : option string) :
  closeSession id reason' (closeSession id reason (forSSH (calls cs)))
  = closeSession id reason (forSSH (calls cs))
  /\ getSession id (closeSession id reason (forSSH (calls cs))) = None
  /\ closeRDPSession id reason' (closeRDPSession id reason (forRDP (calls cs)))
     = closeRDPSession id reason (forRDP (calls cs))
  /\ getRDPSession id (closeRDPSession id reason (forRDP (calls cs))) = None.
Proof.
  destruct (calls_wellFormed cs) as [Hs Hr].
  split; [|split; [|split]].
  - now apply closeIn_twice.
  - now apply closeIn_closed.
  - now apply closeIn_twice.
  - now apply closeIn_closed.
Qed.

(** X11. No bucket outlives its sessions: after any sequence of calls,
    every key that the by-browser or by-device index of either kind
    holds has at least one live session listed under it. *)
Theorem no_bucket_without_session (cs : list Call) (key : string) :
  (JsMap.has (sessionsByBrowser (forSSH (calls cs))) key = true ->
   getSessionsByBrowser key (forSSH (calls cs)) <> [])
  /\ (JsMap.has (sessionsByDevice (forSSH (calls cs))) key = true ->
      getSessionsByDevice key (forSSH (calls cs)) <> [])
  /\ (JsMap.has (sessionsByBrowser (forRDP (calls cs))) key = true ->
      getRDPSessionsByBrowser key (forRDP (calls cs)) <> [])
  /\ (JsMap.has (sessionsByDevice (forRDP (calls cs))) key = true ->
      getRDPSessionsByDevice key (forRDP (calls cs)) <> []).
Proof.
  destruct (calls_sound cs) as [(Hs & [Hsb Hsd] & _) (Hr & [Hrb Hrd] & _)].
  split; [|split; [|split]]; intros H; apply has_In in H.
  - apply key_has_session;
      [apply Hs | assumption | intros x; apply (wf_browserIds Hs) | assumption].
  - apply key_has_session;
      [apply Hs | assumption | intros x; apply (wf_deviceIds Hs) | assumption].
  - apply key_has_session;
      [apply Hr | assumption | intros x; apply (wf_browserIds Hr) | assumption].
  - apply key_has_session;
      [apply Hr | assumption | intros x; apply (wf_deviceIds Hr) | assumption].
Qed.

Lemma no_bucket_without_session_witness :
  let lookup := Some (fun _ : string => Some 1) in
  let cs := [CreateSSH lookup lookup 0 "u1" "pi-1" "b1" (Some "s1");
             CreateSSH lookup lookup 1 "u2" "pi-2" "b1" (Some "s2");
             CloseSSH "s1" None] in
  JsMap.has (sessionsByBrowser (forSSH (calls cs))) "b1" = true /\
  getSessionsByBrowser "b1" (forSSH (calls cs)) <> [] /\
  JsMap.has (sessionsByDevice (forSSH (calls cs))) "pi-1" = false.
Proof.
  intros lookup cs. split; [reflexivity|]. split; [|reflexivity].
  apply (no_bucket_without_session cs "b1"). reflexivity.
Defined.

(** X12. Creating a session and closing it again gives back the indexes
    exactly as they were, entry for entry and in the same order, from
    any state that a sequence of calls leaves. *)
Theorem create_then_close_restores (cs : list Call)
    (bl al : option SocketLookup) (now : Z) (uuid deviceId browserId : string)
    (sessionId reason : option string) :
  (forall s idx',
      createSession bl al now uuid deviceId browserId sessionId
        (forSSH (calls cs)) = inr (s, idx') ->
      closeSession (SSHSession.id s) reason idx' = forSSH (calls cs))
  /\ (forall s idx',
      createRDPSession bl al now uuid deviceId browserId sessionId
        (forRDP (calls cs)) = inr (s, idx') ->
      closeRDPSession (RDPSession.id s) reason idx' = forRDP (calls cs)).
Proof.
  destruct (calls_sound cs) as [(Hs & Hts & _) (Hr & Htr & _)].
  split; intros s idx' H.
  - unfold createSession in H.
    eapply (createIn_closeIn _ SSHSession.id); [|exact Hs|exact Hts|exact H].
    reflexivity.
  - unfold createRDPSession in H.
    eapply (createIn_closeIn _ RDPSession.id); [|exact Hr|exact Htr|exact H].
    reflexivity.
Qed.

Lemma create_then_close_restores_witness :
  let lookup := Some (fun _ : string => Some 1) in
  let cs := [CreateSSH lookup lookup 0 "u1" "pi-1" "b1" (Some "s1");
             CreateSSH lookup lookup 1 "u2" "pi-2" "b2" (Some "s2")] in
  exists s idx',
    createSession lookup lookup 2 "u3" "pi-1" "b2" None (forSSH (calls cs))
    = inr (s, idx')
    /\ idx' <> forSSH (calls cs)
    /\ closeSession (SSHSession.id s) (Some "done") idx' = forSSH (calls cs).
Proof.
  intros lookup cs.
  destruct (createSession lookup lookup 2 "u3" "pi-1" "b2" None
              (forSSH (calls cs))) as [e|[s idx']] eqn:E; [discriminate E|].
  exists s, idx'. split; [reflexivity|]. split.
  - vm_compute in E. inversion E. discriminate.
  - destruct (create_then_close_restores cs lookup lookup 2 "u3" "pi-1" "b2"
                None (Some "done")) as [H _].
    exact (H s idx' E).
Defined.

(** X13. Closing removes exactly the closed session: after any sequence
    of calls, the sessions listed for any browser and for any device
    after [closeSession id] are those listed before without the session
    of that id, in the same order, and [getSession] answers as before for
    every other id. *)
Theorem close_removes_only_that_session (cs : list Call) (id : string)
    (reason : option string) (key id' : string) :
  (getSessionsByBrowser key (closeSession id reason (forSSH (calls cs)))
   = filter (otherThan SSHSession.id id)
       (getSessionsByBrowser key (forSSH (calls cs)))
   /\ getSessionsByDevice key (closeSession id reason (forSSH (calls cs)))
      = filter (otherThan SSHSession.id id)
          (getSessionsByDevice key (forSSH (calls cs)))
   /\ getSession id' (closeSession id reason (forSSH (calls cs)))
      = if String.eqb id' id then None
        else getSession id' (forSSH (calls cs)))
  /\ (getRDPSessionsByBrowser key (closeRDPSession id reason (forRDP (calls cs)))
      = filter (otherThan RDPSession.id id)
          (getRDPSessionsByBrowser key (forRDP (calls cs)))
      /\ getRDPSessionsByDevice key (closeRDPSession id reason (forRDP (calls cs)))
         = filter (otherThan RDPSession.id id)
             (getRDPSessionsByDevice key (forRDP (calls cs)))
      /\ getRDPSession id' (closeRDPSession id reason (forRDP (calls cs)))
         = if String.eqb id' id then None
           else getRDPSession id' (forRDP (calls cs))).
Proof.
  destruct (calls_sound cs) as [(Hs & _ & Hks & _) (Hr & _ & Hkr & _)].
  split; (split; [|split]).
  - now apply getByBrowser_closeIn.
  - now apply getByDevice_closeIn.
  - now apply getIn_closeIn.
  - now apply getByBrowser_closeIn.
  - now apply getByDevice_closeIn.
  - now apply getIn_closeIn.
Qed.

(** X14. The by-device index is exact: after any sequence of calls, the
    sessions listed for a device are the live sessions whose [deviceId]
    is that device, no other and none missing. *)
Theorem device_lookup_exact (cs : list Call) (deviceId : string) :
  (forall s, In s (getSessionsByDevice deviceId (forSSH (calls cs))) <->
             getSession (SSHSession.id s) (forSSH (calls cs)) = Some s
             /\ SSHSession.deviceId s = deviceId)
  /\ (forall s, In s (getRDPSessionsByDevice deviceId (forRDP (calls cs))) <->
                getRDPSession (RDPSession.id s) (forRDP (calls cs)) = Some s
                /\ RDPSession.deviceId s = deviceId).
Proof.
  destruct (calls_sound cs) as [(Hs & _ & Hks & Hfs) (Hr & _ & Hkr & Hfr)].
  split; intros s.
  - now apply getByDevice_iff.
  - now apply getByDevice_iff.
Qed.

Lemma device_lookup_exact_witness :
  let lookup := Some (fun _ : string => Some 1) in
  let cs := [CreateSSH lookup lookup 0 "u1" "pi-1" "b1" (Some "s1");
             CreateSSH lookup lookup 1 "u2" "pi-2" "b1" (Some "s2");
             CreateSSH lookup lookup 2 "u3" "pi-1" "b2" (Some "s3");
             CloseSSH "s1" None] in
  In (newSSHSession 2 "pi-1" "s3" 1 1)
     (getSessionsByDevice "pi-1" (forSSH (calls cs)))
  /\ ~ In (newSSHSession 1 "pi-2" "s2" 1 1)
         (getSessionsByDevice "pi-1" (forSSH (calls cs))).
Proof.
  intros lookup cs.
  destruct (device_lookup_exact cs "pi-1") as [H _]. split.
  - apply H. split; reflexivity.
  - intros Hin. apply H in Hin. destruct Hin as [_ Hd]. discriminate Hd.
Defined.

End SessionManagerMoreProofs.

(* ===================================================================== *)
(** ** More on the relay                                                  *)
(* ===================================================================== *)

Module ServerMoreProofs.
Import Json Messages SessionManager SessionManagerMore Server Scenario.
Import ServerMore.
Import JsMapFacts SessionManagerProofs SessionManagerMoreProofs ServerProofs.
Local Open Scope string_scope.
Local Open Scope list_scope.
Local Open Scope relay_scope.

(** *** A second invariant *)

Section Keeps.
Variable P : State -> Prop.

Lemma keeps_ret (A : Type) (a : A) : keeps P (ret a).
Proof. intros st H. exact H. Qed.

Lemma keeps_gets (A : Type) (f : State -> A) : keeps P (gets f).
Proof. intros st H. exact H. Qed.

Lemma keeps_emit e : keeps P (emit e).
Proof. intros st H. exact H. Qed.

Lemma keeps_modify f : (forall st, P st -> P (f st)) -> keeps P (modify f).
Proof. intros Hf st H. now apply Hf. Qed.

Lemma keeps_bind (A B : Type) (c : M A) (k : A -> M B) :
  keeps P c -> (forall a, keeps P (k a)) -> keeps P (bind c k).
Proof.
  intros Hc Hk st H. unfold bind, stateOf.
  destruct (c st) as [[a st1] t1] eqn:E1.
  specialize (Hc st H). rewrite E1 in Hc. cbn in Hc.
  specialize (Hk a st1 Hc). unfold stateOf in Hk.
  now destruct (k a st1) as [[b st2] t2].
Qed.

Lemma keeps_forEach (A : Type) (xs : list A) (body : A -> M unit) :
  (forall x, keeps P (body x)) -> keeps P (forEach xs body).
Proof.
  intros Hb. induction xs as [|x xs IH]; cbn [forEach].
  - apply keeps_ret.
  - apply keeps_bind; auto.
Qed.
End Keeps.

Lemma Kept_initial : Kept initial.
Proof.
  constructor; cbn.
  - split; intros k ids [].
  - split; intros k ids [].
  - intros d info [].
  - constructor.
Qed.

Lemma Kept_withSockets table st : Kept st -> Kept (withSockets table st).
Proof. intros [? ? ? ?]. now constructor. Qed.

Lemma Kept_withBrowserConnections m st :
  NoDup (JsMap.keys m) -> Kept st -> Kept (withBrowserConnections m st).
Proof. intros ? [? ? ? ?]. now constructor. Qed.

Lemma Kept_withAgentConnections m st :
  registryKeyed m -> Kept st -> Kept (withAgentConnections m st).
Proof. intros ? [? ? ? ?]. now constructor. Qed.

Lemma registryKeyed_set m key info :
  registryKeyed m -> AgentConnectionInfo.deviceId info = key ->
  registryKeyed (JsMap.set m key info).
Proof.
  intros H E d i Hin. apply In_set in Hin. destruct Hin as [Hin|Hin].
  - now inversion Hin; subst.
  - now apply H.
Qed.

Lemma registryKeyed_delete m key :
  registryKeyed m -> registryKeyed (JsMap.delete m key).
Proof. intros H d i Hin. apply In_delete in Hin. now apply H. Qed.

Lemma registryKeyed_touch now key m :
  registryKeyed m -> registryKeyed (touch now key m).
Proof.
  intros H. unfold touch. destruct (JsMap.get m key) as [c|] eqn:E; [|exact H].
  apply registryKeyed_set; [exact H|]. apply get_In in E. cbn. now apply H.
Qed.

(** Solves [keeps Kept] goals along the structure of a handler. *)
Ltac kept_step :=
  first
    [ apply keeps_ret | apply keeps_gets | apply keeps_emit
    | apply keeps_bind; [|intros ?]
    | apply keeps_forEach; intros ?
    | apply keeps_modify; intros ? ?;
      first [ now apply Kept_withSockets
            | apply Kept_withBrowserConnections;
              [ first [ apply NoDup_keys_set | apply NoDup_keys_delete ];
                match goal with H : Kept _ |- _ => apply H end
              | assumption ]
            | apply Kept_withAgentConnections;
              [ first [ apply registryKeyed_set;
                        [match goal with H : Kept _ |- _ => apply H end
                        | reflexivity]
                      | apply registryKeyed_delete;
                        match goal with H : Kept _ |- _ => apply H end
                      | apply registryKeyed_touch;
                        match goal with H : Kept _ |- _ => apply H end ]
              | assumption ] ]
    | match goal with
      | |- keeps _ (match ?x with _ => _ end) => destruct x
      | |- keeps _ (if ?x then _ else _) => destruct x
      end ].
Ltac kept := repeat kept_step.

Lemma keeps_sendIfOpen s message : keeps Kept (sendIfOpen s message).
Proof. unfold sendIfOpen, socketSend. kept. Qed.

Lemma keeps_socketSend s message : keeps Kept (socketSend s message).
Proof. unfold socketSend. kept. Qed.

Lemma keeps_socketClose s code reason : keeps Kept (socketClose s code reason).
Proof. unfold socketClose. kept. Qed.

Lemma keeps_broadcast message : keeps Kept (broadcastToBrowsers message).
Proof. unfold broadcastToBrowsers. kept. Qed.

Lemma mutateSession_tidy (S : Type) key f (idx : Indexes S) :
  tidy idx -> tidy (mutateSession key f idx).
Proof. intros H. exact H. Qed.

Section ProxyKeeps.
Variable S : Type.
Variable K : SessionKind S.
Hypothesis more : ProxyLaws K.

Lemma keeps_onIndexes f :
  (forall idx, tidy idx -> tidy (f idx)) -> keeps Kept (onIndexes K f).
Proof.
  intros Hf. unfold onIndexes. apply keeps_modify. intros st H.
  apply (plaw_kept_set more); [assumption|].
  apply Hf. now apply (plaw_kept_get more).
Qed.

Lemma keeps_close sessionId reason : keeps Kept (close K sessionId reason).
Proof. apply keeps_onIndexes. intros idx. apply closeIn_tidy. Qed.

Lemma keeps_mutate key f : keeps Kept (onIndexes K (mutateSession key f)).
Proof. apply keeps_onIndexes. intros idx. apply mutateSession_tidy. Qed.

Lemma keeps_tryCreate now deviceId browser sessionId :
  keeps Kept (tryCreate K now deviceId browser sessionId).
Proof.
  intros st H. unfold tryCreate, stateOf.
  destruct (create K _ _ _ _ _ _ _ _) as [e|[session idx]] eqn:E; [exact H|].
  cbn. destruct (plaw_create more) as (mk & Hc & _). rewrite Hc in E.
  apply (plaw_kept_set more); [assumption|].
  eapply createIn_tidy; [|exact E]. now apply (plaw_kept_get more).
Qed.

Ltac proxy_kept :=
  repeat first
    [ apply keeps_sendIfOpen | apply keeps_close
    | apply keeps_mutate | apply keeps_tryCreate | kept_step ].

Lemma keeps_sessionRequest now payload browser socket :
  keeps Kept (handleSessionRequestFromBrowser K now payload browser socket).
Proof. unfold handleSessionRequestFromBrowser. proxy_kept. Qed.

Lemma keeps_sessionResponse now payload :
  keeps Kept (handleSessionResponseFromAgent K now payload).
Proof. unfold handleSessionResponseFromAgent. proxy_kept. Qed.

Lemma keeps_dataFromBrowser now payload :
  keeps Kept (handleDataFromBrowser K now payload).
Proof. unfold handleDataFromBrowser. proxy_kept. Qed.

Lemma keeps_dataFromAgent now payload :
  keeps Kept (handleDataFromAgent K now payload).
Proof. unfold handleDataFromAgent. proxy_kept. Qed.

Lemma keeps_handleClose now payload source :
  keeps Kept (handleClose K now payload source).
Proof. unfold handleClose. proxy_kept. Qed.

Lemma keeps_closeForBrowser now browser :
  keeps Kept (closeSessionsForBrowser K now browser).
Proof. unfold closeSessionsForBrowser. proxy_kept. Qed.

Lemma keeps_closeForAgent now deviceId :
  keeps Kept (closeSessionsForAgent K now deviceId).
Proof. unfold closeSessionsForAgent. proxy_kept. Qed.
End ProxyKeeps.

Lemma SSH_more : ProxyLaws SSH.
Proof.
  constructor.
  - exists newSSHSession. split; [reflexivity|]. intros. now repeat split.
  - intros st H. apply H.
  - intros st i [? ? ? ?] ?. constructor; cbn; assumption.
  - intros st. now destruct st.
  - reflexivity.
Qed.

Lemma RDP_more : ProxyLaws RDP.
Proof.
  constructor.
  - exists newRDPSession. split; [reflexivity|]. intros. now repeat split.
  - intros st H. apply H.
  - intros st i [? ? ? ?] ?. constructor; cbn; assumption.
  - intros st. now destruct st.
  - reflexivity.
Qed.

Lemma proxied_laws (S : Type) (K : SessionKind S) :
  proxied K -> KindLaws K /\ ProxyLaws K.
Proof.
  intros HK. destruct HK.
  - split; [apply SSH_laws | apply SSH_more].
  - split; [apply RDP_laws | apply RDP_more].
Qed.

Lemma keeps_resize now payload :
  keeps Kept (handleSshResizeFromBrowser now payload).
Proof.
  unfold handleSshResizeFromBrowser.
  repeat first [ apply (keeps_mutate _ _ SSH_more) | apply keeps_sendIfOpen
               | kept_step ].
Qed.

Lemma keeps_step now e : keeps Kept (step now e).
Proof.
  destruct e; cbn [step].
  - unfold handleConnection. kept.
  - unfold onAgentMessage, onBrowserMessage, dispatchAgent, dispatchBrowser,
        handleAgentRegister, handleAgentHeartbeat, replaceExisting,
        storeConnection, handleDeviceListRequest, handleCloseFromAgent,
        handleCloseFromBrowser;
      repeat first
        [ apply keeps_socketSend | apply keeps_socketClose
        | apply keeps_broadcast
        | apply (keeps_sessionRequest _ _ SSH_more)
        | apply (keeps_sessionRequest _ _ RDP_more)
        | apply (keeps_sessionResponse _ _ SSH_more)
        | apply (keeps_sessionResponse _ _ RDP_more)
        | apply keeps_dataFromBrowser
        | apply keeps_dataFromAgent
        | apply (keeps_handleClose _ _ SSH_more)
        | apply (keeps_handleClose _ _ RDP_more)
        | apply keeps_resize
        | kept_step ].
  - kept.
  - unfold onAgentClose, onBrowserClose;
      repeat first
        [ apply keeps_broadcast
        | apply (keeps_closeForBrowser _ _ SSH_more)
        | apply (keeps_closeForBrowser _ _ RDP_more)
        | apply (keeps_closeForAgent _ _ SSH_more)
        | apply (keeps_closeForAgent _ _ RDP_more)
        | kept_step ].
  - unfold cleanupStaleConnections. kept.
Qed.

Lemma run_Kept events : forall st, Kept st -> Kept (fst (run events st)).
Proof.
  induction events as [|[now e] events IH]; intros st H; [exact H|].
  cbn [run]. pose proof (keeps_step now e) as H1.
  specialize (H1 st H).
  unfold stateOf in H1. destruct (step now e st) as [[u st1] t1]. cbn in H1.
  specialize (IH st1 H1). now destruct (run events st1).
Qed.

Lemma reachable_Kept st : reachable st -> Kept st.
Proof. intros [events <-]. apply run_Kept, Kept_initial. Qed.

(** *** Routing *)

Lemma step_routed st s c now data message :
  connection (sockets st) s = Some c -> readyState c <> CLOSED ->
  parseMessage data = valid message ->
  isHandledMessageType (type message) = true ->
  step now (Message s data) st =
  match connectionType c with
  | agent =>
      dispatchAgent s (connectedAt c) now (type message) (payload message) st
  | browser =>
      dispatchBrowser s (browserId c) now (type message) (payload message) st
  end.
Proof.
  intros Hc Hr Hp Hh. rewrite (step_message st s c now data Hc Hr).
  unfold onAgentMessage, onBrowserMessage. rewrite Hp, Hh. reflexivity.
Qed.

Section Routes.
Variable S : Type.
Variable K : SessionKind S.
Hypothesis HK : proxied K.
Variables (socket : SocketId) (browserId : string) (connectedAt now : Z)
          (payload : option value).

Lemma handled_request :
  isHandledMessageType (kindName K ++ ":session:request") = true.
Proof. destruct HK; reflexivity. Qed.


Lemma handled_data : isHandledMessageType (kindName K ++ ":data") = true.
Proof. destruct HK; reflexivity. Qed.

Lemma route_request :
  dispatchBrowser socket browserId now (kindName K ++ ":session:request") payload
  = handleSessionRequestFromBrowser K now payload browserId socket.
Proof. destruct HK; reflexivity. Qed.


Lemma route_data_browser :
  dispatchBrowser socket browserId now (kindName K ++ ":data") payload
  = handleDataFromBrowser K now payload.
Proof. destruct HK; reflexivity. Qed.

Lemma route_data_agent :
  dispatchAgent socket connectedAt now (kindName K ++ ":data") payload
  = handleDataFromAgent K now payload.
Proof. destruct HK; reflexivity. Qed.
End Routes.

(** *** Data *)

Section ProxyData.
Variable S : Type.
Variable K : SessionKind S.

Lemma handleDataFromBrowser_run now payload d st :
  validateSshDataPayload payload = valid d ->
  handleDataFromBrowser K now payload st
  = (tt, st,
     match getIn (data_sessionId d) (indexes K st) with
     | None => []
     | Some session =>
         if isOpen st (sagentSocket K session)
         then [Send (sagentSocket K session)
                 (dataMessage K now (sid K session) (data_data d))]
         else []
     end).
Proof.
  intros H. unfold handleDataFromBrowser. rewrite H, bind_gets.
  destruct (getIn _ _); [apply sendIfOpen_run | reflexivity].
Qed.

Lemma handleDataFromAgent_run now payload d st :
  validateSshDataPayload payload = valid d ->
  handleDataFromAgent K now payload st
  = (tt, st,
     match getIn (data_sessionId d) (indexes K st) with
     | None => []
     | Some session =>
         if isOpen st (sbrowserSocket K session)
         then [Send (sbrowserSocket K session)
                 (dataMessage K now (sid K session) (data_data d))]
         else []
     end).
Proof.
  intros H. unfold handleDataFromAgent. rewrite H, bind_gets.
  destruct (getIn _ _); [apply sendIfOpen_run | reflexivity].
Qed.
End ProxyData.

(** X15. Data is relayed as it came: a valid [ssh:data] or [rdp:data]
    message for a live session leaves the state of the process as it is
    and sends one [data] message with the same session id and the same
    data to the other endpoint of the session, if that transport is
    open; for an id that names no live session of the kind nothing is
    sent, and no error goes back to the sender. *)
Theorem data_relayed_unchanged (S : Type) (K : SessionKind S)
    st s c now data message d :
  proxied K -> reachable st ->
  connection (sockets st) s = Some c -> readyState c <> CLOSED ->
  parseMessage data = valid message ->
  type message = (kindName K ++ ":data")%string ->
  validateSshDataPayload (payload message) = valid d ->
  step now (Message s data) st
  = (tt, st,
     match getIn (data_sessionId d) (indexes K st) with
     | None => []
     | Some session =>
         if isOpen st (opposite K (connectionType c) session)
         then [Send (opposite K (connectionType c) session)
                 (dataMessage K now (data_sessionId d) (data_data d))]
         else []
     end).
Proof.
  intros HK Hreach Hc Hr Hp Hty Hv.
  destruct (proxied_laws S K HK) as [laws _].
  apply reachable_Inv in Hreach.
  rewrite (step_routed st s c now data message Hc Hr Hp)
    by (rewrite Hty; now apply handled_data).
  rewrite Hty. unfold opposite. destruct (connectionType c).
  - rewrite (route_data_agent S K HK).
    rewrite (handleDataFromAgent_run S K now _ d st Hv).
    destruct (getIn _ _) as [session|] eqn:E; [|reflexivity].
    now rewrite (found_keyed S K laws st _ _ Hreach E).
  - rewrite (route_data_browser S K HK).
    rewrite (handleDataFromBrowser_run S K now _ d st Hv).
    destruct (getIn _ _) as [session|] eqn:E; [|reflexivity].
    now rewrite (found_keyed S K laws st _ _ Hreach E).
Qed.

Lemma data_relayed_unchanged_witness :
  step 7 (Message 2%nat (frame "ssh:data" [("sessionId", JString "s1");
                                           ("data", JString "ls")]))
    afterSessionOpened
  = (tt, afterSessionOpened, [Send 1%nat (dataMessage SSH 7 "s1" "ls")])
  /\ step 7 (Message 1%nat (frame "ssh:data" [("sessionId", JString "s1");
                                              ("data", JString "ok")]))
       afterSessionOpened
     = (tt, afterSessionOpened, [Send 2%nat (dataMessage SSH 7 "s1" "ok")])
  /\ step 7 (Message 2%nat (frame "rdp:data" [("sessionId", JString "s1");
                                              ("data", JString "ls")]))
       afterSessionOpened
     = (tt, afterSessionOpened, []).
Proof.
  assert (R : reachable afterSessionOpened) by apply reachable_run.
  assert (R1 : readyState agent1 <> CLOSED) by discriminate.
  assert (R2 : readyState browser2 <> CLOSED) by discriminate.
  split; [|split].
  - exact (data_relayed_unchanged _ SSH afterSessionOpened 2%nat browser2 7
             (frame "ssh:data" [("sessionId", JString "s1"); ("data", JString "ls")])
             {| type := "ssh:data"; timestamp := 1;
                payload := Some (JObject [("sessionId", JString "s1");
                                          ("data", JString "ls")]) |}
             {| data_sessionId := "s1"; data_data := "ls" |}
             proxied_SSH R eq_refl R2 eq_refl eq_refl eq_refl).
  - exact (data_relayed_unchanged _ SSH afterSessionOpened 1%nat agent1 7
             (frame "ssh:data" [("sessionId", JString "s1"); ("data", JString "ok")])
             {| type := "ssh:data"; timestamp := 1;
                payload := Some (JObject [("sessionId", JString "s1");
                                          ("data", JString "ok")]) |}
             {| data_sessionId := "s1"; data_data := "ok" |}
             proxied_SSH R eq_refl R1 eq_refl eq_refl eq_refl).
  - exact (data_relayed_unchanged _ RDP afterSessionOpened 2%nat browser2 7
             (frame "rdp:data" [("sessionId", JString "s1"); ("data", JString "ls")])
             {| type := "rdp:data"; timestamp := 1;
                payload := Some (JObject [("sessionId", JString "s1");
                                          ("data", JString "ls")]) |}
             {| data_sessionId := "s1"; data_data := "ls" |}
             proxied_RDP R eq_refl R2 eq_refl eq_refl eq_refl).
Defined.

(** *** Message types outside the switch *)

Ltac outside Hn :=
  repeat match goal with
    | |- context [String.eqb ?t ?lit] =>
        destruct (String.eqb_spec t lit) as [E|_];
        [ exfalso; apply Hn; rewrite E; cbn;
          repeat first [left; reflexivity | right]
        | ]
    end.

(** X16. A well-formed message whose type is not a [case] of the
    receiving role's [switch] is dropped without a trace: types the
    server does not know, types meant for the other role (a browser
    sending [agent:register], an agent sending [ssh:session:request] or
    [ssh:resize]), and [error].  The state is unchanged and nothing is
    sent, not even an error. *)
Theorem unrouted_message_ignored st s c now data message :
  connection (sockets st) s = Some c -> readyState c <> CLOSED ->
  parseMessage data = valid message ->
  ~ In (type message)
       match connectionType c with
       | agent => agentSwitch
       | browser => browserSwitch
       end ->
  step now (Message s data) st = (tt, st, []).
Proof.
  intros Hc Hr Hp Hn. rewrite (step_message st s c now data Hc Hr).
  unfold onAgentMessage, onBrowserMessage. rewrite Hp.
  destruct (isHandledMessageType (type message));
    [cbn [negb]|now destruct (connectionType c)].
  destruct (connectionType c).
  - unfold dispatchAgent. outside Hn. reflexivity.
  - unfold dispatchBrowser. outside Hn. reflexivity.
Qed.

Lemma unrouted_message_ignored_witness :
  step 7 (Message 2%nat (register "pi-9")) afterSessionOpened
  = (tt, afterSessionOpened, [])
  /\ step 7 (Message 1%nat
               (frame "ssh:resize" [("sessionId", JString "s1");
                                    ("cols", JNumber (Finite 1));
                                    ("rows", JNumber (Finite 1))]))
       afterSessionOpened
     = (tt, afterSessionOpened, []).
Proof.
  assert (R1 : readyState agent1 <> CLOSED) by discriminate.
  assert (R2 : readyState browser2 <> CLOSED) by discriminate.
  split.
  - apply (unrouted_message_ignored afterSessionOpened 2%nat browser2 7
             (frame "agent:register" (registerFields "pi-9"))
             {| type := "agent:register"; timestamp := 1;
                payload := Some (JObject (registerFields "pi-9")) |}
             eq_refl R2 eq_refl).
    cbn. intuition discriminate.
  - apply (unrouted_message_ignored afterSessionOpened 1%nat agent1 7
             (frame "ssh:resize" [("sessionId", JString "s1"); ("cols", JNumber (Finite 1)); ("rows", JNumber (Finite 1))])
             {| type := "ssh:resize"; timestamp := 1;
                payload := Some (JObject [("sessionId", JString "s1");
                                          ("cols", JNumber (Finite 1));
                                          ("rows", JNumber (Finite 1))]) |}
             eq_refl R1 eq_refl).
    cbn. intuition discriminate.
Defined.

(** *** Session requests *)


Lemma get_mutate (S : Type) (m : JsMap.t S) key f key' :
  JsMap.get (mutate m key f) key'
  = if String.eqb key' key then option_map f (JsMap.get m key)
    else JsMap.get m key'.
Proof.
  induction m as [|[k v] m IH]; cbn [mutate JsMap.get option_map].
  - now destruct (String.eqb key' key).
  - destruct (String.eqb_spec k key) as [->|Hk]; cbn [JsMap.get].
    + destruct (String.eqb_spec key key') as [->|Hne].
      * now rewrite String.eqb_refl.
      * destruct (String.eqb_spec key' key); [congruence|reflexivity].
    + destruct (String.eqb_spec k key') as [->|Hne].
      * destruct (String.eqb_spec key' key); [congruence|reflexivity].
      * exact IH.
Qed.




Section ProxySessions.
Variable S : Type.
Variable K : SessionKind S.
Hypothesis laws : KindLaws K.
Hypothesis more : ProxyLaws K.

Lemma bind_tryCreate_inl (B : Type) now deviceId browser sessionId
      (k : CreateError + S -> M B) st e :
  create K (Some (getBrowserSocket st)) (Some (getAgentSocket st)) now ""
    deviceId browser (Some sessionId) (indexes K st) = inl e ->
  bind (tryCreate K now deviceId browser sessionId) k st = k (inl e) st.
Proof.
  intros H. unfold bind, tryCreate. rewrite H.
  now destruct (k (inl e) st) as [[b st2] t2].
Qed.

Lemma bind_tryCreate_inr (B : Type) now deviceId browser sessionId
      (k : CreateError + S -> M B) st session idx :
  create K (Some (getBrowserSocket st)) (Some (getAgentSocket st)) now ""
    deviceId browser (Some sessionId) (indexes K st) = inr (session, idx) ->
  bind (tryCreate K now deviceId browser sessionId) k st
  = k (inr session) (withIndexes K idx st).
Proof.
  intros H. unfold bind, tryCreate. rewrite H.
  now destruct (k (inr session) (withIndexes K idx st)) as [[b st2] t2].
Qed.

Lemma create_refused now deviceId browser sessionId st :
  getBrowserSocket st browser = None
  \/ getAgentSocket st deviceId = None
  \/ getIn sessionId (indexes K st) <> None ->
  exists e,
    create K (Some (getBrowserSocket st)) (Some (getAgentSocket st)) now ""
      deviceId browser (Some sessionId) (indexes K st) = inl e.
Proof.
  intros H. destruct (plaw_create more) as (mk & Hc & _). rewrite Hc.
  unfold createIn.
  destruct (getBrowserSocket st browser) as [b|]; [|eauto].
  destruct (getAgentSocket st deviceId) as [a|]; [|eauto].
  unfold JsMap.has. unfold getIn in H.
  destruct (JsMap.get (sessions (indexes K st)) sessionId); [eauto|].
  exfalso. destruct H as [H|[H|H]]; congruence.
Qed.

Lemma create_accepted now deviceId browser sessionId st b a :
  getBrowserSocket st browser = Some b ->
  getAgentSocket st deviceId = Some a ->
  getIn sessionId (indexes K st) = None ->
  exists session idx,
    create K (Some (getBrowserSocket st)) (Some (getAgentSocket st)) now ""
      deviceId browser (Some sessionId) (indexes K st) = inr (session, idx)
    /\ sid K session = sessionId /\ sdeviceId K session = deviceId
    /\ sbrowserSocket K session = b /\ sagentSocket K session = a
    /\ getIn sessionId idx = Some session
    /\ In session (getByBrowser browser idx)
    /\ In session (getByDevice deviceId idx)
    /\ forall reason, wellFormed (indexes K st) -> tidy (indexes K st) ->
         closeIn sessionId reason idx = indexes K st.
Proof.
  intros Hb Ha Hn. destruct (plaw_create more) as (mk & Hc & Hmk).
  destruct (createIn (mk now deviceId) (Some (getBrowserSocket st))
              (Some (getAgentSocket st)) "" deviceId browser (Some sessionId)
              (indexes K st)) as [e|[session idx]] eqn:E.
  - exfalso. unfold createIn in E. rewrite Hb, Ha in E.
    unfold JsMap.has in E. unfold getIn in Hn. rewrite Hn in E. discriminate.
  - exists session, idx. rewrite Hc. split; [exact E|].
    destruct (createIn_found _ _ _ _ _ _ _ _ _ _ _ E)
      as (H1 & H2 & H3 & bl & al & b' & a' & Ebl & Eal & Eb & Ea & Es).
    inversion Ebl; subst bl. inversion Eal; subst al.
    assert (b' = b) by congruence. assert (a' = a) by congruence. subst b' a'.
    destruct (Hmk now deviceId sessionId b a) as (M1 & M2 & M3 & M4).
    rewrite <- Es in M1, M2, M3, M4.
    repeat (split; [assumption|]).
    intros reason Hwf Ht. rewrite <- M1 at 1.
    apply (createIn_closeIn S (sid K) (mk now deviceId) _ _ _ _ _ _ _ _ _
             reason (fun id b a => proj1 (Hmk now deviceId id b a)) Hwf Ht E).
Qed.

Lemma handleSessionRequest_refused now payload browser socket req st :
  validateSshSessionRequestPayload payload = valid req ->
  getBrowserSocket st browser = None
  \/ getAgentSocket st (req_deviceId req) = None
  \/ getIn (req_sessionId req) (indexes K st) <> None ->
  handleSessionRequestFromBrowser K now payload browser socket st
  = (tt, st, if isOpen st socket then [Send socket (createFailed K now)] else []).
Proof.
  intros Hv Hcond. unfold handleSessionRequestFromBrowser. rewrite Hv.
  destruct (create_refused now _ browser _ st Hcond) as [e He].
  rewrite (bind_tryCreate_inl _ _ _ _ _ _ _ _ He).
  apply sendIfOpen_run.
Qed.

Lemma handleSessionRequest_accepted now payload browser socket req st b a :
  Inv st -> Kept st ->
  validateSshSessionRequestPayload payload = valid req ->
  getBrowserSocket st browser = Some b ->
  getAgentSocket st (req_deviceId req) = Some a ->
  getIn (req_sessionId req) (indexes K st) = None ->
  exists session idx,
    sid K session = req_sessionId req /\ sdeviceId K session = req_deviceId req
    /\ sbrowserSocket K session = b /\ sagentSocket K session = a
    /\ getIn (req_sessionId req) idx = Some session
    /\ In session (getByBrowser browser idx)
    /\ In session (getByDevice (req_deviceId req) idx)
    /\ handleSessionRequestFromBrowser K now payload browser socket st
       = if isOpen st a
         then (tt, withIndexes K idx st,
               [Send a (sessionRequest K now (req_deviceId req)
                          (req_sessionId req))])
         else (tt, st,
               if isOpen st socket
               then [Send socket (agentUnavailable K now)] else []).
Proof.
  intros Hinv Hkept Hv Hb Ha Hn.
  destruct (create_accepted now _ browser _ st b a Hb Ha Hn)
    as (session & idx & Hc & M1 & M2 & M3 & M4 & G1 & G2 & G3 & Hback).
  exists session, idx. repeat (split; [assumption|]).
  unfold handleSessionRequestFromBrowser. rewrite Hv.
  rewrite (bind_tryCreate_inr _ _ _ _ _ _ _ _ _ Hc).
  rewrite bind_gets, (isOpen_withIndexes S K laws), M4.
  destruct (isOpen st a) eqn:Eo; cbn [negb].
  - rewrite sendIfOpen_run, (isOpen_withIndexes S K laws), Eo, M1, M2.
    reflexivity.
  - unfold close, onIndexes. rewrite bind_modify.
    rewrite (law_get_set laws), (plaw_twice more), M1.
    rewrite Hback;
      [|apply (law_inv_get laws Hinv)|apply (plaw_kept_get more Hkept)].
    rewrite (plaw_same more). apply sendIfOpen_run.
Qed.

(** *** Session responses *)


End ProxySessions.

(** X17. A session request that cannot be served is refused and leaves
    no trace: when the browser has no entry in [browserConnections], or
    the device is not registered, or a live session of the kind already
    has the requested id, the state of the process stays as it is and
    the browser is sent [<KIND>_SESSION_CREATE_FAILED], if its transport
    is open.  Nothing is sent to any agent. *)
Theorem session_request_refused (S : Type) (K : SessionKind S)
    st s c now data message req :
  proxied K ->
  connection (sockets st) s = Some c -> readyState c <> CLOSED ->
  connectionType c = browser ->
  parseMessage data = valid message ->
  type message = (kindName K ++ ":session:request")%string ->
  validateSshSessionRequestPayload (payload message) = valid req ->
  getBrowserSocket st (browserId c) = None
  \/ getAgentSocket st (req_deviceId req) = None
  \/ getIn (req_sessionId req) (indexes K st) <> None ->
  step now (Message s data) st
  = (tt, st, if isOpen st s then [Send s (createFailed K now)] else []).
Proof.
  intros HK Hc Hr Hb Hp Hty Hv Hcond.
  destruct (proxied_laws S K HK) as [laws more].
  rewrite (step_routed st s c now data message Hc Hr Hp)
    by (rewrite Hty; now apply handled_request).
  rewrite Hb, Hty, (route_request S K HK).
  eapply handleSessionRequest_refused; eassumption.
Qed.

Lemma session_request_refused_witness :
  step 7 (Message 2%nat
            (frame "ssh:session:request"
               [("deviceId", JString "pi-9"); ("sessionId", JString "s2")]))
    afterSessionOpened
  = (tt, afterSessionOpened, [Send 2%nat (createFailed SSH 7)])
  /\ step 7 (Message 2%nat
               (frame "ssh:session:request"
                  [("deviceId", JString "pi-1"); ("sessionId", JString "s1")]))
       afterSessionOpened
     = (tt, afterSessionOpened, [Send 2%nat (createFailed SSH 7)]).
Proof.
  assert (R2 : readyState browser2 <> CLOSED) by discriminate.
  split.
  - apply (session_request_refused _ SSH afterSessionOpened 2%nat browser2 7
             (frame "ssh:session:request"
                [("deviceId", JString "pi-9"); ("sessionId", JString "s2")])
             {| type := "ssh:session:request"; timestamp := 1;
                payload := Some (JObject [("deviceId", JString "pi-9");
                                          ("sessionId", JString "s2")]) |}
             {| req_deviceId := "pi-9"; req_sessionId := "s2" |}
             proxied_SSH eq_refl R2 eq_refl eq_refl eq_refl eq_refl).
    right; left. reflexivity.
  - apply (session_request_refused _ SSH afterSessionOpened 2%nat browser2 7
             (frame "ssh:session:request"
                [("deviceId", JString "pi-1"); ("sessionId", JString "s1")])
             {| type := "ssh:session:request"; timestamp := 1;
                payload := Some (JObject [("deviceId", JString "pi-1");
                                          ("sessionId", JString "s1")]) |}
             {| req_deviceId := "pi-1"; req_sessionId := "s1" |}
             proxied_SSH eq_refl R2 eq_refl eq_refl eq_refl eq_refl).
    right; right. discriminate.
Defined.

(** X18. A session request that can be served, for a registered device,
    from a browser with an entry in [browserConnections], with an id no
    live session of the kind has: if the agent's transport is open, a
    session with the requested id, that device, and the two sockets the
    registries give is created, indexed under the browser and under the
    device, and the request is forwarded to the agent; if the agent's
    transport is not open, the session is created and closed again, the
    state of the process ends exactly as it was, and the browser is sent
    [<KIND>_AGENT_UNAVAILABLE], if its transport is open. *)
Theorem session_request_accepted (S : Type) (K : SessionKind S)
    st s c now data message req b a :
  proxied K -> reachable st ->
  connection (sockets st) s = Some c -> readyState c <> CLOSED ->
  connectionType c = browser ->
  parseMessage data = valid message ->
  type message = (kindName K ++ ":session:request")%string ->
  validateSshSessionRequestPayload (payload message) = valid req ->
  getBrowserSocket st (browserId c) = Some b ->
  getAgentSocket st (req_deviceId req) = Some a ->
  getIn (req_sessionId req) (indexes K st) = None ->
  exists session idx,
    sid K session = req_sessionId req /\ sdeviceId K session = req_deviceId req
    /\ sbrowserSocket K session = b /\ sagentSocket K session = a
    /\ getIn (req_sessionId req) idx = Some session
    /\ In session (getByBrowser (browserId c) idx)
    /\ In session (getByDevice (req_deviceId req) idx)
    /\ step now (Message s data) st
       = if isOpen st a
         then (tt, withIndexes K idx st,
               [Send a (sessionRequest K now (req_deviceId req)
                          (req_sessionId req))])
         else (tt, st,
               if isOpen st s then [Send s (agentUnavailable K now)] else []).
Proof.
  intros HK Hreach Hc Hr Hb Hp Hty Hv Hbs Has Hn.
  destruct (proxied_laws S K HK) as [laws more].
  rewrite (step_routed st s c now data message Hc Hr Hp)
    by (rewrite Hty; now apply handled_request).
  rewrite Hb, Hty, (route_request S K HK).
  eapply handleSessionRequest_accepted; try eassumption.
  - now apply reachable_Inv.
  - now apply reachable_Kept.
Qed.

Lemma session_request_accepted_witness :
  step 7 (Message 2%nat
            (frame "rdp:session:request"
               [("deviceId", JString "pi-1"); ("sessionId", JString "s1")]))
    afterSessionOpened
  = (tt,
     withRdpIndexes
       {| sessions := [("s1", newRDPSession 7 "pi-1" "s1" 2 1)];
          sessionsByBrowser := [("b1", ["s1"])];
          sessionsByDevice := [("pi-1", ["s1"])] |} afterSessionOpened,
     [Send 1%nat (sessionRequest RDP 7 "pi-1" "s1")])
  /\ (exists session,
        getRDPSession "s1"
          (rdpIndexes
             (stateOf
                (step 7 (Message 2%nat
                           (frame "rdp:session:request"
                              [("deviceId", JString "pi-1");
                               ("sessionId", JString "s1")]))
                   afterSessionOpened))) = Some session
        /\ RDPSession.agentSocket session = 1%nat
        /\ RDPSession.browserSocket session = 2%nat)
  /\ step 7 (Message 2%nat
               (frame "ssh:session:request"
                  [("deviceId", JString "pi-1"); ("sessionId", JString "s2")]))
       afterAgentClosing
     = (tt, afterAgentClosing, [Send 2%nat (agentUnavailable SSH 7)]).
Proof.
  assert (R2 : readyState browser2 <> CLOSED) by discriminate.
  split; [reflexivity|]. split.
  - destruct (session_request_accepted _ RDP afterSessionOpened 2%nat browser2 7
                (frame "rdp:session:request"
                   [("deviceId", JString "pi-1"); ("sessionId", JString "s1")])
                {| type := "rdp:session:request"; timestamp := 1;
                   payload := Some (JObject [("deviceId", JString "pi-1");
                                             ("sessionId", JString "s1")]) |}
                {| req_deviceId := "pi-1"; req_sessionId := "s1" |} 2%nat 1%nat
                proxied_RDP (reachable_run sessionOpened)
                eq_refl R2 eq_refl eq_refl eq_refl eq_refl eq_refl eq_refl
                eq_refl)
      as (session & idx & _ & _ & Hb & Ha & Hg & _ & _ & H).
    exists session. rewrite H. now repeat split.
  - destruct (session_request_accepted _ SSH afterAgentClosing 2%nat browser2 7
                (frame "ssh:session:request"
                   [("deviceId", JString "pi-1"); ("sessionId", JString "s2")])
                {| type := "ssh:session:request"; timestamp := 1;
                   payload := Some (JObject [("deviceId", JString "pi-1");
                                             ("sessionId", JString "s2")]) |}
                {| req_deviceId := "pi-1"; req_sessionId := "s2" |} 2%nat 1%nat
                proxied_SSH (reachable_run agentClosing)
                eq_refl R2 eq_refl eq_refl eq_refl eq_refl eq_refl eq_refl
                eq_refl)
      as (session & idx & _ & _ & _ & _ & _ & _ & _ & H).
    exact H.
Defined.



(** *** Resizing *)

(** X20. A valid [ssh:resize] for a live terminal session stores the new
    size in that session, leaves every other session as it is, and
    forwards the request with the same id and numbers to the session's
    agent, if that transport is open; the numbers are not range-checked.
    For an id that names no live session nothing happens. *)
Theorem resize_applied st s c now data message r :
  reachable st ->
  connection (sockets st) s = Some c -> readyState c <> CLOSED ->
  connectionType c = browser ->
  parseMessage data = valid message -> type message = "ssh:resize" ->
  validateSshResizePayload (payload message) = valid r ->
  (getSession (resize_sessionId r) (sshIndexes st) = None ->
   step now (Message s data) st = (tt, st, []))
  /\ (forall session,
        getSession (resize_sessionId r) (sshIndexes st) = Some session ->
        let st' := stateOf (step now (Message s data) st) in
        traceOf (step now (Message s data) st)
        = (if isOpen st (SSHSession.agentSocket session)
           then [Send (SSHSession.agentSocket session)
                   (resizeMessage now (resize_sessionId r) (resize_cols r)
                      (resize_rows r))]
           else [])
        /\ getSession (resize_sessionId r) (sshIndexes st')
           = Some (sshWithTerminalSize
                     {| cols := resize_cols r; rows := resize_rows r |} session)
        /\ (forall id, id <> resize_sessionId r ->
              getSession id (sshIndexes st') = getSession id (sshIndexes st))
        /\ sessionsByBrowser (sshIndexes st') = sessionsByBrowser (sshIndexes st)
        /\ sessionsByDevice (sshIndexes st') = sessionsByDevice (sshIndexes st)
        /\ rdpIndexes st' = rdpIndexes st
        /\ agentConnections st' = agentConnections st
        /\ sockets st' = sockets st).
Proof.
  intros Hreach Hc Hr Hb Hp Hty Hv.
  pose proof (reachable_Inv Hreach) as Hinv.
  rewrite (step_routed st s c now data message Hc Hr Hp)
    by (rewrite Hty; reflexivity).
  rewrite Hb, Hty.
  change (dispatchBrowser s (browserId c) now "ssh:resize" (payload message))
    with (handleSshResizeFromBrowser now (payload message)).
  unfold handleSshResizeFromBrowser. rewrite Hv, bind_gets. split.
  - now intros ->.
  - intros session Hf. rewrite Hf. unfold onIndexes.
    rewrite bind_modify, sendIfOpen_run.
    pose proof (found_keyed _ SSH SSH_laws st _ _ Hinv Hf) as Hid.
    change (SSHSession.id session = resize_sessionId r) in Hid. rewrite Hid.
    cbv zeta. unfold stateOf, traceOf. cbn [fst snd].
    split; [reflexivity|]. split; [|split; [|now repeat split]].
    + unfold getSession, getIn in *. cbn. now rewrite get_mutate, String.eqb_refl, Hf.
    + intros id Hne. unfold getSession, getIn. cbn. rewrite get_mutate.
      destruct (String.eqb_spec id (resize_sessionId r)); [congruence|reflexivity].
Qed.

Lemma resize_applied_witness :
  let r := step 7 (Message 2%nat
                     (frame "ssh:resize" [("sessionId", JString "s1");
                                          ("cols", JNumber (Finite 132));
                                          ("rows", JNumber (Finite (-1)))]))
             afterSessionOpened in
  traceOf r = [Send 1%nat (resizeMessage 7 "s1" 132 (-1))]
  /\ option_map SSHSession.terminalSize (getSession "s1" (sshIndexes (stateOf r)))
     = Some {| cols := 132; rows := -1 |}.
Proof.
  assert (R2 : readyState browser2 <> CLOSED) by discriminate.
  destruct (resize_applied afterSessionOpened 2%nat browser2 7
              (frame "ssh:resize" [("sessionId", JString "s1");
                                   ("cols", JNumber (Finite 132));
                                   ("rows", JNumber (Finite (-1)))])
              {| type := "ssh:resize"; timestamp := 1;
                 payload := Some (JObject [("sessionId", JString "s1");
                                           ("cols", JNumber (Finite 132));
                                           ("rows", JNumber (Finite (-1)))]) |}
              {| resize_sessionId := "s1"; resize_cols := 132;
                 resize_rows := -1 |}
              (reachable_run sessionOpened) eq_refl R2 eq_refl eq_refl eq_refl
              eq_refl) as [_ H].
  destruct (H (newSSHSession 3 "pi-1" "s1" 2 1) eq_refl) as (H1 & H2 & _).
  cbv zeta. split; [exact H1|].
  cbv zeta in H2. cbn [resize_sessionId] in H2.
  exact (f_equal (option_map SSHSession.terminalSize) H2).
Defined.

(** *** The registry *)

Lemma forEach_sendIfOpen (A : Type) (target : A -> SocketId) message xs st :
  forEach xs (fun x => sendIfOpen (target x) message) st
  = (tt, st,
     flat_map (fun x => if isOpen st (target x)
                        then [Send (target x) message] else []) xs).
Proof.
  induction xs as [|x xs IH]; [reflexivity|]. cbn [forEach flat_map].
  unfold bind. rewrite sendIfOpen_run, IH. reflexivity.
Qed.

Lemma broadcast_run message st :
  broadcastToBrowsers message st
  = (tt, st,
     flat_map (fun b => if isOpen st (BrowserConnectionInfo.socket b)
                        then [Send (BrowserConnectionInfo.socket b) message]
                        else [])
       (JsMap.values (browserConnections st))).
Proof.
  unfold broadcastToBrowsers. rewrite bind_gets. apply forEach_sendIfOpen.
Qed.

Lemma connection_updateConnection table s' f s :
  connection (updateConnection table s' f) s
  = if Nat.eqb s s' then option_map f (connection table s)
    else connection table s.
Proof.
  induction table as [|[x c] table IH]; cbn [updateConnection connection].
  - now destruct (Nat.eqb s s').
  - destruct (Nat.eqb_spec x s') as [->|Hx]; cbn [connection].
    + destruct (Nat.eqb_spec s' s) as [->|Hs].
      * now rewrite Nat.eqb_refl.
      * destruct (Nat.eqb_spec s s'); [congruence|reflexivity].
    + destruct (Nat.eqb_spec x s) as [->|Hs].
      * destruct (Nat.eqb_spec s s'); [congruence|reflexivity].
      * exact IH.
Qed.

Lemma socketClose_run s code reason st :
  socketClose s code reason st
  = (tt,
     withSockets
       (updateConnection (sockets st) s
          (fun c => match readyState c with
                    | OPEN => withReadyState CLOSING c
                    | _ => c
                    end)) st,
     [Close s code reason]).
Proof. reflexivity. Qed.

Lemma storeConnection_run socket data connectedAt now st :
  let info :=
    {| AgentConnectionInfo.socket := socket;
       AgentConnectionInfo.deviceId := reg_deviceId data;
       AgentConnectionInfo.deviceName := reg_deviceName data;
       AgentConnectionInfo.ipAddress := reg_ipAddress data;
       AgentConnectionInfo.capabilities := reg_capabilities data;
       AgentConnectionInfo.connectedAt := connectedAt;
       AgentConnectionInfo.lastHeartbeat := now |} in
  let st1 := withAgentConnections
               (JsMap.set (agentConnections st) (reg_deviceId data) info) st in
  let st2 := withSockets
               (updateConnection (sockets st1) socket
                  (withRegisteredDeviceId (Some (reg_deviceId data)))) st1 in
  storeConnection socket data connectedAt now st
  = (tt, st2,
     Send socket (registerAck now true (reg_deviceId data) None)
     :: traceOf (broadcastToBrowsers
                   (deviceListMessage now (getDeviceList st2)) st2)).
Proof.
  cbv zeta. unfold storeConnection, socketSend.
  rewrite !bind_modify, bind_emit, bind_gets, broadcast_run. reflexivity.
Qed.

Lemma isStale_fresh now t info :
  (t - now <= STALE_THRESHOLD_MS)%Z ->
  isStale t (updateLastHeartbeat now info) = false.
Proof.
  intros H. unfold isStale. cbn [AgentConnectionInfo.lastHeartbeat
                                   updateLastHeartbeat].
  apply Z.ltb_ge. exact H.
Qed.

Lemma registerAck_wire now deviceId :
  registerAck now true deviceId None
  = wire "agent:register:ack" now
      [("success", JBool true); ("deviceId", JString deviceId)].
Proof. reflexivity. Qed.

Lemma stringify_deviceJson d : stringify (deviceJson d) = deviceJson d.
Proof.
  unfold deviceJson, capabilitiesJson.
  now destruct (rdp (item_capabilities d)).
Qed.

Lemma deviceListMessage_wire now st :
  deviceListMessage now (getDeviceList st)
  = wire "devices:list:response" now
      [("devices", JArray (map listedDevice (agentConnections st)))].
Proof.
  unfold deviceListMessage, createMessageString, getDeviceList, wire.
  cbn. rewrite !map_map.
  do 8 f_equal. apply f_equal. apply map_ext. intros [deviceId info].
  rewrite stringify_deviceJson.
  unfold deviceJson, capabilitiesJson, listedDevice.
  cbn [item_id item_name item_ipAddress item_status item_capabilities
       statusString fst snd].
  now destruct (rdp (AgentConnectionInfo.capabilities info)).
Qed.

(** X21. A valid registration makes the device known at once: right
    after it [getDevice] reports the device [online] with the registered
    name, address and capabilities, last seen at the time of the
    registration; the registry gives the registering transport as the
    agent's socket; the device is in the list sent to browsers; the
    transport remembers the device id for its close handler and is sent
    an [agent:register:ack] with [success] true and the device id, and
    every browser whose transport is open is sent a
    [devices:list:response] whose [devices] are the agents then
    connected, each with its id, name, address, the status [online] and
    its capabilities. *)
Theorem registered_device_is_listed st s c now data message reg :
  connection (sockets st) s = Some c -> readyState c <> CLOSED ->
  connectionType c = agent ->
  parseMessage data = valid message -> type message = "agent:register" ->
  validateAgentRegisterPayload (payload message) = valid reg ->
  let r := step now (Message s data) st in
  let st' := stateOf r in
  getDevice now (reg_deviceId reg) st'
  = Some (registeredDevice reg (connectedAt c) now)
  /\ getAgentSocket st' (reg_deviceId reg) = Some s
  /\ In {| item_id := reg_deviceId reg; item_name := reg_deviceName reg;
           item_ipAddress := reg_ipAddress reg; item_status := online;
           item_capabilities := reg_capabilities reg |} (getDeviceList st')
  /\ option_map registeredDeviceId (connection (sockets st') s)
     = Some (Some (reg_deviceId reg))
  /\ In (Send s (JObject
                   [("type", JString "agent:register:ack");
                    ("timestamp", JNumber (Finite now));
                    ("payload",
                     JObject [("success", JBool true);
                              ("deviceId", JString (reg_deviceId reg))])]))
        (traceOf r)
  /\ (forall b,
        In b (JsMap.values (browserConnections st')) ->
        isOpen st' (BrowserConnectionInfo.socket b) = true ->
        In (Send (BrowserConnectionInfo.socket b)
              (JObject
                 [("type", JString "devices:list:response");
                  ("timestamp", JNumber (Finite now));
                  ("payload",
                   JObject [("devices",
                             JArray (map listedDevice (agentConnections st')))])]))
           (traceOf r)).
Proof.
  intros Hc Hr Ha Hp Hty Hv.
  rewrite (step_routed st s c now data message Hc Hr Hp)
    by (rewrite Hty; reflexivity).
  rewrite Ha, Hty.
  change (dispatchAgent s (connectedAt c) now "agent:register" (payload message))
    with (handleAgentRegister s (payload message) (connectedAt c) now).
  rewrite (handleAgentRegister_run s _ (connectedAt c) now reg st Hv).
  set (st0 := stateOf (replaceExisting (reg_deviceId reg) st)).
  assert (Hs0 : exists c0, connection (sockets st0) s = Some c0).
  { subst st0. unfold replaceExisting. rewrite bind_gets.
    destruct (JsMap.get (agentConnections st) (reg_deviceId reg)) as [old|];
      [|now exists c].
    rewrite socketClose_run. unfold stateOf. cbn [fst snd withSockets sockets].
    rewrite connection_updateConnection, Hc.
    destruct (Nat.eqb s (AgentConnectionInfo.socket old)); cbn [option_map];
      eauto. }
  destruct Hs0 as [c0 Hc0].
  pose proof (storeConnection_run s reg (connectedAt c) now st0) as Hrun.
  cbv zeta in Hrun. cbv zeta. unfold stateOf at 1 2 3 4 5 6, traceOf at 1 2.
  cbn [fst snd]. rewrite Hrun. unfold stateOf, traceOf. cbn [fst snd].
  set (info := {| AgentConnectionInfo.socket := s;
                  AgentConnectionInfo.deviceId := reg_deviceId reg;
                  AgentConnectionInfo.deviceName := reg_deviceName reg;
                  AgentConnectionInfo.ipAddress := reg_ipAddress reg;
                  AgentConnectionInfo.capabilities := reg_capabilities reg;
                  AgentConnectionInfo.connectedAt := connectedAt c;
                  AgentConnectionInfo.lastHeartbeat := now |}) in *.
  split; [|split; [|split; [|split; [|split]]]].
  - unfold getDevice. cbn [agentConnections withSockets withAgentConnections].
    rewrite get_set_same. cbn [option_map]. f_equal.
    unfold deviceOf, registeredDevice, isStale. cbn.
    rewrite Z.sub_diag. reflexivity.
  - unfold getAgentSocket. cbn [agentConnections withSockets withAgentConnections].
    now rewrite get_set_same.
  - unfold getDeviceList. cbn [agentConnections withSockets withAgentConnections].
    apply in_map_iff. exists (reg_deviceId reg, info). split; [reflexivity|].
    apply get_In, get_set_same.
  - cbn [sockets withSockets withAgentConnections].
    rewrite connection_updateConnection, Nat.eqb_refl, Hc0. reflexivity.
  - apply in_or_app. right. left. now rewrite registerAck_wire.
  - intros b Hb Ho. apply in_or_app. right. apply in_cons.
    rewrite broadcast_run. cbn [snd].
    apply in_flat_map. exists b. split; [exact Hb|]. rewrite Ho. left.
    now rewrite deviceListMessage_wire.
Qed.

Lemma registered_device_is_listed_witness :
  let r := step 9 (Message 3%nat (register "pi-2")) afterSecondAgentConnected in
  getDevice 9 "pi-2" (stateOf r)
  = Some {| dev_id := "pi-2"; dev_name := "Pi"; dev_ipAddress := "10.0.0.1";
            dev_status := online;
            dev_capabilities := {| ssh := true; rdp := Some true |};
            dev_lastSeen := 9; dev_connectedAt := 4 |}
  /\ getAgentSocket (stateOf r) "pi-2" = Some 3%nat
  /\ In (Send 3%nat
           (wire "agent:register:ack" 9
              [("success", JBool true); ("deviceId", JString "pi-2")]))
        (traceOf r)
  /\ In (Send 2%nat
           (wire "devices:list:response" 9
              [("devices",
                JArray
                  [JObject [("id", JString "pi-1"); ("name", JString "Pi");
                            ("ipAddress", JString "10.0.0.1");
                            ("status", JString "online");
                            ("capabilities",
                             JObject [("ssh", JBool true);
                                      ("rdp", JBool true)])];
                   JObject [("id", JString "pi-2"); ("name", JString "Pi");
                            ("ipAddress", JString "10.0.0.1");
                            ("status", JString "online");
                            ("capabilities",
                             JObject [("ssh", JBool true);
                                      ("rdp", JBool true)])]])]))
        (traceOf r).
Proof.
  pose (c3 := {| readyState := OPEN; connectionType := agent; connectedAt := 4;
                 registeredDeviceId := None; browserId := "" |}).
  assert (R3 : readyState c3 <> CLOSED) by discriminate.
  destruct (registered_device_is_listed afterSecondAgentConnected 3%nat c3 9
              (register "pi-2")
              {| type := "agent:register"; timestamp := 1;
                 payload := Some (JObject (registerFields "pi-2")) |}
              {| reg_deviceId := "pi-2"; reg_deviceName := "Pi";
                 reg_ipAddress := "10.0.0.1";
                 reg_capabilities := {| ssh := true; rdp := Some true |} |}
              eq_refl R3 eq_refl eq_refl eq_refl eq_refl)
    as (H1 & H2 & _ & _ & H5 & H6).
  cbv zeta. split; [exact H1|]. split; [exact H2|]. split; [exact H5|].
  apply (H6 {| BrowserConnectionInfo.id := "b1";
               BrowserConnectionInfo.socket := 2%nat;
               BrowserConnectionInfo.connectedAt := 2 |}).
  - now left.
  - reflexivity.
Defined.

(** *** The sweep *)

Lemma closeLoop_state stale : forall st,
  exists table,
    stateOf (forEach stale
               (fun entry : string * AgentConnectionInfo.t =>
                  socketClose (AgentConnectionInfo.socket (snd entry)) 1000
                    "Stale connection") st)
    = withSockets table st.
Proof.
  induction stale as [|e stale IH]; intros st.
  - exists (sockets st). now destruct st.
  - cbn [forEach]. unfold bind. rewrite socketClose_run.
    match goal with |- context [forEach stale ?body ?st1] =>
      destruct (IH st1) as [table Ht];
      destruct (forEach stale body st1) as [[u st2] t2] end.
    unfold stateOf in *. cbn [fst snd] in *. exists table. now rewrite Ht.
Qed.

Lemma deleteAll_state stale : forall st,
  fold_left (fun st (entry : string * AgentConnectionInfo.t) =>
               withAgentConnections
                 (JsMap.delete (agentConnections st) (fst entry)) st)
    stale st
  = withAgentConnections (deleteKeys stale (agentConnections st)) st.
Proof.
  induction stale as [|e stale IH]; intros st; cbn [fold_left deleteKeys].
  - now destruct st.
  - rewrite IH. reflexivity.
Qed.

Lemma deleteKeys_cons l : forall k v m,
  (forall e, In e l -> fst e <> k) ->
  deleteKeys l ((k, v) :: m) = (k, v) :: deleteKeys l m.
Proof.
  induction l as [|e l IH]; intros k v m H; [reflexivity|].
  unfold deleteKeys. cbn [fold_left JsMap.delete].
  destruct (String.eqb_spec k (fst e)) as [E|_].
  - exfalso. apply (H e); [now left|congruence].
  - apply IH. intros e' He'. apply H. now right.
Qed.

Lemma deleteKeys_filter p m :
  NoDup (JsMap.keys m) ->
  deleteKeys (filter p m) m = filter (fun e => negb (p e)) m.
Proof.
  induction m as [|[k v] m IH]; [reflexivity|].
  cbn [JsMap.keys map fst]. intros H. inversion H as [|? ? Hk Hm]; subst.
  cbn [filter]. destruct (p (k, v)); cbn [negb].
  - unfold deleteKeys. cbn [fold_left JsMap.delete fst].
    rewrite String.eqb_refl. now apply IH.
  - rewrite deleteKeys_cons.
    + f_equal. now apply IH.
    + intros e He. apply filter_In in He. destruct He as [He _].
      intros E. apply Hk. rewrite <- E. now apply in_map.
Qed.

Lemma cleanup_run now st :
  NoDup (JsMap.keys (agentConnections st)) ->
  exists table,
    cleanupStaleConnections now st
    = (tt,
       withAgentConnections
         (filter (fun e => negb (isStale now (snd e))) (agentConnections st))
         (withSockets table st),
       map (fun entry : string * AgentConnectionInfo.t =>
              Close (AgentConnectionInfo.socket (snd entry)) 1000
                "Stale connection") (staleEntries now st)).
Proof.
  intros Hnd. unfold cleanupStaleConnections. rewrite bind_gets.
  destruct (closeLoop_run (staleEntries now st) st) as [Hrun Hag].
  destruct (closeLoop_state (staleEntries now st) st) as [table Ht].
  exists table. unfold bind at 1. rewrite Hrun, Ht, deleteLoop_run.
  rewrite deleteAll_state, app_nil_r. cbn [agentConnections withSockets].
  unfold staleEntries at 1. now rewrite deleteKeys_filter.
Qed.

Lemma filter_none (A : Type) (p : A -> bool) l :
  filter p (filter (fun x => negb (p x)) l) = [].
Proof.
  induction l as [|x l IH]; [reflexivity|]. cbn [filter].
  destruct (p x) eqn:E; cbn [negb filter]; [exact IH|]. now rewrite E.
Qed.

Lemma get_filter (V : Type) (p : string * V -> bool) m k v :
  JsMap.get m k = Some v -> p (k, v) = true ->
  JsMap.get (filter p m) k = Some v.
Proof.
  induction m as [|[k' v'] m IH]; [discriminate|]. cbn [JsMap.get filter].
  destruct (String.eqb_spec k' k) as [->|Hne].
  - intros E Hp. inversion E; subst. rewrite Hp. cbn [JsMap.get].
    now rewrite String.eqb_refl.
  - intros E Hp. destruct (p (k', v')); [cbn [JsMap.get]|now apply IH].
    destruct (String.eqb_spec k' k); [congruence|now apply IH].
Qed.

(** X22. The sweep removes exactly the stale connections: each
    registered agent whose last heartbeat is more than 90 s old has its
    transport closed with code 1000 and reason "Stale connection", in
    registry order, and is removed from the registry; every other entry
    stays, unchanged and in place.  The sweep touches no session and no
    browser, and sends nothing.  A second sweep at the same time does
    nothing. *)
Theorem sweep_evicts_exactly_stale st now :
  reachable st ->
  let r := step now CleanupTick st in
  traceOf r
  = map (fun entry : string * AgentConnectionInfo.t =>
           Close (AgentConnectionInfo.socket (snd entry)) 1000
             "Stale connection")
      (filter (fun entry => isStale now (snd entry)) (agentConnections st))
  /\ agentConnections (stateOf r)
     = filter (fun entry => negb (isStale now (snd entry))) (agentConnections st)
  /\ sshIndexes (stateOf r) = sshIndexes st
  /\ rdpIndexes (stateOf r) = rdpIndexes st
  /\ browserConnections (stateOf r) = browserConnections st
  /\ step now CleanupTick (stateOf r) = (tt, stateOf r, []).
Proof.
  intros Hreach. apply reachable_Inv in Hreach.
  destruct (cleanup_run now st (inv_agents Hreach)) as [table Hrun].
  cbv zeta. cbn [step]. rewrite Hrun. unfold stateOf, traceOf. cbn [fst snd].
  repeat (split; [reflexivity|]).
  unfold cleanupStaleConnections. rewrite bind_gets.
  unfold staleEntries. cbn [agentConnections withAgentConnections].
  now rewrite (filter_none _ (fun e : string * AgentConnectionInfo.t =>
                               isStale now (snd e))).
Qed.

Lemma sweep_evicts_exactly_stale_witness :
  traceOf (step 100000 CleanupTick afterSessionOpened)
  = [Close 1%nat 1000 "Stale connection"]
  /\ agentConnections (stateOf (step 100000 CleanupTick afterSessionOpened)) = []
  /\ getSession "s1"
       (sshIndexes (stateOf (step 100000 CleanupTick afterSessionOpened)))
     = Some (newSSHSession 3 "pi-1" "s1" 2 1)
  /\ agentConnections (stateOf (step 90001 CleanupTick afterSessionOpened))
     = agentConnections afterSessionOpened.
Proof.
  destruct (sweep_evicts_exactly_stale afterSessionOpened 100000
              (reachable_run sessionOpened)) as (H1 & H2 & H3 & _).
  destruct (sweep_evicts_exactly_stale afterSessionOpened 90001
              (reachable_run sessionOpened)) as (_ & H2' & _).
  split; [exact H1|]. split; [exact H2|]. split; [now rewrite H3|exact H2'].
Defined.

(** X23. A heartbeat keeps a registered device alive for 90 s: after a
    valid heartbeat at time [now] naming a registered device, whichever
    agent transport sent it, at every time up to [now + 90000] the
    registry reports the device [online], last seen at [now], and a
    sweep run then leaves its entry in the registry. *)
Theorem heartbeat_keeps_device_online st s c now data message deviceId info t :
  reachable st ->
  connection (sockets st) s = Some c -> readyState c <> CLOSED ->
  connectionType c = agent ->
  parseMessage data = valid message -> type message = "agent:heartbeat" ->
  validateAgentHeartbeatPayload (payload message) = valid deviceId ->
  JsMap.get (agentConnections st) deviceId = Some info ->
  (t - now <= STALE_THRESHOLD_MS)%Z ->
  let st' := stateOf (step now (Message s data) st) in
  getDevice t deviceId st' = Some (deviceOf t (updateLastHeartbeat now info))
  /\ dev_status (deviceOf t (updateLastHeartbeat now info)) = online
  /\ dev_lastSeen (deviceOf t (updateLastHeartbeat now info)) = now
  /\ JsMap.get (agentConnections (stateOf (step t CleanupTick st'))) deviceId
     = Some (updateLastHeartbeat now info).
Proof.
  intros Hreach Hc Hr Ha Hp Hty Hv Hg Ht.
  apply reachable_Inv in Hreach.
  rewrite (step_routed st s c now data message Hc Hr Hp)
    by (rewrite Hty; reflexivity).
  rewrite Ha, Hty.
  change (dispatchAgent s (connectedAt c) now "agent:heartbeat" (payload message))
    with (handleAgentHeartbeat s (payload message) now).
  unfold handleAgentHeartbeat, socketSend. rewrite Hv, bind_modify.
  cbv zeta. unfold stateOf at 1 2. cbn [emit fst snd].
  set (st' := withAgentConnections (touch now deviceId (agentConnections st)) st).
  assert (Hg' : JsMap.get (agentConnections st') deviceId
                = Some (updateLastHeartbeat now info)).
  { subst st'. cbn [agentConnections withAgentConnections]. unfold touch.
    rewrite Hg. apply get_set_same. }
  pose proof (isStale_fresh now t info Ht) as Hfresh.
  split; [|split; [|split]].
  - unfold getDevice. now rewrite Hg'.
  - unfold deviceOf. cbn [dev_status]. now rewrite Hfresh.
  - reflexivity.
  - assert (Hnd : NoDup (JsMap.keys (agentConnections st'))).
    { subst st'. cbn [agentConnections withAgentConnections].
      apply touch_keys, Hreach. }
    destruct (cleanup_run t st' Hnd) as [table Hrun].
    cbn [step].
    change (stateOf (emit (Send s (heartbeatAck now)) st')) with st'.
    rewrite Hrun. unfold stateOf. cbn [fst snd].
    cbn [agentConnections withAgentConnections].
    apply get_filter; [exact Hg'|]. cbn [snd]. now rewrite Hfresh.
Qed.

Lemma heartbeat_keeps_device_online_witness :
  let st' := stateOf (step 50000
                        (Message 1%nat
                           (frame "agent:heartbeat" [("deviceId", JString "pi-1")]))
                        afterSessionOpened) in
  option_map dev_status (getDevice 100000 "pi-1" afterSessionOpened)
  = Some offline
  /\ option_map dev_status (getDevice 100000 "pi-1" st') = Some online
  /\ getAgentSocket (stateOf (step 140000 CleanupTick st')) "pi-1" = Some 1%nat.
Proof.
  assert (R1 : readyState agent1 <> CLOSED) by discriminate.
  assert (G : exists info,
             JsMap.get (agentConnections afterSessionOpened) "pi-1" = Some info
             /\ AgentConnectionInfo.socket info = 1%nat).
  { eexists. split; reflexivity. }
  destruct G as (info & G & Hs).
  pose proof (fun t H =>
    heartbeat_keeps_device_online afterSessionOpened 1%nat agent1 50000
      (frame "agent:heartbeat" [("deviceId", JString "pi-1")])
      {| type := "agent:heartbeat"; timestamp := 1;
         payload := Some (JObject [("deviceId", JString "pi-1")]) |}
      "pi-1" info t (reachable_run sessionOpened) eq_refl R1 eq_refl eq_refl
      eq_refl eq_refl G H) as K.
  cbv zeta in K. cbv zeta. split; [reflexivity|]. split.
  - destruct (K 100000%Z ltac:(discriminate)) as (H1 & H2 & _).
    rewrite H1. cbn [option_map]. now rewrite H2.
  - destruct (K 140000%Z ltac:(discriminate)) as (_ & _ & _ & H4).
    unfold getAgentSocket. rewrite H4. cbn [option_map]. now rewrite <- Hs.
Defined.

(** X24. The counts of [getRegistryStats] are consistent: the total is
    the number of registry entries, the online count is the number of
    devices [getOnlineDevices] returns, offline is the rest, and
    [getOnlineDevices] is [getAllDevices] restricted to status
    [online]. *)
Theorem registry_stats_consistent now st :
  getRegistryStats now st
  = (length (agentConnections st), length (getOnlineDevices now st),
     length (agentConnections st) - length (getOnlineDevices now st))
  /\ length (getOnlineDevices now st) <= length (agentConnections st)
  /\ getOnlineDevices now st
     = filter (fun d => match dev_status d with
                        | online => true
                        | offline => false
                        end) (getAllDevices now st).
Proof.
  assert (E : getOnlineDevices now st
              = filter (fun d => match dev_status d with
                                 | online => true
                                 | offline => false
                                 end) (getAllDevices now st)).
  { unfold getOnlineDevices, getAllDevices.
    induction (JsMap.values (agentConnections st)) as [|x l IH]; [reflexivity|].
    cbn [map filter].
    assert (Hx : match dev_status (deviceOf now x) with
                 | online => true
                 | offline => false
                 end = negb (isStale now x)).
    { unfold deviceOf. cbn [dev_status]. now destruct (isStale now x). }
    rewrite Hx. destruct (negb (isStale now x)); cbn [map]; now rewrite IH. }
  split; [|split; [|exact E]].
  - unfold getRegistryStats. rewrite <- E.
    unfold getAllDevices, JsMap.values. now rewrite !length_map.
  - rewrite E. unfold getAllDevices, JsMap.values.
    etransitivity; [apply filter_length_le|]. now rewrite !length_map.
Qed.

(** X25. The two device lists name the same devices: in every state of
    the process, the list sent to browsers and [getAllDevices] of the
    registry give the same devices in the same order, with the same id,
    name, address and capabilities, each device id once, the registry's
    keys; they differ in the status alone. *)
Theorem device_lists_agree st now :
  reachable st ->
  map (fun i => (item_id i, item_name i, item_ipAddress i, item_capabilities i))
    (getDeviceList st)
  = map (fun d => (dev_id d, dev_name d, dev_ipAddress d, dev_capabilities d))
      (getAllDevices now st)
  /\ map item_id (getDeviceList st) = JsMap.keys (agentConnections st)
  /\ NoDup (map item_id (getDeviceList st)).
Proof.
  intros Hreach. pose proof (reachable_Inv Hreach) as Hinv.
  pose proof (kept_registry (reachable_Kept st Hreach)) as Hk.
  assert (E : map item_id (getDeviceList st) = JsMap.keys (agentConnections st)).
  { unfold getDeviceList, JsMap.keys. rewrite map_map. apply map_ext.
    now intros [k v]. }
  split; [|split; [exact E|rewrite E; apply Hinv]].
  unfold getDeviceList, getAllDevices, JsMap.values. rewrite !map_map.
  apply map_ext_in. intros [k v] Hin. cbn. now rewrite (Hk k v Hin).
Qed.

Lemma device_lists_agree_witness :
  map item_id (getDeviceList afterAgentReplaced) = ["pi-1"]
  /\ map dev_id (getAllDevices 100000 afterAgentReplaced) = ["pi-1"]
  /\ NoDup (map item_id (getDeviceList afterAgentReplaced)).
Proof.
  destruct (device_lists_agree afterAgentReplaced 100000
              (reachable_run agentReplaced)) as (H1 & H2 & H3).
  split; [exact H2|]. split; [|exact H3].
  apply (f_equal (map (fun x => fst (fst (fst x))))) in H1.
  rewrite !map_map in H1. cbn [fst] in H1.
  etransitivity; [symmetry; exact H1 | exact H2].
Defined.

(** *** Closing an agent's transport *)

Lemma closeAll_agents (S : Type) (K : SessionKind S) (laws : KindLaws K)
      reason found : forall st,
  agentConnections (closeAll K reason found st) = agentConnections st.
Proof.
  induction found as [|x found IH]; intros st; [reflexivity|].
  unfold closeAll in *. cbn [fold_left]. rewrite IH. apply (law_agents laws).
Qed.

(** X26. The close of an agent's transport unregisters the device id
    that transport registered last, whichever transport the registry
    holds for that id at that moment: the close handler deletes by
    device id and does not compare sockets.  After it the device is
    unknown to [getDevice] and absent from the device list. *)
Theorem agent_close_unregisters_device st s c now deviceId :
  reachable st ->
  connection (sockets st) s = Some c -> readyState c <> CLOSED ->
  connectionType c = agent -> registeredDeviceId c = Some deviceId ->
  let st' := stateOf (step now (Closed s) st) in
  getAgentSocket st' deviceId = None
  /\ getDevice now deviceId st' = None
  /\ ~ In deviceId (map item_id (getDeviceList st')).
Proof.
  intros Hreach Hc Hr Ha Hd. pose proof (reachable_Inv Hreach) as Hinv.
  cbv zeta. rewrite (step_closed st s c now Hc Hr), Ha, Hd.
  pose proof (onAgentClose_run now deviceId (markClosed s st)) as Hrun.
  cbv zeta in Hrun. rewrite Hrun. unfold stateOf. cbn [fst snd].
  unfold getAgentSocket, getDevice, getDeviceList.
  cbn [agentConnections withAgentConnections].
  rewrite (closeAll_agents _ RDP RDP_laws), (closeAll_agents _ SSH SSH_laws).
  cbn [agentConnections markClosed withSockets].
  assert (G : JsMap.get (JsMap.delete (agentConnections st) deviceId) deviceId
              = None) by (apply get_delete_same, Hinv).
  rewrite G. split; [reflexivity|]. split; [reflexivity|].
  rewrite map_map. apply get_None in G. intros Hin. apply G.
  unfold JsMap.keys. erewrite map_ext; [exact Hin|]. now intros [k v].
Qed.

Lemma agent_close_unregisters_device_witness :
  getAgentSocket afterAgentReplaced "pi-1" = Some 3%nat
  /\ getAgentSocket (stateOf (step 7 (Closed 1%nat) afterAgentReplaced)) "pi-1"
     = None.
Proof.
  split; [reflexivity|].
  pose (c1 := {| readyState := CLOSING; connectionType := agent;
                 connectedAt := 0; registeredDeviceId := Some "pi-1";
                 browserId := "" |}).
  assert (R1 : readyState c1 <> CLOSED) by discriminate.
  apply (agent_close_unregisters_device afterAgentReplaced 1%nat c1 7 "pi-1"
           (reachable_run agentReplaced) eq_refl R1 eq_refl eq_refl).
Defined.

(** *** Connecting and disconnecting *)

Lemma connection_app table table' s :
  connection (table ++ table') s
  = match connection table s with
    | Some c => Some c
    | None => connection table' s
    end.
Proof.
  induction table as [|[x c] table IH]; [reflexivity|].
  rewrite <- app_comm_cons. cbn [connection].
  now destruct (Nat.eqb x s).
Qed.

Lemma closeAll_browsers (S : Type) (K : SessionKind S) (laws : KindLaws K)
      reason found : forall st,
  browserConnections (closeAll K reason found st) = browserConnections st.
Proof.
  induction found as [|x found IH]; intros st; [reflexivity|].
  unfold closeAll in *. cbn [fold_left]. rewrite IH. apply (law_browsers laws).
Qed.

(** X30. The life of a transport in the server's tables: accepting a new
    transport sends nothing and touches no session and no registered
    agent; a browser is entered in [browserConnections] under its id with
    its socket, an agent is entered nowhere until it registers.  When a
    browser's transport has closed, its id is gone from
    [browserConnections], so a later session request under that id is
    refused. *)
Theorem connection_life_cycle st s now :
  reachable st ->
  (forall ty uuid,
      connection (sockets st) s = None ->
      let r := step now (Connected s ty uuid) st in
      traceOf r = []
      /\ isOpen (stateOf r) s = true
      /\ agentConnections (stateOf r) = agentConnections st
      /\ sshIndexes (stateOf r) = sshIndexes st
      /\ rdpIndexes (stateOf r) = rdpIndexes st
      /\ match ty with
         | browser => getBrowserSocket (stateOf r) uuid = Some s
         | agent => browserConnections (stateOf r) = browserConnections st
         end)
  /\ (forall c,
        connection (sockets st) s = Some c -> readyState c <> CLOSED ->
        connectionType c = browser ->
        let r := step now (Closed s) st in
        getBrowserSocket (stateOf r) (browserId c) = None
        /\ isOpen (stateOf r) s = false
        /\ agentConnections (stateOf r) = agentConnections st).
Proof.
  intros Hreach. pose proof (reachable_Kept st Hreach) as Hkept. split.
  - intros ty uuid Hc. cbv zeta. cbn [step]. rewrite bind_gets, Hc.
    unfold handleConnection. rewrite bind_modify.
    assert (Ho : forall st1, sockets st1 = sockets st ++
                   [(s, {| readyState := OPEN; connectionType := ty;
                           connectedAt := now; registeredDeviceId := None;
                           browserId := uuid |})] ->
                 isOpen st1 s = true).
    { intros st1 E. unfold isOpen. rewrite E, connection_app, Hc.
      cbn [connection]. now rewrite Nat.eqb_refl. }
    destruct ty; unfold stateOf, traceOf; cbn [ret modify fst snd].
    + repeat split; try reflexivity. now apply Ho.
    + repeat split; try reflexivity; [now apply Ho|].
      unfold getBrowserSocket. cbn [browserConnections withBrowserConnections].
      now rewrite get_set_same.
  - intros c Hc Hr Hb. cbv zeta. rewrite (step_closed st s c now Hc Hr), Hb.
    pose proof (onBrowserClose_run now (browserId c) (markClosed s st)) as Hrun.
    cbv zeta in Hrun. rewrite Hrun. unfold stateOf. cbn [fst snd].
    split; [|split].
    + unfold getBrowserSocket. cbn [browserConnections withBrowserConnections].
      rewrite (closeAll_browsers _ RDP RDP_laws),
        (closeAll_browsers _ SSH SSH_laws).
      cbn [browserConnections markClosed withSockets].
      rewrite get_delete_same; [reflexivity|apply Hkept].
    + apply eq_trans with (isOpen (markClosed s st) s).
      * apply isOpen_sockets. cbn [sockets withBrowserConnections].
        rewrite (closeAll_sockets _ RDP RDP_laws).
        apply (closeAll_sockets _ SSH SSH_laws).
      * unfold isOpen, markClosed. cbn [sockets withSockets].
        rewrite connection_updateConnection, Nat.eqb_refl, Hc. reflexivity.
    + cbn [agentConnections withBrowserConnections].
      rewrite (closeAll_agents _ RDP RDP_laws), (closeAll_agents _ SSH SSH_laws).
      reflexivity.
Qed.

Lemma connection_life_cycle_witness :
  getBrowserSocket afterSessionOpened "b1" = Some 2%nat
  /\ getBrowserSocket (stateOf (step 7 (Closed 2%nat) afterSessionOpened)) "b1"
     = None
  /\ isOpen (stateOf (step 7 (Connected 5%nat agent "") afterSessionOpened)) 5%nat
     = true
  /\ getDeviceList (stateOf (step 7 (Connected 5%nat agent "") afterSessionOpened))
     = getDeviceList afterSessionOpened.
Proof.
  assert (R2 : readyState browser2 <> CLOSED) by discriminate.
  destruct (connection_life_cycle afterSessionOpened 2%nat 7
              (reachable_run sessionOpened)) as [_ H].
  destruct (H browser2 eq_refl R2 eq_refl) as (H1 & _).
  destruct (connection_life_cycle afterSessionOpened 5%nat 7
              (reachable_run sessionOpened)) as [G _].
  destruct (G agent "" eq_refl) as (_ & G2 & G3 & _).
  split; [reflexivity|]. split; [exact H1|]. split; [exact G2|].
  unfold getDeviceList. now rewrite G3.
Defined.

End ServerMoreProofs.

(* ===================================================================== *)
(** ** More on the messages                                               *)
(* ===================================================================== *)

Module MessagesProofs.
Import Json Messages SessionManager Server ServerMore.
Local Open Scope string_scope.
Local Open Scope list_scope.

Lemma kind_type_nonempty (S : Type) (K : SessionKind S) suffix c :
  (kindName K ++ String c suffix)%string <> "".
Proof. destruct (kindName K); discriminate. Qed.

Lemma parse_created now ty payload :
  ty <> "" ->
  parseMessage (Parsed (createMessageString now ty payload))
  = valid {| type := ty; timestamp := now;
             payload := option_map stringify payload |}.
Proof.
  intros H. unfold parseMessage, isValidMessageStructure, createMessageString.
  destruct payload as [p|]; cbn;
    (destruct (String.eqb_spec ty ""); [contradiction|reflexivity]).
Qed.

Lemma stringify_finite : forall v, allFinite v = true -> stringify v = v.
Proof.
  fix IH 1. intros [| b | [z|] | text | items | fields]; cbn [stringify allFinite];
    try reflexivity; try discriminate; intros H; f_equal.
  - induction items as [|x items IHitems]; [reflexivity|].
    cbn [forallb map] in *. apply andb_true_iff in H. destruct H as [Hx H].
    now rewrite (IH x Hx), (IHitems H).
  - induction fields as [|[name x] fields IHfields]; [reflexivity|].
    cbn [forallb map snd] in *. apply andb_true_iff in H. destruct H as [Hx H].
    now rewrite (IH x Hx), (IHfields H).
Qed.

Lemma stringify_written : forall v, writtenAs v (stringify v).
Proof.
  fix IH 1. intros [| b | [z|] | text | items | fields]; cbn [stringify];
    try constructor.
  - induction items as [|x items IHitems]; constructor;
      [apply IH | exact IHitems].
  - induction fields as [|[name x] fields IHfields]; constructor;
      [split; [reflexivity | apply IH] | exact IHfields].
Qed.

(** X27. What [createMessageString] builds, [parseMessage] accepts: for
    a non-empty type, parsing the message gives back the type, the time
    stamp and the payload as [JSON.stringify] writes it, an absent
    payload staying absent: every [NaN] and infinity in it, at any depth,
    has become [null] and nothing else differs, so that a payload that
    holds no such number comes back as it was.  The same for an error
    message, its code, its text and its [details]. *)
Theorem created_message_parses now ty payload code text details :
  ty <> "" ->
  (exists written,
      parseMessage (Parsed (createMessageString now ty payload))
      = valid {| type := ty; timestamp := now; payload := written |}
      /\ match payload, written with
         | None, None => True
         | Some p, Some w => writtenAs p w /\ (allFinite p = true -> w = p)
         | _, _ => False
         end)
  /\ (exists written,
        parseMessage (Parsed (createErrorMessage now code text details))
        = valid {| type := "error"; timestamp := now;
                   payload := Some (JObject ([("code", JString code);
                                              ("message", JString text)]
                                             ++ optionalField "details" written)) |}
        /\ match details, written with
           | None, None => True
           | Some d, Some w => writtenAs d w /\ (allFinite d = true -> w = d)
           | _, _ => False
           end).
Proof.
  intros H. split.
  - exists (option_map stringify payload). split; [now apply parse_created|].
    destruct payload as [p|]; cbn [option_map]; [|exact I].
    split; [apply stringify_written | apply stringify_finite].
  - exists (option_map stringify details). split.
    + unfold createErrorMessage. rewrite parse_created by discriminate.
      now destruct details.
    + destruct details as [d|]; cbn [option_map]; [|exact I].
      split; [apply stringify_written | apply stringify_finite].
Qed.

(** A message without payload parses; a payload of strings comes back as
    it was; one with [NaN] in it comes back with [null] in its place; an
    empty type is refused by the parser. *)
Lemma created_message_parses_witness :
  parseMessage (Parsed (createMessageString 5 "rdp:data" None))
  = valid {| type := "rdp:data"; timestamp := 5; payload := None |}
  /\ parseMessage
       (Parsed (createMessageString 5 "rdp:data"
                  (Some (JObject [("sessionId", JString "s1");
                                  ("data", JString "4.sync;")]))))
     = valid {| type := "rdp:data"; timestamp := 5;
                payload := Some (JObject [("sessionId", JString "s1");
                                          ("data", JString "4.sync;")]) |}
  /\ parseMessage
       (Parsed (createMessageString 5 "ssh:resize"
                  (Some (JObject [("cols", JNumber NonFinite);
                                  ("rows", JNumber (Finite 24))]))))
     = valid {| type := "ssh:resize"; timestamp := 5;
                payload := Some (JObject [("cols", JNull);
                                          ("rows", JNumber (Finite 24))]) |}
  /\ parseMessage (Parsed (createMessageString 5 "" None))
     = invalid "Invalid message structure: must have type (string) and timestamp (number)".
Proof.
  split; [|split; [|split; [|reflexivity]]].
  - destruct (created_message_parses 5 "rdp:data" None "" "" None)
      as [[written [E W]] _]; [discriminate|].
    rewrite E. now destruct written.
  - destruct (created_message_parses 5 "rdp:data"
                (Some (JObject [("sessionId", JString "s1");
                                ("data", JString "4.sync;")])) "" "" None)
      as [[written [E W]] _]; [discriminate|].
    rewrite E. destruct written as [w|]; [|destruct W].
    destruct W as [_ W]. now rewrite (W eq_refl).
  - reflexivity.
Defined.

(** X28. The messages the relay forwards pass the relay's own checks: a
    [data], [close], [session:request] or [session:response] message
    built by the proxy for non-empty ids is accepted by [parseMessage],
    and its payload is accepted by the validator of its type, which
    gives back the same ids, data, reason, flag and error text. *)
Theorem forwarded_messages_validate (S : Type) (K : SessionKind S)
    now sessionId deviceId text success error :
  sessionId <> "" -> deviceId <> "" ->
  let accepted (message : value) (check : option value -> Prop) :=
    exists m, parseMessage (Parsed message) = valid m /\ check (payload m) in
  accepted (dataMessage K now sessionId text)
    (fun p => validateSshDataPayload p
              = valid {| data_sessionId := sessionId; data_data := text |})
  /\ accepted (closeMessage K now sessionId text)
       (fun p => validateSshClosePayload p
                 = valid {| close_sessionId := sessionId;
                            close_reason := Some text |})
  /\ accepted (sessionRequest K now deviceId sessionId)
       (fun p => validateSshSessionRequestPayload p
                 = valid {| req_deviceId := deviceId;
                            req_sessionId := sessionId |})
  /\ accepted (sessionResponse K now sessionId success error)
       (fun p => validateSshSessionResponsePayload p
                 = valid {| resp_sessionId := sessionId;
                            resp_success := success; resp_error := error |}).
Proof.
  intros Hs Hd accepted. subst accepted. cbv beta.
  split; [|split; [|split]].
  - eexists. split; [apply parse_created, kind_type_nonempty|].
    cbn. now destruct (String.eqb_spec sessionId "").
  - eexists. split; [apply parse_created, kind_type_nonempty|].
    cbn. now destruct (String.eqb_spec sessionId "").
  - eexists. split; [apply parse_created, kind_type_nonempty|].
    cbn. destruct (String.eqb_spec deviceId ""); [contradiction|].
    now destruct (String.eqb_spec sessionId "").
  - eexists. split; [apply parse_created, kind_type_nonempty|].
    cbn. destruct (String.eqb_spec sessionId ""); [contradiction|].
    now destruct error.
Qed.

Lemma forwarded_messages_validate_witness :
  exists m,
    parseMessage (Parsed (dataMessage SSH 7 "s1" "ls")) = valid m
    /\ validateSshDataPayload (payload m)
       = valid {| data_sessionId := "s1"; data_data := "ls" |}.
Proof.
  destruct (forwarded_messages_validate _ SSH 7 "s1" "pi-1" "ls" true None)
    as [H _]; [discriminate | discriminate | exact H].
Defined.

(** X29. Every payload validator first requires an object: a payload
    that is absent, [null], a string, a number or a boolean is rejected
    by each of them with "Payload must be an object".  An array passes
    that test and is rejected at the first required field. *)
Theorem payload_must_be_object payload :
  isObject payload = false ->
  validateAgentRegisterPayload payload = invalid "Payload must be an object"
  /\ validateAgentHeartbeatPayload payload = invalid "Payload must be an object"
  /\ validateSshSessionRequestPayload payload
     = invalid "Payload must be an object"
  /\ validateSshSessionResponsePayload payload
     = invalid "Payload must be an object"
  /\ validateSshDataPayload payload = invalid "Payload must be an object"
  /\ validateSshResizePayload payload = invalid "Payload must be an object"
  /\ validateSshClosePayload payload = invalid "Payload must be an object"
  /\ forall items,
       validateAgentRegisterPayload (Some (JArray items))
       = invalid "deviceId must be a non-empty string"
       /\ validateSshDataPayload (Some (JArray items))
          = invalid "sessionId must be a non-empty string".
Proof.
  intros H.
  unfold validateAgentRegisterPayload, validateAgentHeartbeatPayload,
    validateSshSessionRequestPayload, validateSshSessionResponsePayload,
    validateSshDataPayload, validateSshResizePayload, validateSshClosePayload.
  destruct payload as [p|]; [rewrite H; cbn [negb]|];
    repeat split; reflexivity.
Qed.

Lemma payload_must_be_object_witness :
  validateSshClosePayload (Some JNull) = invalid "Payload must be an object"
  /\ validateSshResizePayload (Some (JString "80x24"))
     = invalid "Payload must be an object"
  /\ validateAgentHeartbeatPayload None = invalid "Payload must be an object".
Proof.
  split; [|split].
  - apply (payload_must_be_object (Some JNull)). reflexivity.
  - apply (payload_must_be_object (Some (JString "80x24"))). reflexivity.
  - apply (payload_must_be_object None). reflexivity.
Defined.

End MessagesProofs.
